(** * MOSES behavioural scorers (opencog/learning/moses/moses/scoring.cc)

    A shallow embedding of the scorers of [scoring.cc] and the properties
    of them that the specification states.

    Numeric model.
    - [unsigned] values are integers in [0, 2^32) and every operation on
      them wraps modulo [2^32].
    - Values stored in tables ([contin_t] outputs, thresholds) are finite
      doubles, hence rationals: they are modelled by [Q], compared
      numerically.
    - Scores, [score_t], are reals extended with the IEEE special values
      (both infinities and NaN), so that [log 0], [x / 0] and [0 / 0]
      behave as in the program; signed zeros are not modelled.  The
      operations of [Score] are exact.  Where a property depends on the
      rounding of the scores, the function is written over an arbitrary
      arithmetic ([in_arith]) and the property is proved for every
      monotone rounding of the exact result ([Rounded]); IEEE 754 binary32
      and binary64 ([Binary]) give the values that are computed.  Counts
      of rows that add up to less than [2^24] are the same in all of
      them. *)

From Stdlib Require Import ZArith QArith Reals Lra Lia List Bool String.
From Stdlib Require Import Sorting.Sorted Permutation Qreals.
From Stdlib Require Floats.SpecFloat.
Import ListNotations.

Set Implicit Arguments.
Set Warnings "-register-all".

(* ================================================================== *)
(** * Machine integers *)

Module Unsigned.

Definition modulus : Z := 2 ^ 32.

(** Conversion of an integer to [unsigned]. *)
Definition wrap (z : Z) : Z := z mod modulus.

Definition add (a b : Z) : Z := wrap (a + b).
Definition sub (a b : Z) : Z := wrap (a - b).

Definition in_range (z : Z) : Prop := (0 <= z < modulus)%Z.

End Unsigned.

(* ================================================================== *)
(** * Scores: reals with the IEEE special values *)

Inductive score_t : Type :=
| Fin (r : R)
| PInf
| NInf
| NaN.

Module Score.

Local Open Scope R_scope.

Definition of_Z (z : Z) : score_t := Fin (IZR z).
Definition of_Q (q : Q) : score_t := Fin (Q2R q).

Definition zero : score_t := Fin 0.
Definition one : score_t := Fin 1.

Definition neg (x : score_t) : score_t :=
  match x with
  | Fin r => Fin (- r)
  | PInf => NInf
  | NInf => PInf
  | NaN => NaN
  end.

Definition add (x y : score_t) : score_t :=
  match x, y with
  | NaN, _ | _, NaN => NaN
  | Fin a, Fin b => Fin (a + b)
  | PInf, NInf | NInf, PInf => NaN
  | PInf, _ | _, PInf => PInf
  | NInf, _ | _, NInf => NInf
  end.

Definition sub (x y : score_t) : score_t := add x (neg y).

(** The infinity that has the sign of [r]; NaN for [r = 0]. *)
Definition signed_inf (r : R) : score_t :=
  if Rlt_dec 0 r then PInf else if Rlt_dec r 0 then NInf else NaN.

Definition mul (x y : score_t) : score_t :=
  match x, y with
  | NaN, _ | _, NaN => NaN
  | Fin a, Fin b => Fin (a * b)
  | Fin a, PInf | PInf, Fin a => signed_inf a
  | Fin a, NInf | NInf, Fin a => signed_inf (- a)
  | PInf, PInf | NInf, NInf => PInf
  | PInf, NInf | NInf, PInf => NInf
  end.

Definition div (x y : score_t) : score_t :=
  match x, y with
  | NaN, _ | _, NaN => NaN
  | Fin a, Fin b => if Req_dec_T b 0 then signed_inf a else Fin (a / b)
  | Fin _, (PInf | NInf) => Fin 0
  | (PInf | NInf), (PInf | NInf) => NaN
  | PInf, Fin b => if Rlt_dec b 0 then NInf else PInf
  | NInf, Fin b => if Rlt_dec b 0 then PInf else NInf
  end.

(** [log] of libm: [-inf] at zero, NaN on the negatives. *)
Definition log (x : score_t) : score_t :=
  match x with
  | Fin a => if Rlt_dec 0 a then Fin (ln a)
             else if Req_dec_T a 0 then NInf else NaN
  | PInf => PInf
  | NInf | NaN => NaN
  end.

Definition abs (x : score_t) : score_t :=
  match x with
  | Fin a => Fin (Rabs a)
  | PInf | NInf => PInf
  | NaN => NaN
  end.

(** Comparisons: every comparison with NaN is false. *)
Definition ltb (x y : score_t) : bool :=
  match x, y with
  | NaN, _ | _, NaN => false
  | Fin a, Fin b => if Rlt_dec a b then true else false
  | NInf, (Fin _ | PInf) => true
  | Fin _, PInf => true
  | _, _ => false
  end.

Definition leb (x y : score_t) : bool :=
  match x, y with
  | NaN, _ | _, NaN => false
  | Fin a, Fin b => if Rle_dec a b then true else false
  | NInf, _ => true
  | _, PInf => true
  | _, _ => false
  end.

Definition max (x y : score_t) : score_t := if ltb x y then y else x.

(** Order on scores seen as extended reals, for stating properties. *)
Definition lt (x y : score_t) : Prop := ltb x y = true.
Definition le (x y : score_t) : Prop := leb x y = true.

Definition is_finite (x : score_t) : Prop := exists r, x = Fin r.

End Score.

Definition behavioral_score : Type := list score_t.

(** [std::pair<behavioral_score, score_t>]: the score and the complexity
    penalty. *)
Definition penalized_behavioral_score : Type := (behavioral_score * score_t)%type.


(* ================================================================== *)
(** * Failure

    An exception ([boost::get] on a vertex of another type, a failed
    [OC_ASSERT]) and undefined behaviour (indexing past the end of a
    vector, advancing an iterator past the last sibling) are [None]. *)

Definition obind {A B : Type} (m : option A) (f : A -> option B) : option B :=
  match m with
  | Some a => f a
  | None => None
  end.

Notation "x <- m ;; k" := (obind m (fun x => k))
  (at level 61, m at next level, right associativity).

(* ================================================================== *)
(** * Vertices, programs and tables *)

(** The vertices the scorers look at. *)
Inductive vertex : Type :=
| logical_true
| logical_false
| logical_and
| logical_or
| logical_not
| cond
| argument (idx : Z)
| contin (c : Q)
| enum (name : string).

Definition vertex_eqb (a b : vertex) : bool :=
  match a, b with
  | logical_true, logical_true
  | logical_false, logical_false
  | logical_and, logical_and
  | logical_or, logical_or
  | logical_not, logical_not
  | cond, cond => true
  | argument i, argument j => Z.eqb i j
  | contin x, contin y => Qeq_bool x y
  | enum s, enum t => String.eqb s t
  | _, _ => false
  end.

Definition bool_to_vertex (b : bool) : vertex :=
  if b then logical_true else logical_false.

Definition is_enum_type (v : vertex) : bool :=
  match v with
  | enum _ => true
  | _ => false
  end.

(** [boost::get<contin_t>] throws on a vertex that holds no [contin_t]. *)
Definition get_contin (v : vertex) : option Q :=
  match v with
  | contin c => Some c
  | _ => None
  end.

Definition vertex_seq : Type := list vertex.

(** A program: a tree of vertices ([tree.hh]); the children of a node are
    its siblings list. *)
Inductive combo_tree : Type :=
| Node (v : vertex) (children : list combo_tree).

Definition root (tr : combo_tree) : vertex :=
  match tr with Node v _ => v end.

Definition children (tr : combo_tree) : list combo_tree :=
  match tr with Node _ ch => ch end.

(** Output type of a table, [get_type_node (get_signature_output tt)]. *)
Inductive type_node : Type :=
| boolean_type
| contin_type
| enum_type.

(** ** Counters

    [Counter<K, unsigned>] is a [std::map] from keys to [unsigned]
    counts; a counter is the list of its entries in iteration order. *)

Module Counter.

Section Keyed.

Variable K : Type.
Variable eqb : K -> K -> bool.

Definition t : Type := list (K * Z).

(** Modelled from the spec: [Counter::get] (opencog/util/Counter.h is not
    among the sources) returns the occurrence count recorded for a value,
    0 for a value that was never observed. *)
Fixpoint get (c : t) (k : K) : Z :=
  match c with
  | [] => 0%Z
  | (k', n) :: rest => if eqb k' k then n else get rest k
  end.

(** Modelled from the spec: [Counter::total_count] (opencog/util/Counter.h
    is not among the sources) is the total of the occurrence counts of an
    entry, accumulated in the count type, [unsigned]. *)
Definition total_count (c : t) : Z :=
  fold_left (fun acc kv => Unsigned.add acc (snd kv)) c 0%Z.

Definition size (c : t) : nat := List.length c.

End Keyed.

(** Counters keyed by [contin_t] are kept in increasing key order, as
    [std::map<contin_t, unsigned>] iterates.  [update f k c] is
    [c[k] = f (c[k])], where [c[k]] inserts a zero count for a new key. *)
Fixpoint update (f : Z -> Z) (k : Q) (c : t Q) : t Q :=
  match c with
  | [] => [(k, f 0%Z)]
  | (k', n) :: rest =>
      match Qcompare k k' with
      | Lt => (k, f 0%Z) :: c
      | Eq => (k', f n) :: rest
      | Gt => (k', n) :: update f k rest
      end
  end.

(** [c[k] += n] *)
Definition add_to (k : Q) (n : Z) (c : t Q) : t Q :=
  update (fun old => Unsigned.add old n) k c.

(** [c[k] = n] *)
Definition assign (k : Q) (n : Z) (c : t Q) : t Q :=
  update (fun _ => n) k c.

End Counter.

(** [CTable::counter_t], [Counter<vertex, unsigned>]. *)
Definition counter_t : Type := Counter.t vertex.

Definition counter_get (c : counter_t) (v : vertex) : Z :=
  Counter.get vertex_eqb c v.

(** A compressed table: its rows in iteration order, each an input vector
    with the counter of the outputs observed for it, and the output type
    of its signature. *)
Record CTable : Type := {
  tt_output : type_node;
  rows : list (vertex_seq * counter_t)
}.

(** Modelled from the spec: [CTable::uncompressed_size] (table.h is not
    among the sources) is the number of rows of the table before
    compression, the total of the rows' counts, an [unsigned]. *)
Definition uncompressed_size (ct : CTable) : Z :=
  fold_left (fun acc row => Unsigned.add acc (Counter.total_count (snd row)))
            (rows ct) 0%Z.

(** A multimap keyed by scores, as [std::multimap<contin_t, V>]: entries in
    non-decreasing key order, a new entry going after the entries whose
    key is not greater than its own. *)
Module Multimap.

Section Valued.

Variable V : Type.

Definition t : Type := list (score_t * V).

Fixpoint insert (k : score_t) (v : V) (m : t) : t :=
  match m with
  | [] => [(k, v)]
  | (k', v') :: rest =>
      if Score.ltb k k' then (k, v) :: m
      else (k', v') :: insert k v rest
  end.

End Valued.

End Multimap.

(* ================================================================== *)
(** * bscore_base: the Occam's razor coefficient *)

Module bscore_base.

(** The two members [set_complexity_coef] assigns. *)
Record t : Type := {
  occam : bool;
  complexity_coef : score_t
}.

(** [-log((double)alphabet_size) / log(p/(1-p))] *)
Definition discrete_complexity_coef (alphabet_size : Z) (p : score_t) : score_t :=
  Score.div (Score.neg (Score.log (Score.of_Z alphabet_size)))
            (Score.log (Score.div p (Score.sub Score.one p))).

(** [log(alphabet_size) * 2 * sq(stdev)] *)
Definition contin_complexity_coef (alphabet_size : Z) (stdev : score_t) : score_t :=
  Score.mul (Score.mul (Score.log (Score.of_Z alphabet_size)) (Fin 2))
            (Score.mul stdev stdev).

(** [bscore_base::set_complexity_coef(unsigned alphabet_size, float p)];
    the state after the call. *)
Definition set_complexity_coef (self : t) (alphabet_size : Z) (p : score_t) : t :=
  let complexity_coef0 := Fin 0 in
  let occam' := Score.ltb (Fin 0) p && Score.ltb p (Fin (1 / 2)) in
  {| occam := occam';
     complexity_coef := if occam'
                        then discrete_complexity_coef alphabet_size p
                        else complexity_coef0 |}.

(** [bscore_base::set_complexity_coef(score_t complexity_ratio)] *)
Definition set_complexity_coef_ratio (self : t) (complexity_ratio : score_t) : t :=
  let occam' := Score.ltb (Fin 0) complexity_ratio in
  {| occam := occam';
     complexity_coef := if occam'
                        then Score.div Score.one complexity_ratio
                        else Fin 0 |}.

End bscore_base.

(** [sum_outputs] of a table of boolean outputs: the count of [target]. *)
Definition sum_outputs_boolean (target : vertex) (c : counter_t) : option score_t :=
  Some (Score.of_Z (counter_get c target)).

(** [sum_outputs] of a table of contin outputs: the sum of the row's
    values, each as many times as it occurs. *)
Definition sum_outputs_contin (c : counter_t) : option score_t :=
  fold_left
    (fun acc cv =>
       res <- acc ;;
       x <- get_contin (fst cv) ;;
       Some (Score.add res (Score.mul (Score.of_Q x) (Score.of_Z (snd cv)))))
    c (Some (Fin 0)).

(* ================================================================== *)
(** * discriminator, discriminating_bscore, recall_bscore, prerec_bscore *)

Module discriminating_bscore.

Record d_counts : Type := {
  true_positive_sum : score_t;
  false_positive_sum : score_t;
  positive_count : score_t;
  true_negative_sum : score_t;
  false_negative_sum : score_t;
  negative_count : score_t
}.

(** [d_counts::d_counts()] *)
Definition d_counts_init : d_counts :=
  {| true_positive_sum := Fin 0; false_positive_sum := Fin 0;
     positive_count := Fin 0; true_negative_sum := Fin 0;
     false_negative_sum := Fin 0; negative_count := Fin 0 |}.

Record t : Type := {
  _ctable : CTable;
  _output_type : type_node;
  sum_outputs : counter_t -> option score_t;
  _positive_total : score_t;
  _negative_total : score_t;
  _ctable_usize : Z;
  _min_threshold : score_t;
  _max_threshold : score_t;
  _hardness : score_t;
  _max_output : score_t;
  _min_output : score_t;
  occam : bool;
  complexity_coef : score_t
}.

Definition is_boolean (ty : type_node) : bool :=
  match ty with boolean_type => true | _ => false end.

(** [sum_neg] of a row, as the constructor, [count] and
    [best_possible_bscore] compute it. *)
Definition row_sum_neg (ty : type_node) (totalc : Z) (sum_pos : score_t) : score_t :=
  if is_boolean ty then Score.sub (Score.of_Z totalc) sum_pos
  else Score.neg sum_pos.

Section Construction.

(** [worst_score] is defined with [score_t] (types.h, not among the sources). *)
Variable worst_score : score_t.

(** [discriminator::discriminator]: the function summing a row, then the
    totals; the assertion fails on another output type. *)
Definition discriminator_sum_outputs (ty : type_node)
  : option (counter_t -> option score_t) :=
  match ty with
  | boolean_type => Some (sum_outputs_boolean logical_true)
  | contin_type => Some sum_outputs_contin
  | _ => None
  end.

Definition discriminator_totals (ty : type_node)
    (so : counter_t -> option score_t) (ct : CTable)
  : option (score_t * score_t) :=
  fold_left
    (fun acc vct =>
       tot <- acc ;;
       sum_pos <- so (snd vct) ;;
       let totalc := Counter.total_count (snd vct) in
       let sum_neg := row_sum_neg ty totalc sum_pos in
       Some (Score.add (fst tot) sum_pos, Score.add (snd tot) sum_neg))
    (rows ct) (Some (Fin 0, Fin 0)).

(** The largest and the smallest value of a contin table. *)
Definition contin_output_range (ct : CTable) : option (score_t * score_t) :=
  fold_left
    (fun acc cr =>
       fold_left
         (fun acc' cv =>
            mm <- acc' ;;
            x <- get_contin (fst cv) ;;
            let val := Score.of_Q x in
            Some (Score.max (fst mm) val,
                  (* std::min *)
                  if Score.ltb val (snd mm) then val else snd mm))
         (snd cr) acc)
    (rows ct) (Some (worst_score, Score.neg worst_score)).

(** [discriminating_bscore::discriminating_bscore] *)
Definition make (ct : CTable) (min_threshold max_threshold hardness : score_t)
  : option t :=
  let ty := tt_output ct in
  so <- discriminator_sum_outputs ty ;;
  tot <- discriminator_totals ty so ct ;;
  if negb (Score.ltb (Fin 0) hardness && Score.ltb (Fin 0) min_threshold
           && Score.leb min_threshold max_threshold)
  then None
  else
    range <- (if is_boolean ty then Some (Fin 1, Fin 0)
              else contin_output_range ct) ;;
    Some {| _ctable := ct; _output_type := ty; sum_outputs := so;
            _positive_total := fst tot; _negative_total := snd tot;
            _ctable_usize := uncompressed_size ct;
            _min_threshold := min_threshold;
            _max_threshold := max_threshold;
            _hardness := hardness;
            _max_output := fst range; _min_output := snd range;
            occam := false; complexity_coef := Fin 0 |}.

End Construction.

(** [discriminating_bscore::get_threshold_penalty] *)
Definition get_threshold_penalty (self : t) (value : score_t) : score_t :=
  let dst := Fin 0 in
  let dst :=
    if Score.ltb value (_min_threshold self)
    then Score.sub (Fin 1) (Score.div value (_min_threshold self))
    else dst in
  let dst :=
    if Score.ltb (_max_threshold self) value
    then Score.div (Score.sub value (_max_threshold self))
                   (Score.sub (Fin 1) (_max_threshold self))
    else dst in
  Score.mul (_hardness self) (Score.log (Score.sub (Fin 1) dst)).

Section Scoring.

(** The evaluator of programs and the complexity of a program belong to
    the combo library. *)
Variable eval_binding : vertex_seq -> combo_tree -> vertex.
Variable tree_complexity : combo_tree -> Z.

(** One iteration of the loop of [discriminator::count]. *)
Definition count_row (self : t) (tr : combo_tree) (ctr : d_counts)
    (vct : vertex_seq * counter_t) : option d_counts :=
  sum_pos <- sum_outputs self (snd vct) ;;
  let totalc := Counter.total_count (snd vct) in
  let sum_neg := row_sum_neg (_output_type self) totalc sum_pos in
  if vertex_eqb (eval_binding (fst vct) tr) logical_true
  then Some {| true_positive_sum := Score.add (true_positive_sum ctr) sum_pos;
               false_positive_sum := Score.add (false_positive_sum ctr) sum_neg;
               positive_count := Score.add (positive_count ctr) (Score.of_Z totalc);
               true_negative_sum := true_negative_sum ctr;
               false_negative_sum := false_negative_sum ctr;
               negative_count := negative_count ctr |}
  else Some {| true_positive_sum := true_positive_sum ctr;
               false_positive_sum := false_positive_sum ctr;
               positive_count := positive_count ctr;
               true_negative_sum := Score.add (true_negative_sum ctr) sum_neg;
               false_negative_sum := Score.add (false_negative_sum ctr) sum_pos;
               negative_count := Score.add (negative_count ctr) (Score.of_Z totalc) |}.

(** [discriminator::count] *)
Definition count (self : t) (tr : combo_tree) : option d_counts :=
  fold_left (fun acc vct => ctr <- acc ;; count_row self tr ctr vct)
            (rows (_ctable self)) (Some d_counts_init).

(** The two quotients both [operator()] start with. *)
Definition precision_of (ctr : d_counts) : score_t :=
  Score.div (true_positive_sum ctr)
            (Score.add (true_positive_sum ctr) (false_positive_sum ctr)).

Definition recall_of (ctr : d_counts) : score_t :=
  Score.div (true_positive_sum ctr)
            (Score.add (true_positive_sum ctr) (false_negative_sum ctr)).

Definition complexity_penalty (self : t) (tr : combo_tree) : score_t :=
  if occam self
  then Score.mul (Score.of_Z (tree_complexity tr)) (complexity_coef self)
  else Fin 0.

(** [recall_bscore::operator()] *)
Definition recall_bscore_operator (self : t) (tr : combo_tree)
  : option penalized_behavioral_score :=
  ctr <- count self tr ;;
  let precision := precision_of ctr in
  let recall := recall_of ctr in
  let precision_penalty := get_threshold_penalty self precision in
  Some ([recall; precision_penalty], complexity_penalty self tr).

(** [prerec_bscore::operator()] *)
Definition prerec_bscore_operator (self : t) (tr : combo_tree)
  : option penalized_behavioral_score :=
  ctr <- count self tr ;;
  let precision := precision_of ctr in
  let recall := recall_of ctr in
  let recall_penalty := get_threshold_penalty self recall in
  Some ([precision; recall_penalty], complexity_penalty self tr).

End Scoring.

End discriminating_bscore.

(* ================================================================== *)
(** * precision_bscore *)

Module precision_bscore.

Record t : Type := {
  ctable : CTable;
  ctable_usize : Z;
  min_activation : score_t;
  max_activation : score_t;
  penalty : score_t;
  positive : bool;
  worst_norm : bool;
  output_type : type_node;
  sum_outputs : counter_t -> option score_t;
  max_output : score_t;
  occam : bool;
  complexity_coef : score_t
}.

Section Construction.

Variable worst_score : score_t.

(** The row summing function the constructor installs; the assertion
    fails on an output type that is neither boolean nor contin. *)
Definition make_sum_outputs (ty : type_node) (positive_ : bool)
  : option (counter_t -> option score_t) :=
  match ty with
  | boolean_type => Some (sum_outputs_boolean (bool_to_vertex positive_))
  | contin_type =>
      Some (fun c => res <- sum_outputs_contin c ;;
                     Some (if positive_ then res else Score.neg res))
  | _ => None
  end.

(** The largest value of a contin table (the smallest, negated, when
    [positive] is false). *)
Definition contin_max_output (positive_ : bool) (ct : CTable) : option score_t :=
  fold_left
    (fun acc cr =>
       fold_left
         (fun acc' cv =>
            mo <- acc' ;;
            x <- get_contin (fst cv) ;;
            let val := Score.of_Q x in
            let val := if negb positive_ then Score.neg val else val in
            Some (Score.max mo val))
         (snd cr) acc)
    (rows ct) (Some worst_score).

(** [precision_bscore::precision_bscore] *)
Definition make (ct : CTable) (penalty_ min_activation_ max_activation_ : score_t)
    (positive_ worst_norm_ : bool) : option t :=
  let ty := tt_output ct in
  so <- make_sum_outputs ty positive_ ;;
  if negb (Score.ltb (Fin 0) penalty_ && Score.ltb (Fin 0) min_activation_
           && Score.leb min_activation_ max_activation_)
  then None
  else
    mo <- (match ty with
           | boolean_type => Some (Fin 1)
           | _ => contin_max_output positive_ ct
           end) ;;
    Some {| ctable := ct; ctable_usize := uncompressed_size ct;
            min_activation := min_activation_;
            max_activation := max_activation_;
            penalty := penalty_; positive := positive_;
            worst_norm := worst_norm_; output_type := ty;
            sum_outputs := so; max_output := mo;
            occam := false; complexity_coef := Fin 0 |}.

End Construction.

(** [precision_bscore::get_activation_penalty] *)
Definition get_activation_penalty (self : t) (activation : score_t) : score_t :=
  let dst := Fin 0 in
  let dst :=
    if Score.ltb activation (min_activation self)
    then Score.sub (Fin 1) (Score.div activation (min_activation self))
    else dst in
  let dst :=
    if Score.ltb (max_activation self) activation
    then Score.div (Score.sub activation (max_activation self))
                   (Score.sub (Fin 1) (max_activation self))
    else dst in
  Score.mul (penalty self) (Score.log (Score.sub (Fin 1) dst)).

(** The variables of the first loop of [operator()]. *)
Record actives : Type := {
  active : Z;
  sao : score_t;
  worst_deciles : Multimap.t Z
}.

Section Scoring.

Variable eval_binding : vertex_seq -> combo_tree -> vertex.
Variable tree_complexity : combo_tree -> Z.

(** One iteration of the loop over the table in [operator()]. *)
Definition active_row (self : t) (tr : combo_tree) (st : actives)
    (vct : vertex_seq * counter_t) : option actives :=
  if vertex_eqb (eval_binding (fst vct) tr) logical_true
  then
    sumo <- sum_outputs self (snd vct) ;;
    let totalc := Counter.total_count (snd vct) in
    Some {| sao := Score.add (sao st) sumo;
            active := Unsigned.add (active st) totalc;
            worst_deciles :=
              if worst_norm self && Score.ltb sumo (Fin 0)
              then Multimap.insert sumo totalc (worst_deciles st)
              else worst_deciles st |}
  else Some st.

Definition active_rows (self : t) (tr : combo_tree) : option actives :=
  fold_left (fun acc vct => st <- acc ;; active_row self tr st vct)
            (rows (ctable self))
            (Some {| active := 0%Z; sao := Fin 0; worst_deciles := [] |}).

(** The loop over the worst deciles, left at the first entry that takes
    [worst_count] above [n_deciles]. *)
Fixpoint worst_loop (n_deciles : Z) (wd : Multimap.t Z)
    (worst_count : Z) (avg_worst_deciles : score_t) : Z * score_t :=
  match wd with
  | [] => (worst_count, avg_worst_deciles)
  | pr :: rest =>
      let worst_count := Unsigned.add worst_count (snd pr) in
      let avg_worst_deciles := Score.add avg_worst_deciles (fst pr) in
      if (n_deciles <? worst_count)%Z
      then (worst_count, avg_worst_deciles)
      else worst_loop n_deciles rest worst_count avg_worst_deciles
  end.

Definition avg_worst (self : t) (st : actives) : score_t :=
  let avg_worst_deciles := Fin 0 in
  if worst_norm self && Score.ltb (Fin 0) (sao st)
  then
    let n_deciles := (active st / 10)%Z in
    let '(worst_count, avg_worst_deciles) :=
      worst_loop n_deciles (worst_deciles st) 0%Z avg_worst_deciles in
    Score.div avg_worst_deciles (Score.of_Z worst_count)
  else avg_worst_deciles.

(** The normalized precision [operator()] pushes first. *)
Definition precision_of (self : t) (st : actives) : score_t :=
  let avg_worst_deciles := avg_worst self st in
  let precision := Fin 1 in
  let precision :=
    if (0 <? active st)%Z
    then Score.div (Score.div (sao st) (Score.of_Z (active st))) (max_output self)
    else precision in
  if Score.ltb avg_worst_deciles (Fin 0)
  then Score.div precision (Score.neg avg_worst_deciles)
  else precision.

(** [precision_bscore::operator()] *)
Definition operator (self : t) (tr : combo_tree)
  : option penalized_behavioral_score :=
  st <- active_rows self tr ;;
  let precision := precision_of self st in
  let activation :=
    Score.div (Score.of_Z (active st)) (Score.of_Z (ctable_usize self)) in
  let activation_penalty := get_activation_penalty self activation in
  Some ([precision; activation_penalty],
        if occam self
        then Score.mul (Score.of_Z (tree_complexity tr)) (complexity_coef self)
        else Fin 0).

End Scoring.

(** The literals of the clause of a row, numbered from [idx]. *)
Fixpoint clause_arguments (idx : Z) (inputs : vertex_seq) : list combo_tree :=
  match inputs with
  | [] => []
  | input :: rest =>
      Node (argument (if vertex_eqb input logical_true then idx else (- idx)%Z)) []
      :: clause_arguments (idx + 1) rest
  end.

Definition row_t : Type := (vertex_seq * counter_t)%type.

(** The multimap from the precision of a row to the row and its count. *)
Definition precision_to_count (self : t) : option (Multimap.t (row_t * Z)) :=
  fold_left
    (fun acc it =>
       ptc <- acc ;;
       so <- sum_outputs self (snd it) ;;
       let total := Counter.total_count (snd it) in
       let precision := Score.div so (Score.of_Z total) in
       Some (Multimap.insert precision (it, total) ptc))
    (rows (ctable self)) (Some []).

(** The loop over the rows by decreasing precision: the clauses appended
    under the head and the count reached, left at the first row that
    takes [active] to the minimum activation. *)
Fixpoint clauses_loop (self : t) (ptc : Multimap.t (row_t * Z))
    (active : Z) (clauses : list combo_tree) : list combo_tree * Z :=
  match ptc with
  | [] => (clauses, active)
  | v :: rest =>
      let active := Unsigned.add active (snd (snd v)) in
      let dch := Node logical_and (clause_arguments 1 (fst (fst (snd v)))) in
      let clauses := clauses ++ [dch] in
      if Score.leb (Score.mul (Score.of_Z (ctable_usize self)) (min_activation self))
                   (Score.of_Z active)
      then (clauses, active)
      else clauses_loop self rest active clauses
  end.

(** [precision_bscore::gen_canonical_best_candidate] *)
Definition gen_canonical_best_candidate (self : t) : option combo_tree :=
  ptc <- precision_to_count self ;;
  Some (Node logical_or (fst (clauses_loop self (rev ptc) 0%Z []))).

(** The multimap [best_possible_bscore] builds: from the precision of a
    row to its sum of outputs and its count. *)
Definition max_precisions (self : t) : option (Multimap.t (score_t * Z)) :=
  fold_left
    (fun acc it =>
       mp <- acc ;;
       sumo <- sum_outputs self (snd it) ;;
       let total := Counter.total_count (snd it) in
       let precision := Score.div sumo (Score.of_Z total) in
       Some (Multimap.insert precision (sumo, total) mp))
    (rows (ctable self)) (Some []).

(** The loop of [best_possible_bscore] over the rows by decreasing
    precision, left at the first row that takes [active] to the minimum
    activation. *)
Fixpoint best_loop (self : t) (max_precisions_ : Multimap.t (score_t * Z))
    (active : Z) (sao : score_t) : Z * score_t :=
  match max_precisions_ with
  | [] => (active, sao)
  | mpv :: rest =>
      let sao := Score.add sao (fst (snd mpv)) in
      let active := Unsigned.add active (snd (snd mpv)) in
      if Score.leb (Score.mul (Score.of_Z (ctable_usize self)) (min_activation self))
                   (Score.of_Z active)
      then (active, sao)
      else best_loop self rest active sao
  end.

(** [precision_bscore::best_possible_bscore] *)
Definition best_possible_bscore (self : t) : option behavioral_score :=
  mp <- max_precisions self ;;
  let '(active, sao) := best_loop self (rev mp) 0%Z (Fin 0) in
  let precision :=
    Score.div (Score.div sao (Score.of_Z active)) (max_output self) in
  let activation :=
    Score.div (Score.of_Z active) (Score.of_Z (ctable_usize self)) in
  let activation_penalty := get_activation_penalty self activation in
  Some [precision; activation_penalty].

(** [precision_bscore::min_improv] *)
Definition min_improv (self : t) : score_t :=
  Score.div (Fin 1) (Score.of_Z (ctable_usize self)).

End precision_bscore.

(** ** Evaluation of a disjunction of conjunctions of literals *)

(** Modelled from the spec: the evaluator of programs is not among the
    sources; on the programs [gen_canonical_best_candidate] builds it is
    the evaluation of a disjunction of conjunctive clauses of literals
    over the inputs of a row, [argument idx] being input number [idx]
    (from 1) and [argument (- idx)] its negation. *)
Definition eval_literal (vs : vertex_seq) (lit : combo_tree) : bool :=
  match lit with
  | Node (argument idx) [] =>
      if (0 <? idx)%Z
      then match nth_error vs (Z.to_nat (idx - 1)) with
           | Some logical_true => true
           | _ => false
           end
      else match nth_error vs (Z.to_nat (- idx - 1)) with
           | Some logical_false => true
           | _ => false
           end
  | _ => false
  end.

Definition eval_clause (vs : vertex_seq) (cl : combo_tree) : bool :=
  match cl with
  | Node logical_and lits => forallb (eval_literal vs) lits
  | _ => false
  end.

Definition eval_dnf (vs : vertex_seq) (tr : combo_tree) : bool :=
  match tr with
  | Node logical_or cls => existsb (eval_clause vs) cls
  | _ => false
  end.

(** The programs [eval_dnf] is the evaluator of. *)
Definition is_literal (lit : combo_tree) : bool :=
  match lit with
  | Node (argument idx) [] => negb (idx =? 0)%Z
  | _ => false
  end.

Definition is_clause (cl : combo_tree) : bool :=
  match cl with
  | Node logical_and lits => forallb is_literal lits
  | _ => false
  end.

Definition is_dnf (tr : combo_tree) : bool :=
  match tr with
  | Node logical_or cls => forallb is_clause cls
  | _ => false
  end.

(* ================================================================== *)
(** * discretize_contin_bscore: the class of a value *)

Module discretize_contin_bscore.

(** [x < y] on [contin_t] *)
Definition Qltb (x y : Q) : bool := negb (Qle_bool y x).

(** [class_idx_within]: the recursion halves [u_idx - l_idx], and runs
    for ever when called with [u_idx <= l_idx]; [fuel] bounds its depth.
    [thresholds[i]] past the end of the vector is undefined.  The indices
    are [size_t]; [class_idx] only calls with [1 <= l_idx < u_idx], where
    no subtraction wraps. *)
Fixpoint class_idx_within (fuel : nat) (thresholds : list Q) (v : Q)
    (l_idx u_idx : nat) : option nat :=
  match fuel with
  | O => None
  | S fuel' =>
      (* base case *)
      if (u_idx - l_idx =? 1)%nat then Some l_idx
      else
        (* recursive case *)
        let m_idx := (l_idx + (u_idx - l_idx) / 2)%nat in
        t <- nth_error thresholds (m_idx - 1) ;;
        if Qltb v t
        then class_idx_within fuel' thresholds v l_idx m_idx
        else class_idx_within fuel' thresholds v m_idx u_idx
  end.

(** [class_idx]; the recursion is given the depth [s], more than it needs. *)
Definition class_idx (thresholds : list Q) (v : Q) : option nat :=
  t0 <- nth_error thresholds 0 ;;
  if Qltb v t0 then Some 0%nat
  else
    let s := List.length thresholds in
    tlast <- nth_error thresholds (s - 1) ;;
    if Qle_bool tlast v then Some s
    else class_idx_within s thresholds v 1 s.

(** The bucket found by scanning the thresholds from the first: the index
    of the first threshold above [v], the number of thresholds when there
    is none. *)
Fixpoint linear_scan (thresholds : list Q) (v : Q) : nat :=
  match thresholds with
  | [] => 0
  | t :: rest => if Qltb v t then 0 else S (linear_scan rest v)
  end.

(** Thresholds in non-decreasing order, as [boost::sort] leaves them. *)
Definition sorted (thresholds : list Q) : Prop :=
  Sorted Qle thresholds.

(** [boost::sort] leaves the thresholds in non-decreasing order; the
    sorted list is built by insertion. *)
Fixpoint sort_insert (x : Q) (l : list Q) : list Q :=
  match l with
  | [] => [x]
  | y :: rest => if Qltb y x then y :: sort_insert x rest else x :: l
  end.

Definition sort (l : list Q) : list Q := fold_right sort_insert [] l.

Record t : Type := {
  target : list vertex;
  cit : list vertex_seq;
  thresholds : list Q;
  weighted_accuracy : bool;
  classes : list nat;
  weights : list score_t;
  occam : bool;
  complexity_coef : score_t
}.

(** The classes of the targets, [class_idx (get_contin v)] for each. *)
Fixpoint target_classes (thresholds_ : list Q) (target_ : list vertex)
  : option (list nat) :=
  match target_ with
  | [] => Some []
  | v :: rest =>
      x <- get_contin v ;;
      c <- class_idx thresholds_ x ;;
      cs <- target_classes thresholds_ rest ;;
      Some (c :: cs)
  end.

(** [cs.count(i)] *)
Definition class_count (classes_ : list nat) (i : nat) : nat :=
  List.length (filter (Nat.eqb i) classes_).

(** [classes.size() / (float)(weights.size() * cs.count(i))] *)
Definition class_weight (classes_ : list nat) (n_weights i : nat) : score_t :=
  Score.div (Score.of_Z (Z.of_nat (List.length classes_)))
            (Score.of_Z (Z.of_nat (n_weights * class_count classes_ i))).

(** [discretize_contin_bscore::discretize_contin_bscore] *)
Definition make (ot : list vertex) (it : list vertex_seq) (thres : list Q)
    (wa : bool) : option t :=
  let thresholds_ := sort thres in
  classes_ <- target_classes thresholds_ ot ;;
  let n_weights := S (List.length thresholds_) in
  let weights_ :=
    if wa
    then map (class_weight classes_ n_weights) (seq 0 n_weights)
    else repeat (Fin 1) n_weights in
  Some {| target := ot; cit := it; thresholds := thresholds_;
          weighted_accuracy := wa; classes := classes_;
          weights := weights_; occam := false; complexity_coef := Fin 0 |}.

Section Scoring.

Variable eval_binding : vertex_seq -> combo_tree -> vertex.
Variable tree_complexity : combo_tree -> Z.

(** The component of a row: the weight of the class of the target when
    the class of the output of the candidate is another, 0 otherwise. *)
Definition operator_row (self : t) (v : vertex) (c_idx : nat) : option score_t :=
  x <- get_contin v ;;
  c <- class_idx (thresholds self) x ;;
  w <- nth_error (weights self) c_idx ;;
  Some (Score.mul (Score.of_Z (if negb (c_idx =? c)%nat then 1 else 0)) w).

Fixpoint operator_rows (self : t) (outputs : list vertex) (classes_ : list nat)
  : option behavioral_score :=
  match outputs, classes_ with
  | v :: outputs', c_idx :: classes' =>
      sc <- operator_row self v c_idx ;;
      bs <- operator_rows self outputs' classes' ;;
      Some (sc :: bs)
  | _, _ => Some []
  end.

(** [discretize_contin_bscore::operator()]; the components past the
    shorter of the outputs and the classes keep their initial 0. *)
Definition operator (self : t) (tr : combo_tree)
  : option penalized_behavioral_score :=
  let ct := map (fun vs => eval_binding vs tr) (cit self) in
  bs <- operator_rows self ct (classes self) ;;
  Some (bs ++ repeat (Fin 0) (List.length (target self) - List.length bs),
        if occam self
        then Score.mul (Score.of_Z (tree_complexity tr)) (complexity_coef self)
        else Fin 0).

End Scoring.

(** [discretize_contin_bscore::best_possible_bscore] *)
Definition best_possible_bscore (self : t) : behavioral_score :=
  repeat (Fin 0) (List.length (target self)).

End discretize_contin_bscore.

(* ================================================================== *)
(** * enum_table_bscore *)

Module enum_table_bscore.

Record t : Type := {
  ctable : CTable;
  occam : bool;
  complexity_coef : score_t
}.

(** The loop of [best_possible_bscore] over the entries of a row. *)
Definition most_of (c : counter_t) : Z :=
  fold_left (fun most it => if (most <? snd it)%Z then snd it else most) c 0%Z.

(** The component of a row: [score_t (most - c.total_count())], the
    difference being taken in [unsigned]. *)
Definition best_possible_row (c : counter_t) : score_t :=
  Score.of_Z (Unsigned.sub (most_of c) (Counter.total_count c)).

(** [enum_table_bscore::best_possible_bscore] *)
Definition best_possible_bscore (self : t) : behavioral_score :=
  map (fun vct => best_possible_row (snd vct)) (rows (ctable self)).

Section Scoring.

Variable eval_binding : vertex_seq -> combo_tree -> vertex.
Variable tree_complexity : combo_tree -> Z.

(** The component of a row in [operator()]: both counts are converted to
    [score_t] before the subtraction. *)
Definition operator_row (tr : combo_tree) (vct : vertex_seq * counter_t) : score_t :=
  let sc := Score.of_Z (counter_get (snd vct) (eval_binding (fst vct) tr)) in
  Score.sub sc (Score.of_Z (Counter.total_count (snd vct))).

(** [enum_table_bscore::operator()] *)
Definition operator (self : t) (tr : combo_tree) : penalized_behavioral_score :=
  (map (operator_row tr) (rows (ctable self)),
   if occam self
   then Score.mul (Score.of_Z (tree_complexity tr)) (complexity_coef self)
   else Fin 0).

End Scoring.

End enum_table_bscore.

(* ================================================================== *)
(** * enum_graded_bscore: the graded complexity *)

Module enum_graded_bscore.

Record t : Type := {
  ctable : CTable;
  grading : score_t;
  occam : bool;
  complexity_coef : score_t
}.

Section Complexity.

Variable tree_complexity : combo_tree -> Z.

(** The loop of [graded_complexity], [siblings] being the siblings from
    [predicate] on.  Advancing past the last sibling is undefined. *)
Fixpoint graded_loop (grading_ : score_t) (siblings : list combo_tree)
    (cpxy weight : score_t) : option score_t :=
  match siblings with
  | [] => None
  | predicate :: after =>
      let cpxy :=
        Score.add cpxy (Score.mul weight (Score.of_Z (tree_complexity predicate))) in
      (* Is it the last one, the else clause? *)
      if is_enum_type (root predicate) then Some cpxy
      else
        (* advance: next(predicate, 2) *)
        match after with
        | [] => None
        | _ :: siblings' =>
            graded_loop grading_ siblings' cpxy (Score.div weight grading_)
        end
  end.

(** [enum_graded_bscore::graded_complexity] *)
Definition graded_complexity (self : t) (it : combo_tree) : option score_t :=
  graded_loop (grading self) (children it) (Fin 0) (Fin 1).

End Complexity.

(** The children of a [cond]: each predicate followed by its consequent,
    then the else clause. *)
Definition cond_children (branches : list (combo_tree * combo_tree))
    (else_clause : combo_tree) : list combo_tree :=
  flat_map (fun pc => [fst pc; snd pc]) branches ++ [else_clause].

(** A chain of conditions: no predicate is an enum constant, the else
    clause is one. *)
Definition is_cond_chain (branches : list (combo_tree * combo_tree))
    (else_clause : combo_tree) : Prop :=
  Forall (fun pc => is_enum_type (root (fst pc)) = false) branches
  /\ is_enum_type (root else_clause) = true.

(** [sum_i ratio^(i0+i) * cs_i] *)
Fixpoint geometric_sum (ratio : R) (i0 : nat) (cs : list Z) : R :=
  match cs with
  | [] => 0
  | c :: rest => ratio ^ i0 * IZR c + geometric_sum ratio (S i0) rest
  end.

(** The complexities the loop meets: those of the predicates, then that
    of the else clause. *)
Definition chain_complexities (tree_complexity : combo_tree -> Z)
    (branches : list (combo_tree * combo_tree)) (else_clause : combo_tree)
  : list Z :=
  map (fun pc => tree_complexity (fst pc)) branches ++ [tree_complexity else_clause].

Section Scoring.

(** [eval_throws_binding] evaluates a subtree on the inputs of a row and
    may throw. *)
Variable eval_throws_binding : vertex_seq -> combo_tree -> option vertex.
Variable tree_complexity : combo_tree -> Z.

(** The loop of [operator()] over the predicates for one row, [siblings]
    being the siblings from [predicate] on. *)
Fixpoint score_loop (grading_ : score_t) (vs : vertex_seq) (c : counter_t)
    (siblings : list combo_tree) (sc weight : score_t) : option score_t :=
  match siblings with
  | [] => None
  | predicate :: after =>
      (* Is it the last one, the else clause? *)
      if is_enum_type (root predicate)
      then
        let consequent := root predicate in
        let sc := Score.add sc (Score.of_Z (counter_get c consequent)) in
        Some (Score.mul sc weight)
      else
        (* The first true predicate terminates. *)
        pr <- eval_throws_binding vs predicate ;;
        match after with
        | [] => None
        | next_ :: siblings' =>
            if vertex_eqb pr logical_true
            then
              let consequent := root next_ in
              let sc := Score.add sc (Score.of_Z (counter_get c consequent)) in
              Some (Score.mul sc weight)
            else
              score_loop grading_ vs c siblings' sc (Score.mul weight grading_)
        end
  end.

(** The component of a row of the table. *)
Definition operator_row (self : t) (it : combo_tree)
    (vct : vertex_seq * counter_t) : option score_t :=
  let total := Counter.total_count (snd vct) in
  score_loop (grading self) (fst vct) (snd vct) (children it)
             (Score.neg (Score.of_Z total)) (Fin 1).

Fixpoint operator_rows (self : t) (it : combo_tree)
    (rows_ : list (vertex_seq * counter_t)) : option behavioral_score :=
  match rows_ with
  | [] => Some []
  | vct :: rest =>
      sc <- operator_row self it vct ;;
      bs <- operator_rows self it rest ;;
      Some (sc :: bs)
  end.

Variable eval_binding : vertex_seq -> combo_tree -> vertex.

(** The scorer seen as the [enum_table_bscore] it derives from. *)
Definition as_enum_table (self : t) : enum_table_bscore.t :=
  {| enum_table_bscore.ctable := ctable self;
     enum_table_bscore.occam := occam self;
     enum_table_bscore.complexity_coef := complexity_coef self |}.

(** [enum_graded_bscore::operator()]; the assertion fails on a candidate
    that is neither an enum constant nor a [cond]. *)
Definition operator (self : t) (tr : combo_tree)
  : option penalized_behavioral_score :=
  if is_enum_type (root tr)
  then Some (enum_table_bscore.operator eval_binding tree_complexity
                                        (as_enum_table self) tr)
  else if negb (vertex_eqb (root tr) cond) then None
  else
    bs <- operator_rows self tr (rows (ctable self)) ;;
    (* Add the Occam's razor feature *)
    penalty <- (if occam self
                then cpxy <- graded_complexity tree_complexity self tr ;;
                     Some (Score.mul cpxy (complexity_coef self))
                else Some (Fin 0)) ;;
    Some (bs, penalty).

End Scoring.

End enum_graded_bscore.

(* ================================================================== *)
(** * interesting_predicate_bscore *)

Module interesting_predicate_bscore.

(** [counter_t] of the scorer, [Counter<contin_t, unsigned>]. *)
Definition counter_t : Type := Counter.t Q.

Record t : Type := {
  ctable : CTable;
  kld_w : score_t;
  skewness_w : score_t;
  abs_skewness : bool;
  stdU_w : score_t;
  skew_U_w : score_t;
  min_activation : score_t;
  max_activation : score_t;
  penalty : score_t;
  positive : bool;
  decompose_kld : bool;
  counter : counter_t;
  pdf : counter_t;
  skewness : score_t;
  occam : bool;
  complexity_coef : score_t
}.

(** The entries of the counter of a row written into a histogram by
    [write], one after the other. *)
Definition observe (write : Q -> Z -> counter_t -> counter_t)
    (c : Counter.t vertex) (acc : option counter_t) : option counter_t :=
  fold_left
    (fun acc' mv =>
       h <- acc' ;;
       x <- get_contin (fst mv) ;;
       Some (write x (snd mv) h))
    c acc.

(** The histogram the constructor accumulates:
    [counter[get_contin(v.first)] += v.second] over all the rows. *)
Definition unconditioned_counter (ct : CTable) : option counter_t :=
  fold_left (fun acc vct => observe Counter.add_to (snd vct) acc)
            (rows ct) (Some []).

(** Modelled from the spec: [OTable(tr, ctable)] (table.h is not among the
    sources) holds the value of the candidate on the input of every row
    of the table, in the order of the rows. *)
Definition OTable (eval_binding : vertex_seq -> combo_tree -> vertex)
    (tr : combo_tree) (ct : CTable) : list vertex :=
  map (fun vct => eval_binding (fst vct) tr) (rows ct).

(** The histogram [operator()] fills from the active rows:
    [pred_counter[get_contin(mv.first)] = mv.second]. *)
Definition conditioned_counter (target : vertex)
    (rows_ : list (vertex_seq * Counter.t vertex)) (pred_ot : list vertex)
  : option counter_t :=
  fold_left
    (fun acc cv =>
       if vertex_eqb (snd cv) target
       then observe Counter.assign (snd (fst cv)) acc
       else acc)
    (combine rows_ pred_ot) (Some []).

(** [total] and [actives] of [operator()] *)
Definition total_and_actives (target : vertex)
    (rows_ : list (vertex_seq * Counter.t vertex)) (pred_ot : list vertex)
  : Z * Z :=
  fold_left
    (fun acc cv =>
       let tc := Counter.total_count (snd (fst cv)) in
       (Unsigned.add (fst acc) tc,
        if vertex_eqb (snd cv) target then Unsigned.add (snd acc) tc
        else snd acc))
    (combine rows_ pred_ot) (0%Z, 0%Z).

Section Scoring.

Variable eval_binding : vertex_seq -> combo_tree -> vertex.
Variable tree_complexity : combo_tree -> Z.

(** [worst_score] (types.h) and the statistics of opencog/util, none among
    the sources: the Kullback-Leibler divergence of a histogram from the
    unconditioned one, as one number and decomposed, the weighted
    skewness of a histogram, the standardized Mann-Whitney U of two
    histograms; [pow] of libm. *)
Variable worst_score : score_t.
Variable klds : counter_t -> counter_t -> score_t.
Variable klds_decomposed : counter_t -> counter_t -> list score_t.
Variable weighted_skewness : counter_t -> score_t.
Variable standardizedMannWhitneyU : counter_t -> counter_t -> score_t.
Variable pow : score_t -> score_t -> score_t.

(** [interesting_predicate_bscore::interesting_predicate_bscore] *)
Definition make (ct : CTable)
    (kld_w_ skewness_w_ stdU_w_ skew_U_w_ : score_t)
    (min_activation_ max_activation_ penalty_ : score_t)
    (positive_ abs_skewness_ decompose_kld_ : bool) : option t :=
  counter_ <- unconditioned_counter ct ;;
  let pdf_ := if Score.ltb (Fin 0) kld_w_ then counter_ else [] in
  Some {| ctable := ct; kld_w := kld_w_; skewness_w := skewness_w_;
          abs_skewness := abs_skewness_; stdU_w := stdU_w_;
          skew_U_w := skew_U_w_; min_activation := min_activation_;
          max_activation := max_activation_; penalty := penalty_;
          positive := positive_; decompose_kld := decompose_kld_;
          counter := counter_; pdf := pdf_;
          skewness := weighted_skewness pdf_;
          occam := false; complexity_coef := Fin 0 |}.

(** [interesting_predicate_bscore::get_activation_penalty] *)
Definition get_activation_penalty (self : t) (activation : score_t) : score_t :=
  let dst :=
    Score.max
      (Score.div (Score.max (Score.sub (min_activation self) activation) (Fin 0))
                 (min_activation self))
      (Score.div (Score.max (Score.sub activation (max_activation self)) (Fin 0))
                 (Score.sub (Fin 1) (max_activation self))) in
  Score.log (pow (Score.sub (Fin 1) dst) (penalty self)).

Definition positive_w (w : score_t) : bool := Score.ltb (Fin 0) w.

(** The components pushed for the Kullback-Leibler divergence. *)
Definition kld_components (self : t) (pred_counter : counter_t) : behavioral_score :=
  if positive_w (kld_w self)
  then
    if decompose_kld self
    then map (Score.mul (kld_w self)) (klds_decomposed (pdf self) pred_counter)
    else [Score.mul (kld_w self) (klds (pdf self) pred_counter)]
  else [].

(** The components pushed for the skewness and the Mann-Whitney U. *)
Definition skew_U_components (self : t) (pred_counter : counter_t) : behavioral_score :=
  if positive_w (skewness_w self) || positive_w (stdU_w self)
     || positive_w (skew_U_w self)
  then
    let skew := positive_w (skewness_w self) || positive_w (skew_U_w self) in
    let diff_skewness :=
      if skew
      then Score.sub (weighted_skewness pred_counter) (skewness self)
      else Fin 0 in
    let val_skewness :=
      if abs_skewness self then Score.abs diff_skewness else diff_skewness in
    let bs1 :=
      if skew && positive_w (skewness_w self)
      then [Score.mul (skewness_w self) val_skewness] else [] in
    let rank := positive_w (stdU_w self) || positive_w (skew_U_w self) in
    let stdU :=
      if rank then standardizedMannWhitneyU (counter self) pred_counter
      else Fin 0 in
    let bs2 :=
      if rank && positive_w (stdU_w self)
      then [Score.mul (stdU_w self) (Score.abs stdU)] else [] in
    let bs3 :=
      if positive_w (skew_U_w self)
      then [Score.mul (Score.mul (skew_U_w self) stdU) diff_skewness] else [] in
    bs1 ++ bs2 ++ bs3
  else [].

(** [interesting_predicate_bscore::operator()] *)
Definition operator (self : t) (tr : combo_tree)
  : option penalized_behavioral_score :=
  let pred_ot := OTable eval_binding tr (ctable self) in
  let target := bool_to_vertex (positive self) in
  let '(total, actives) :=
    total_and_actives target (rows (ctable self)) pred_ot in
  pred_counter <- conditioned_counter target (rows (ctable self)) pred_ot ;;
  if (1 <? Counter.size pred_counter)%nat
  then
    let bs := kld_components self pred_counter in
    let bs := bs ++ skew_U_components self pred_counter in
    let activation := Score.div (Score.of_Z actives) (Score.of_Z total) in
    let activation_penalty := get_activation_penalty self activation in
    let bs := bs ++ [activation_penalty] in
    Some (bs,
          if occam self
          then Score.mul (Score.of_Z (tree_complexity tr)) (complexity_coef self)
          else Fin 0)
  else Some ([worst_score], Fin 0).

End Scoring.

(** The contin values the active rows hold, in the order [operator()]
    meets them.  A vertex that holds no contin makes [get_contin] throw. *)
Definition active_values (target : vertex)
    (rows_ : list (vertex_seq * Counter.t vertex)) (pred_ot : list vertex)
  : list vertex :=
  flat_map (fun cv => if vertex_eqb (snd cv) target
                      then map fst (snd (fst cv)) else [])
           (combine rows_ pred_ot).

(** The number of times [x] was observed in the active rows: the sum over
    the active rows of its count in the row. *)
Definition active_occurrences (target : vertex)
    (rows_ : list (vertex_seq * Counter.t vertex)) (pred_ot : list vertex)
    (x : Q) : Z :=
  fold_left
    (fun acc cv =>
       if vertex_eqb (snd cv) target
       then (acc + counter_get (snd (fst cv)) (contin x))%Z
       else acc)
    (combine rows_ pred_ot) 0%Z.

End interesting_predicate_bscore.

(* ================================================================== *)
(** * contin_bscore: the Occam's razor coefficient *)

Module contin_bscore.

(** [contin_bscore::set_complexity_coef(unsigned alphabet_size, float stdev)];
    [interesting_predicate_bscore::set_complexity_coef] is the same. *)
Definition set_complexity_coef (self : bscore_base.t) (alphabet_size : Z)
    (stdev : score_t) : bscore_base.t :=
  let occam' := Score.ltb (Fin 0) stdev in
  {| bscore_base.occam := occam';
     bscore_base.complexity_coef :=
       if occam'
       then bscore_base.contin_complexity_coef alphabet_size stdev
       else Fin 0 |}.

End contin_bscore.

(* ================================================================== *)
(** * logical_bscore *)

Module logical_bscore.

Record t : Type := {
  target : list bool;
  arity : nat;
  occam : bool;
  complexity_coef : score_t
}.

(** [-score_t(b1 != b2)] *)
Definition mismatch (b1 b2 : bool) : score_t :=
  Score.neg (Score.of_Z (if xorb b1 b2 then 1 else 0)).

Section Scoring.

(** [combo::complete_truth_table], the values of a program on all the
    inputs of an arity, and the complexity of a program belong to the
    combo library. *)
Variable complete_truth_table : combo_tree -> nat -> list bool.
Variable tree_complexity : combo_tree -> Z.

(** [logical_bscore::operator()]: [boost::transform] goes through the
    truth table and the target together; the score has the size of the
    target and starts at 0. *)
Definition operator (self : t) (tr : combo_tree) : penalized_behavioral_score :=
  let tt := complete_truth_table tr (arity self) in
  let written := map (fun bb => mismatch (fst bb) (snd bb))
                     (combine tt (target self)) in
  (written ++ repeat (Fin 0) (List.length (target self) - List.length written),
   if occam self
   then Score.mul (Score.of_Z (tree_complexity tr)) (complexity_coef self)
   else Fin 0).

End Scoring.

(** [logical_bscore::best_possible_bscore] *)
Definition best_possible_bscore (self : t) : behavioral_score :=
  repeat (Fin 0) (List.length (target self)).

End logical_bscore.

(* ================================================================== *)
(** * ctruth_table_bscore *)

Module ctruth_table_bscore.

Record t : Type := {
  ctable : CTable;
  occam : bool;
  complexity_coef : score_t
}.

(** The component of a row in [best_possible_bscore]:
    [-score_t(min(c.get(id::logical_true), c.get(id::logical_false)))]. *)
Definition best_possible_row (c : counter_t) : score_t :=
  Score.neg (Score.of_Z (Z.min (counter_get c logical_true)
                               (counter_get c logical_false))).

(** [ctruth_table_bscore::best_possible_bscore] *)
Definition best_possible_bscore (self : t) : behavioral_score :=
  map (fun vct => best_possible_row (snd vct)) (rows (ctable self)).

Section Scoring.

Variable eval_binding : vertex_seq -> combo_tree -> vertex.
Variable tree_complexity : combo_tree -> Z.

(** [negate_vertex] belongs to the combo library. *)
Variable negate_vertex : vertex -> vertex.

(** The component of a row in [operator()]:
    [-score_t(c.get(negate_vertex(eval_binding(vs, tr))))]. *)
Definition operator_row (tr : combo_tree) (vct : vertex_seq * counter_t) : score_t :=
  Score.neg (Score.of_Z (counter_get (snd vct)
                                     (negate_vertex (eval_binding (fst vct) tr)))).

(** [ctruth_table_bscore::operator()] *)
Definition operator (self : t) (tr : combo_tree) : penalized_behavioral_score :=
  (map (operator_row tr) (rows (ctable self)),
   if occam self
   then Score.mul (Score.of_Z (tree_complexity tr)) (complexity_coef self)
   else Fin 0).

End Scoring.

End ctruth_table_bscore.

(* ================================================================== *)
(** * enum_filter_bscore *)

Module enum_filter_bscore.

Record t : Type := {
  ctable : CTable;
  punish : score_t;
  occam : bool;
  complexity_coef : score_t
}.

(** The scorer seen as the [enum_table_bscore] it derives from. *)
Definition as_enum_table (self : t) : enum_table_bscore.t :=
  {| enum_table_bscore.ctable := ctable self;
     enum_table_bscore.occam := occam self;
     enum_table_bscore.complexity_coef := complexity_coef self |}.

Section Scoring.

Variable eval_binding : vertex_seq -> combo_tree -> vertex.
Variable eval_throws_binding : vertex_seq -> combo_tree -> option vertex.
Variable tree_complexity : combo_tree -> Z.

(** The component of a row, [predicate] being the first child of the
    [cond] and [consequent] the vertex of its next sibling. *)
Definition operator_row (self : t) (tr predicate : combo_tree)
    (consequent : vertex) (vct : vertex_seq * counter_t) : option score_t :=
  let vs := fst vct in
  let c := snd vct in
  let total := Counter.total_count c in
  (* The number that are wrong equals total minus num correct. *)
  let sc := Score.of_Z (counter_get c (eval_binding vs tr)) in
  let sc := Score.sub sc (Score.of_Z total) in
  (* Punish the first predicate, if it is wrong. *)
  pr <- eval_throws_binding vs predicate ;;
  Some (if vertex_eqb pr logical_true && negb (total =? counter_get c consequent)%Z
        then Score.sub sc (Score.mul (punish self) (Score.of_Z total))
        else sc).

Fixpoint operator_rows (self : t) (tr predicate : combo_tree)
    (consequent : vertex) (rows_ : list (vertex_seq * counter_t))
  : option behavioral_score :=
  match rows_ with
  | [] => Some []
  | vct :: rest =>
      sc <- operator_row self tr predicate consequent vct ;;
      bs <- operator_rows self tr predicate consequent rest ;;
      Some (sc :: bs)
  end.

(** [enum_filter_bscore::operator()]; the assertion fails on a candidate
    that is neither an enum constant nor a [cond], and a [cond] without
    a predicate and a consequent has no first child to read. *)
Definition operator (self : t) (tr : combo_tree)
  : option penalized_behavioral_score :=
  if is_enum_type (root tr)
  then Some (enum_table_bscore.operator eval_binding tree_complexity
                                        (as_enum_table self) tr)
  else if negb (vertex_eqb (root tr) cond) then None
  else
    match children tr with
    | predicate :: next_ :: _ =>
        let consequent := root next_ in
        bs <- operator_rows self tr predicate consequent (rows (ctable self)) ;;
        Some (bs,
              if occam self
              then Score.mul (Score.of_Z (tree_complexity tr)) (complexity_coef self)
              else Fin 0)
    | _ => None
    end.

End Scoring.

End enum_filter_bscore.

(* ================================================================== *)
(** * enum_effective_bscore *)

(** [int], 32 bits wide: the conversion of an integer wraps around. *)
Module Int.

Definition half : Z := 2 ^ 31.

Definition wrap (z : Z) : Z := (z + half) mod Unsigned.modulus - half.

(** [sc -= n] for an [int sc] and an [unsigned n]: the difference is
    taken in [unsigned] and converted back. *)
Definition sub_unsigned (sc n : Z) : Z :=
  wrap (Unsigned.sub (Unsigned.wrap sc) n).

End Int.

Module enum_effective_bscore.

Record t : Type := {
  ctable : CTable;
  ctable_usize : Z;
  grading : score_t;
  occam : bool;
  complexity_coef : score_t
}.

(** The scorer seen as the [enum_graded_bscore] it derives from. *)
Definition as_enum_graded (self : t) : enum_graded_bscore.t :=
  {| enum_graded_bscore.ctable := ctable self;
     enum_graded_bscore.grading := grading self;
     enum_graded_bscore.occam := occam self;
     enum_graded_bscore.complexity_coef := complexity_coef self |}.

(** A component of the score, [*bit], with its flag in [done], [*dit]. *)
Definition cell : Type := (score_t * bool)%type.

Section Scoring.

Variable eval_throws_binding : vertex_seq -> combo_tree -> option vertex.
Variable tree_complexity : combo_tree -> Z.

(** The loop over the table for a constant candidate:
    each component is [c.get(v) - score_t(c.total_count())].  Writing past the
    end of the score is undefined. *)
Fixpoint constant_pass (v : vertex) (rows_ : list (vertex_seq * counter_t))
    (bs : behavioral_score) : option behavioral_score :=
  match rows_ with
  | [] => Some bs
  | vct :: rows' =>
      match bs with
      | [] => None
      | _ :: bs' =>
          let c := snd vct in
          rest <- constant_pass v rows' bs' ;;
          Some (Score.sub (Score.of_Z (counter_get c v))
                          (Score.of_Z (Counter.total_count c)) :: rest)
      end
  end.

(** The loop over the table for the else clause. *)
Fixpoint else_pass (consequent : vertex) (weight : score_t)
    (rows_ : list (vertex_seq * counter_t)) (cells : list cell)
  : option (list cell) :=
  match rows_ with
  | [] => Some cells
  | vct :: rows' =>
      match cells with
      | [] => None
      | (b, d) :: cells' =>
          let c := snd vct in
          rest <- else_pass consequent weight rows' cells' ;;
          if negb d
          then
            (* The number that are wrong equals total minus num correct. *)
            let sc := Score.neg (Score.of_Z (Counter.total_count c)) in
            let sc := Score.add sc (Score.of_Z (counter_get c consequent)) in
            Some ((Score.add b (Score.mul weight sc), d) :: rest)
          else Some ((b, d) :: rest)
      end
  end.

(** The loop over the table for a predicate, with the flag [effective]. *)
Fixpoint predicate_pass (predicate : combo_tree) (consequent : vertex)
    (weight : score_t) (rows_ : list (vertex_seq * counter_t))
    (cells : list cell) (effective : bool) : option (list cell * bool) :=
  match rows_ with
  | [] => Some (cells, effective)
  | vct :: rows' =>
      match cells with
      | [] => None
      | (b, d) :: cells' =>
          let vs := fst vct in
          let c := snd vct in
          if negb d
          then
            pr <- eval_throws_binding vs predicate ;;
            if vertex_eqb pr logical_true
            then
              let sc := Int.wrap (counter_get c consequent) in
              (* A predicate is effective if it evaluates to true,
                 and at least gets a right answer when it does... *)
              let effective := if negb (0 =? sc)%Z then true else effective in
              (* The number that are wrong equals total minus num correct. *)
              let sc := Int.sub_unsigned sc (Counter.total_count c) in
              res <- predicate_pass predicate consequent weight rows' cells'
                                    effective ;;
              Some ((Score.add b (Score.mul weight (Score.of_Z sc)), true)
                      :: fst res, snd res)
            else
              res <- predicate_pass predicate consequent weight rows' cells'
                                    effective ;;
              Some ((b, d) :: fst res, snd res)
          else
            res <- predicate_pass predicate consequent weight rows' cells'
                                  effective ;;
            Some ((b, d) :: fst res, snd res)
      end
  end.

(** The loop over the predicates, [siblings] being the siblings from
    [predicate] on. *)
Fixpoint passes (grading_ : score_t) (rows_ : list (vertex_seq * counter_t))
    (siblings : list combo_tree) (cells : list cell) (weight : score_t)
  : option (list cell) :=
  match siblings with
  | [] => None
  | predicate :: after =>
      (* Is it the last one, the else clause? *)
      if is_enum_type (root predicate)
      then else_pass (root predicate) weight rows_ cells
      else
        match after with
        | [] => None
        | next_ :: siblings' =>
            let consequent := root next_ in
            res <- predicate_pass predicate consequent weight rows_ cells false ;;
            (* advance *)
            passes grading_ rows_ siblings' (fst res)
                   (if snd res then Score.mul weight grading_ else weight)
        end
  end.

(** [enum_effective_bscore::operator()]: the score has [_ctable_usize]
    components, all 0 at first; the result of a constant candidate
    leaves its penalty at 0. *)
Definition operator (self : t) (tr : combo_tree)
  : option penalized_behavioral_score :=
  let size := Z.to_nat (ctable_usize self) in
  if is_enum_type (root tr)
  then
    bs <- constant_pass (root tr) (rows (ctable self)) (repeat (Fin 0) size) ;;
    Some (bs, Fin 0)
  else if negb (vertex_eqb (root tr) cond) then None
  else
    cells <- passes (grading self) (rows (ctable self)) (children tr)
                    (repeat (Fin 0, false) size) (Fin 1) ;;
    (* Add the Occam's razor feature *)
    penalty <- (if occam self
                then cpxy <- enum_graded_bscore.graded_complexity
                               tree_complexity (as_enum_graded self) tr ;;
                     Some (Score.mul cpxy (complexity_coef self))
                else Some (Fin 0)) ;;
    Some (map fst cells, penalty).

End Scoring.

End enum_effective_bscore.

(* ================================================================== *)
(** * Scores that are rounded

    The result of [get_threshold_penalty], of [get_activation_penalty]
    and of the stop test of [gen_canonical_best_candidate] depends on the
    rounding of the scores.  These functions are written here over the
    operations of an arbitrary arithmetic of scores, which is then taken
    to be, in turn, the exact arithmetic of [Score], the exact arithmetic
    followed by a rounding, and IEEE 754 binary floating point. *)

(** The operations on scores that these functions use. *)
Module Arith.

Record t (F : Type) : Type := {
  zero : F;                (* the literal [0.0] *)
  one : F;                 (* the literal [1.0] *)
  of_unsigned : Z -> F;    (* the conversion of an [unsigned] *)
  ltb : F -> F -> bool;
  leb : F -> F -> bool;
  sub : F -> F -> F;
  mul : F -> F -> F;
  div : F -> F -> F
}.

End Arith.

Module in_arith.

Section Functions.

Variable F : Type.
Variable A : Arith.t F.

(** [log] of libm *)
Variable log : F -> F.

(** [discriminating_bscore::get_threshold_penalty] *)
Definition get_threshold_penalty (_min_threshold _max_threshold _hardness : F)
    (value : F) : F :=
  let dst := Arith.zero A in
  let dst :=
    if Arith.ltb A value _min_threshold
    then Arith.sub A (Arith.one A) (Arith.div A value _min_threshold)
    else dst in
  let dst :=
    if Arith.ltb A _max_threshold value
    then Arith.div A (Arith.sub A value _max_threshold)
                     (Arith.sub A (Arith.one A) _max_threshold)
    else dst in
  Arith.mul A _hardness (log (Arith.sub A (Arith.one A) dst)).

(** [precision_bscore::get_activation_penalty] *)
Definition get_activation_penalty (min_activation max_activation penalty : F)
    (activation : F) : F :=
  let dst := Arith.zero A in
  let dst :=
    if Arith.ltb A activation min_activation
    then Arith.sub A (Arith.one A) (Arith.div A activation min_activation)
    else dst in
  let dst :=
    if Arith.ltb A max_activation activation
    then Arith.div A (Arith.sub A activation max_activation)
                     (Arith.sub A (Arith.one A) max_activation)
    else dst in
  Arith.mul A penalty (log (Arith.sub A (Arith.one A) dst)).

(** [sum_outputs] of a table of boolean outputs: the count of [target]. *)
Definition sum_outputs_boolean (target : vertex) (c : counter_t) : option F :=
  Some (Arith.of_unsigned A (counter_get c target)).

(** [std::multimap::insert]: keys in ascending order, a new entry after
    those of the same key. *)
Fixpoint insert (V : Type) (k : F) (v : V) (m : list (F * V)) : list (F * V) :=
  match m with
  | [] => [(k, v)]
  | (k', v') :: rest =>
      if Arith.ltb A k k' then (k, v) :: m
      else (k', v') :: insert k v rest
  end.

(** The multimap of [gen_canonical_best_candidate], from the precision of
    a row to the row and its count. *)
Definition precision_to_count (sum_outputs : counter_t -> option F)
    (ctable : CTable) : option (list (F * (precision_bscore.row_t * Z))) :=
  fold_left
    (fun acc it =>
       ptc <- acc ;;
       so <- sum_outputs (snd it) ;;
       let total := Counter.total_count (snd it) in
       let precision := Arith.div A so (Arith.of_unsigned A total) in
       Some (insert precision (it, total) ptc))
    (rows ctable) (Some []).

(** The loop of [gen_canonical_best_candidate] over the rows by
    decreasing precision, left at the first row at which
    [ctable_usize * min_activation <= active]. *)
Fixpoint clauses_loop (ctable_usize : Z) (min_activation : F)
    (ptc : list (F * (precision_bscore.row_t * Z)))
    (active : Z) (clauses : list combo_tree) : list combo_tree * Z :=
  match ptc with
  | [] => (clauses, active)
  | v :: rest =>
      let active := Unsigned.add active (snd (snd v)) in
      let dch :=
        Node logical_and
             (precision_bscore.clause_arguments 1 (fst (fst (snd v)))) in
      let clauses := clauses ++ [dch] in
      if Arith.leb A (Arith.mul A (Arith.of_unsigned A ctable_usize)
                                  min_activation)
                     (Arith.of_unsigned A active)
      then (clauses, active)
      else clauses_loop ctable_usize min_activation rest active clauses
  end.

(** [precision_bscore::gen_canonical_best_candidate], of the members
    [sum_outputs], [ctable], [ctable_usize] and [min_activation]. *)
Definition gen_canonical_best_candidate (sum_outputs : counter_t -> option F)
    (ctable : CTable) (ctable_usize : Z) (min_activation : F)
  : option combo_tree :=
  ptc <- precision_to_count sum_outputs ctable ;;
  Some (Node logical_or
             (fst (clauses_loop ctable_usize min_activation (rev ptc) 0%Z []))).

End Functions.

End in_arith.

(** ** Exact arithmetic followed by a rounding *)

Module Rounded.

Section Rounding.

(** The rounding of a real to a score: a number of the format, or an
    infinity on overflow. *)
Variable round : R -> score_t.

(** The rounding of the result of an exact operation: the special values
    are results as they are. *)
Definition rounded (x : score_t) : score_t :=
  match x with
  | Fin r => round r
  | _ => x
  end.

Definition arith : Arith.t score_t :=
  {| Arith.zero := Fin 0;
     Arith.one := Fin 1;
     Arith.of_unsigned := fun z => round (IZR z);
     Arith.ltb := Score.ltb;
     Arith.leb := Score.leb;
     Arith.sub := fun x y => rounded (Score.sub x y);
     Arith.mul := fun x y => rounded (Score.mul x y);
     Arith.div := fun x y => rounded (Score.div x y) |}.

(** [log] of libm *)
Variable log : score_t -> score_t.

Definition get_threshold_penalty (self : discriminating_bscore.t)
    (value : score_t) : score_t :=
  in_arith.get_threshold_penalty arith log
    (discriminating_bscore._min_threshold self)
    (discriminating_bscore._max_threshold self)
    (discriminating_bscore._hardness self) value.

Definition get_activation_penalty (self : precision_bscore.t)
    (activation : score_t) : score_t :=
  in_arith.get_activation_penalty arith log
    (precision_bscore.min_activation self)
    (precision_bscore.max_activation self)
    (precision_bscore.penalty self) activation.

Definition gen_canonical_best_candidate (self : precision_bscore.t)
  : option combo_tree :=
  in_arith.gen_canonical_best_candidate arith
    (precision_bscore.sum_outputs self)
    (precision_bscore.ctable self)
    (precision_bscore.ctable_usize self)
    (precision_bscore.min_activation self).

End Rounding.

(** What the statements ask of a rounding: it rounds a real to a number
    or to an infinity, never to NaN; it is monotone; 0 and 1 are numbers
    of the format; and so is a number it rounds to.  The roundings to
    nearest and the directed roundings of a binary format are such. *)
Record rounding (round : R -> score_t) : Prop := {
  round_not_NaN : forall x, round x <> NaN;
  round_monotone : forall x y, (x <= y)%R -> Score.le (round x) (round y);
  round_zero : round 0%R = Fin 0;
  round_one : round 1%R = Fin 1;
  round_idempotent : forall x y, round x = Fin y -> round y = Fin y
}.

(** The difference of two distinct numbers of the format is not rounded
    to 0: here, for [1 - x]. *)
Definition gradual (round : R -> score_t) (x : R) : Prop :=
  (x < 1)%R -> round (1 - x)%R <> Fin 0.

(** What the statements ask of the logarithm of libm: it is 0 at 1 and
    monotone on the non-negative numbers, where it is not NaN. *)
Record logarithm (log : score_t -> score_t) : Prop := {
  log_one : log (Fin 1) = Fin 0;
  log_monotone :
    forall a b, (0 <= a <= b)%R -> Score.le (log (Fin a)) (log (Fin b))
}.

End Rounded.

(** ** IEEE 754 binary floating point, rounded to nearest even *)

Module Binary.

Section Format.

(** The precision and the exponent bound of the format: 24 and 128 for
    binary32, 53 and 1024 for binary64. *)
Variables prec emax : Z.

(** The number [m * 2^e], rounded. *)
Definition literal (m e : Z) : SpecFloat.spec_float :=
  SpecFloat.binary_normalize prec emax m e false.

Definition arith : Arith.t SpecFloat.spec_float :=
  {| Arith.zero := literal 0 0;
     Arith.one := literal 1 0;
     Arith.of_unsigned := fun z => literal z 0;
     Arith.ltb := SpecFloat.SFltb;
     Arith.leb := SpecFloat.SFleb;
     Arith.sub := SpecFloat.SFsub prec emax;
     Arith.mul := SpecFloat.SFmul prec emax;
     Arith.div := SpecFloat.SFdiv prec emax |}.

End Format.

Definition binary32 : Arith.t SpecFloat.spec_float := arith 24 128.
Definition binary64 : Arith.t SpecFloat.spec_float := arith 53 1024.

(** The rational a floating-point number is; 0 for the special values. *)
Definition value (x : SpecFloat.spec_float) : Q :=
  match x with
  | SpecFloat.S754_finite s m e =>
      (inject_Z (if s then Z.neg m else Z.pos m) * Qpower 2 e)%Q
  | _ => 0%Q
  end.

End Binary.

(* ================================================================== *)
(** * Notions used in the statements *)

(** [h * log a] as the penalties compute it, the result rounded. *)
Definition barrier (round : R -> score_t) (log : score_t -> score_t)
    (h a : R) : score_t :=
  Rounded.rounded round (Score.mul (Fin h) (log (Fin a))).

(** The penalty of a number for its distance to the band [[mn, mx]],
    with the coefficient [h], as both penalties compute it. *)
Definition band_penalty (round : R -> score_t) (log : score_t -> score_t)
    (mn mx h v : R) : score_t :=
  in_arith.get_threshold_penalty (Rounded.arith round) log
                                 (Fin mn) (Fin mx) (Fin h) (Fin v).

(** The sum that weights the complexity of branch [i] by [ratio^i]. *)
Definition graded_by_powers (ratio : R) (tree_complexity : combo_tree -> Z)
    (branches : list (combo_tree * combo_tree)) (else_clause : combo_tree)
  : score_t :=
  Fin (enum_graded_bscore.geometric_sum ratio 0
         (enum_graded_bscore.chain_complexities tree_complexity branches
                                                else_clause)).

(** A histogram with at most one entry, whose key is a value that
    satisfies [S]. *)
Definition at_most_one (S : Q -> Prop)
    (h : interesting_predicate_bscore.counter_t) : Prop :=
  h = [] \/ exists k n, h = [(k, n)] /\ S k.

(** The exact total of a list of counts. *)
Definition Zsum (l : list Z) : Z := fold_right Z.add 0%Z l.

(** The number of rows a compressed row stands for. *)
Definition count_sum (c : counter_t) : Z := Zsum (map snd c).

(** The number of rows of the table before compression. *)
Definition exact_size (ct : CTable) : Z :=
  Zsum (map (fun vct => count_sum (snd vct)) (rows ct)).

(** The table holds counts, and its uncompressed size is an [unsigned]. *)
Definition representable (ct : CTable) : Prop :=
  (forall vct, In vct (rows ct) ->
     forall kv, In kv (snd vct) -> (0 <= snd kv)%Z)
  /\ (exact_size ct < Unsigned.modulus)%Z.

(** The table holds counts that add up to less than [2^24]: every
    integer that counting its rows meets is then exact in [unsigned] and
    in a floating-point type of at least 24 bits of precision, and so
    are the sums and the differences of such integers. *)
Definition exactly_counted (ct : CTable) : Prop :=
  (forall vct, In vct (rows ct) ->
     forall kv, In kv (snd vct) -> (0 <= snd kv)%Z)
  /\ (exact_size ct < 2 ^ 24)%Z.

(** The inputs of the table are boolean. *)
Definition boolean_inputs (ct : CTable) : Prop :=
  forall vct, In vct (rows ct) ->
    forall v, In v (fst vct) -> v = logical_true \/ v = logical_false.

(** The rows of the table are distinct and have the same number of
    inputs, as the rows of a [CTable] are. *)
Definition distinct_rows (ct : CTable) : Prop :=
  NoDup (map fst (rows ct))
  /\ forall r r', In r (rows ct) -> In r' (rows ct) ->
       List.length (fst r) = List.length (fst r').

(** A row with the count stored next to it. *)
Definition with_total (it : precision_bscore.row_t) : precision_bscore.row_t * Z :=
  (it, Counter.total_count (snd it)).

(** The clause [gen_canonical_best_candidate] appends for an entry of
    the multimap. *)
Definition clause_of (v : score_t * (precision_bscore.row_t * Z)) : combo_tree :=
  Node logical_and (precision_bscore.clause_arguments 1 (fst (fst (snd v)))).

(** The count a row adds to [active]: its own when the candidate is true
    on it. *)
Definition active_total (eval_binding : vertex_seq -> combo_tree -> vertex)
    (tr : combo_tree) (vct : precision_bscore.row_t) : Z :=
  if vertex_eqb (eval_binding (fst vct) tr) logical_true
  then Counter.total_count (snd vct) else 0%Z.

(** The counts of [discriminator::count] when they are integers: the
    sums of each kind, and the two row counts, each the sum of its
    side. *)
Definition integer_counts (tp fp tn fn : Z) : discriminating_bscore.d_counts :=
  {| discriminating_bscore.true_positive_sum := Score.of_Z tp;
     discriminating_bscore.false_positive_sum := Score.of_Z fp;
     discriminating_bscore.positive_count := Score.of_Z (tp + fp);
     discriminating_bscore.true_negative_sum := Score.of_Z tn;
     discriminating_bscore.false_negative_sum := Score.of_Z fn;
     discriminating_bscore.negative_count := Score.of_Z (tn + fn) |}.

(** The entries the loops of [best_possible_bscore] and of
    [gen_canonical_best_candidate] go through from the count [active]:
    up to the first one that takes the count to the minimum activation. *)
Fixpoint reached_rows (self : precision_bscore.t)
    (ptc : Multimap.t (precision_bscore.row_t * Z)) (active : Z)
  : Multimap.t (precision_bscore.row_t * Z) :=
  match ptc with
  | [] => []
  | v :: rest =>
      let active := Unsigned.add active (snd (snd v)) in
      v :: (if Score.leb (Score.mul (Score.of_Z (precision_bscore.ctable_usize self))
                                    (precision_bscore.min_activation self))
                         (Score.of_Z active)
            then []
            else reached_rows self rest active)
  end.

(** The sum of a list of reals. *)
Definition Rsum (l : list R) : R := fold_right Rplus 0%R l.

(** The entry of the multimap of [best_possible_bscore] for an entry of
    the multimap of [gen_canonical_best_candidate], [sumo_of] giving the
    sum of the outputs of a row. *)
Definition max_precision_entry (sumo_of : precision_bscore.row_t -> R)
    (v : score_t * (precision_bscore.row_t * Z)) : score_t * (score_t * Z) :=
  (fst v, (Fin (sumo_of (fst (snd v))), snd (snd v))).

(** The number of times the value [x] is recorded in a row: the sum of
    the counts of the entries whose output is [x]. *)
Definition row_occurrences (x : Q) (c : counter_t) : Z :=
  Zsum (map (fun kv => match get_contin (fst kv) with
                       | Some y => if Qeq_bool y x then snd kv else 0%Z
                       | None => 0%Z
                       end) c).

(** The number of times the value [x] is recorded in a table. *)
Definition occurrences (x : Q) (ct : CTable) : Z :=
  Zsum (map (fun vct => row_occurrences x (snd vct)) (rows ct)).

(** The keys of a histogram are strictly increasing. *)
Definition increasing_keys (h : Counter.t Q) : Prop :=
  StronglySorted Qlt (map fst h).

(** The branch the scoring loop of a chain of conditions stops at: the
    number of predicates that did not hold before it, and the vertex of
    the consequent of the first predicate that holds, or of the else
    clause when none does. *)
Fixpoint first_true (holds : combo_tree -> bool)
    (branches : list (combo_tree * combo_tree)) (else_clause : combo_tree)
  : nat * vertex :=
  match branches with
  | [] => (0%nat, root else_clause)
  | pc :: rest =>
      if holds (fst pc) then (0%nat, root (snd pc))
      else let kv := first_true holds rest else_clause in (S (fst kv), snd kv)
  end.

(** A predicate holds on the inputs of a row when it evaluates to true. *)
Definition holds_on (eval_throws_binding : vertex_seq -> combo_tree -> option vertex)
    (vs : vertex_seq) (predicate : combo_tree) : bool :=
  match eval_throws_binding vs predicate with
  | Some v => vertex_eqb v logical_true
  | None => false
  end.

(** The counts of the row are non-negative and add up to an [int]. *)
Definition int_counts (vct : vertex_seq * counter_t) : Prop :=
  (forall kv, In kv (snd vct) -> 0 <= snd kv)%Z
  /\ (count_sum (snd vct) < Int.half)%Z.

(** The weights of the branches of a chain of conditions and of its
    else clause, for the rows [rows_] that reach the first branch with
    the weight [w]: the weight is multiplied by [g] after every branch
    whose predicate holds on a row that reaches it and whose consequent
    has a count on such a row. *)
Fixpoint branch_weights (holds : vertex_seq -> combo_tree -> bool) (g : R)
    (rows_ : list (vertex_seq * counter_t))
    (branches : list (combo_tree * combo_tree)) (w : R) : list R :=
  match branches with
  | [] => [w]
  | pc :: rest =>
      let effective :=
        existsb (fun vct : vertex_seq * counter_t =>
                   negb (counter_get (snd vct) (root (snd pc)) =? 0)%Z)
                (filter (fun vct => holds (fst vct) (fst pc)) rows_) in
      w :: branch_weights holds g
             (filter (fun vct => negb (holds (fst vct) (fst pc))) rows_)
             rest (if effective then (w * g)%R else w)
  end.

(** The component of a row of a chain of conditions, the weights of the
    branches being [weights]: the count of the consequent of the branch
    the row stops at minus the count of the row, times the weight of
    the branch. *)
Definition weighted_component (holds : vertex_seq -> combo_tree -> bool)
    (weights : list R) (branches : list (combo_tree * combo_tree))
    (else_clause : combo_tree) (vct : vertex_seq * counter_t) : R :=
  let stop := first_true (holds (fst vct)) branches else_clause in
  (nth (fst stop) weights 0
   * (IZR (counter_get (snd vct) (snd stop))
      - IZR (Counter.total_count (snd vct))))%R.

(** The rows whose flag in [done] is not set. *)
Fixpoint undone (rows_ : list (vertex_seq * counter_t))
    (cells : list enum_effective_bscore.cell) : list (vertex_seq * counter_t) :=
  match rows_, cells with
  | vct :: rows', (_, d) :: cells' =>
      if d then undone rows' cells' else vct :: undone rows' cells'
  | _, _ => []
  end.

(** The components once every row that is not done has received its
    weighted component. *)
Fixpoint settle (holds : vertex_seq -> combo_tree -> bool)
    (weights : list R) (branches : list (combo_tree * combo_tree))
    (else_clause : combo_tree) (rows_ : list (vertex_seq * counter_t))
    (cells : list enum_effective_bscore.cell) : behavioral_score :=
  match rows_, cells with
  | vct :: rows', (b, d) :: cells' =>
      (if d then b
       else Score.add b (Fin (weighted_component holds weights branches
                                                 else_clause vct)))
      :: settle holds weights branches else_clause rows' cells'
  | [], _ => map fst cells
  | _ :: _, [] => []
  end.

(** The component of a row of the discretized scorer without weights,
    for the output [fst vc] of the candidate and the class [snd vc] of
    the target: 0 when the class of the output is the class of the
    target, 1 when it is another. *)
Definition component_of_classes (thresholds_ : list Q) (b : score_t)
    (vc : vertex * nat) : Prop :=
  match get_contin (fst vc) with
  | Some x =>
      match discretize_contin_bscore.class_idx thresholds_ x with
      | Some c => b = if (snd vc =? c)%nat then Fin 0 else Fin 1
      | None => False
      end
  | None => False
  end.

(* ================================================================== *)
(** * Sample tables and scorers *)

(** A row whose count is shared by two output values. *)
Definition conflicting_row : counter_t := [(enum "a", 2%Z); (enum "b", 1%Z)].

Definition conflicting_table : enum_table_bscore.t :=
  {| enum_table_bscore.ctable :=
       {| tt_output := enum_type;
          rows := [([logical_true], conflicting_row)] |};
     enum_table_bscore.occam := false;
     enum_table_bscore.complexity_coef := Fin 0 |}.

(** A contin table whose two rows hold the same value, twice and three
    times. *)
Definition sample_contin_table : CTable :=
  {| tt_output := contin_type;
     rows := [([logical_false], [(contin 1, 2%Z)]);
              ([logical_true], [(contin 1, 3%Z)])] |}.

Definition sample_interesting : interesting_predicate_bscore.t :=
  {| interesting_predicate_bscore.ctable := sample_contin_table;
     interesting_predicate_bscore.kld_w := Fin 1;
     interesting_predicate_bscore.skewness_w := Fin 1;
     interesting_predicate_bscore.abs_skewness := true;
     interesting_predicate_bscore.stdU_w := Fin 1;
     interesting_predicate_bscore.skew_U_w := Fin 1;
     interesting_predicate_bscore.min_activation := Fin (1 / 4);
     interesting_predicate_bscore.max_activation := Fin (3 / 4);
     interesting_predicate_bscore.penalty := Fin 1;
     interesting_predicate_bscore.positive := true;
     interesting_predicate_bscore.decompose_kld := false;
     interesting_predicate_bscore.counter := [(1%Q, 5%Z)];
     interesting_predicate_bscore.pdf := [(1%Q, 5%Z)];
     interesting_predicate_bscore.skewness := Fin 0;
     interesting_predicate_bscore.occam := true;
     interesting_predicate_bscore.complexity_coef := Fin 1 |}.

(** The values of a candidate that is true on both rows. *)
Definition both_active : list vertex := [logical_true; logical_true].

(** A table of one boolean input: one row for each value of the input. *)
Definition sample_two_rows : CTable :=
  {| tt_output := boolean_type;
     rows := [([logical_false], [(logical_false, 1%Z)]);
              ([logical_true], [(logical_true, 1%Z)])] |}.

Definition sample_boolean_table : CTable :=
  {| tt_output := boolean_type;
     rows := [([logical_true], [(logical_false, 2%Z)])] |}.

Definition sample_precision (ct : CTable) : precision_bscore.t :=
  {| precision_bscore.ctable := ct;
     precision_bscore.ctable_usize := uncompressed_size ct;
     precision_bscore.min_activation := Fin (1 / 2);
     precision_bscore.max_activation := Fin 1;
     precision_bscore.penalty := Fin 1;
     precision_bscore.positive := true;
     precision_bscore.worst_norm := true;
     precision_bscore.output_type := boolean_type;
     precision_bscore.sum_outputs := sum_outputs_boolean logical_true;
     precision_bscore.max_output := Fin 1;
     precision_bscore.occam := false;
     precision_bscore.complexity_coef := Fin 0 |}.

Definition sample_discriminating (min_threshold max_threshold hardness : R)
    (ct : CTable) : discriminating_bscore.t :=
  {| discriminating_bscore._ctable := ct;
     discriminating_bscore._output_type := boolean_type;
     discriminating_bscore.sum_outputs := sum_outputs_boolean logical_true;
     discriminating_bscore._positive_total := Fin 0;
     discriminating_bscore._negative_total := Fin 0;
     discriminating_bscore._ctable_usize := uncompressed_size ct;
     discriminating_bscore._min_threshold := Fin min_threshold;
     discriminating_bscore._max_threshold := Fin max_threshold;
     discriminating_bscore._hardness := Fin hardness;
     discriminating_bscore._max_output := Fin 1;
     discriminating_bscore._min_output := Fin 0;
     discriminating_bscore.occam := false;
     discriminating_bscore.complexity_coef := Fin 0 |}.

Definition sample_graded (g : R) : enum_graded_bscore.t :=
  {| enum_graded_bscore.ctable := {| tt_output := enum_type; rows := [] |};
     enum_graded_bscore.grading := Fin g;
     enum_graded_bscore.occam := true;
     enum_graded_bscore.complexity_coef := Fin 1 |}.

(** A chain of one condition: [cond($1, a, b)]. *)
Definition sample_branches : list (combo_tree * combo_tree) :=
  [(Node (argument 1) [], Node (enum "a") [])].

Definition sample_else : combo_tree := Node (enum "b") [].

Definition sample_negate (v : vertex) : vertex :=
  match v with
  | logical_true => logical_false
  | logical_false => logical_true
  | _ => v
  end.

Definition sample_ctruth : ctruth_table_bscore.t :=
  {| ctruth_table_bscore.ctable := sample_boolean_table;
     ctruth_table_bscore.occam := false;
     ctruth_table_bscore.complexity_coef := Fin 0 |}.

Definition sample_logical : logical_bscore.t :=
  {| logical_bscore.target := [true; true];
     logical_bscore.arity := 1;
     logical_bscore.occam := false;
     logical_bscore.complexity_coef := Fin 0 |}.

Definition sample_filter : enum_filter_bscore.t :=
  {| enum_filter_bscore.ctable :=
       {| tt_output := enum_type;
          rows := [([logical_true], conflicting_row)] |};
     enum_filter_bscore.punish := Fin 1;
     enum_filter_bscore.occam := false;
     enum_filter_bscore.complexity_coef := Fin 0 |}.

(** A graded scorer over the table of the conflicting row. *)
Definition sample_graded_table (g : R) : enum_graded_bscore.t :=
  {| enum_graded_bscore.ctable :=
       {| tt_output := enum_type;
          rows := [([logical_true], conflicting_row)] |};
     enum_graded_bscore.grading := Fin g;
     enum_graded_bscore.occam := false;
     enum_graded_bscore.complexity_coef := Fin 0 |}.

(** An effective scorer over the table of the conflicting row, whose
    uncompressed size is 3. *)
Definition sample_effective : enum_effective_bscore.t :=
  {| enum_effective_bscore.ctable :=
       {| tt_output := enum_type;
          rows := [([logical_true], conflicting_row)] |};
     enum_effective_bscore.ctable_usize := 3;
     enum_effective_bscore.grading := Fin (1 / 2);
     enum_effective_bscore.occam := true;
     enum_effective_bscore.complexity_coef := Fin 1 |}.

(** A chain of two conditions: [cond($1, a, $2, b, c)]. *)
Definition sample_two_branches : list (combo_tree * combo_tree) :=
  [(Node (argument 1) [], Node (enum "a") []);
   (Node (argument 2) [], Node (enum "b") [])].

Definition sample_last : combo_tree := Node (enum "c") [].

(** A complexity that counts the arguments of these programs: 1 for a
    predicate [$i], 0 for an enum constant. *)
Definition sample_argument_complexity (tr : combo_tree) : Z :=
  if is_enum_type (root tr) then 0%Z else 1%Z.

(** A complexity that counts the second predicate only. *)
Definition sample_second_complexity (tr : combo_tree) : Z :=
  match root tr with
  | argument 2 => 1%Z
  | _ => 0%Z
  end.

(** A rounding that is not exact: the reals within [1/8] of 1 are
    rounded to 1, the others are numbers of the format. *)
Definition sample_round (x : R) : score_t :=
  if Rle_dec (7 / 8) x
  then if Rle_dec x (9 / 8) then Fin 1 else Fin x
  else Fin x.

(** The logarithm, rounded in the same way. *)
Definition sample_log (x : score_t) : score_t :=
  Rounded.rounded sample_round (Score.log x).

(** A table of one row, whose input is not boolean. *)
Definition sample_contin_input : CTable :=
  {| tt_output := boolean_type;
     rows := [([contin 1], [(logical_true, 1%Z)])] |}.

(** A table of one boolean input and of uncompressed size 3. *)
Definition sample_three : CTable :=
  {| tt_output := boolean_type;
     rows := [([logical_false], [(logical_false, 2%Z)]);
              ([logical_true], [(logical_true, 1%Z)])] |}.

(** The number next above [1/3], in binary64 and in binary32. *)
Definition sample_third64 : SpecFloat.spec_float :=
  Binary.literal 53 1024 0x15555555555556 (-54).

Definition sample_third32 : SpecFloat.spec_float :=
  Binary.literal 24 128 0xAAAAAB (-25).

(* ================================================================== *)
(** * Properties *)

Module UnsignedFacts.
Import Unsigned.

Lemma wrap_in_range z : in_range (wrap z).
Proof. unfold in_range, wrap, modulus. apply Z.mod_pos_bound. lia. Qed.

Lemma wrap_small z : in_range z -> wrap z = z.
Proof. unfold in_range, wrap. intros H. now apply Z.mod_small. Qed.

Lemma sub_borrow a b :
  in_range a -> in_range b -> (a < b)%Z -> sub a b = (modulus - (b - a))%Z.
Proof.
  unfold in_range, sub, wrap, modulus. intros Ha Hb Hlt.
  symmetry. apply Z.mod_unique with (q := (-1)%Z); lia.
Qed.

Lemma sub_zero_iff a b :
  in_range a -> in_range b -> (sub a b = 0%Z <-> a = b).
Proof.
  intros Ha Hb. split.
  - intros H. destruct (Z.lt_trichotomy a b) as [Hlt | [Heq | Hgt]]; trivial.
    + rewrite sub_borrow in H by assumption.
      unfold in_range, modulus in *. lia.
    + unfold sub in H. rewrite wrap_small in H; [lia|].
      unfold in_range, modulus in *. lia.
  - intros ->. unfold sub, wrap. now rewrite Z.sub_diag.
Qed.

End UnsignedFacts.

Module ScoreFacts.
Import Score.
Local Open Scope R_scope.

Lemma ltb_Fin a b : ltb (Fin a) (Fin b) = true <-> a < b.
Proof. simpl. destruct (Rlt_dec a b); split; intros; try easy. Qed.

Lemma leb_Fin a b : leb (Fin a) (Fin b) = true <-> a <= b.
Proof. simpl. destruct (Rle_dec a b); split; intros; try easy. Qed.

Lemma ltb_Fin_false a b : ltb (Fin a) (Fin b) = false <-> ~ a < b.
Proof. simpl. destruct (Rlt_dec a b); split; intros; try easy. Qed.

Lemma add_Fin a b : add (Fin a) (Fin b) = Fin (a + b).
Proof. reflexivity. Qed.

Lemma mul_Fin a b : mul (Fin a) (Fin b) = Fin (a * b).
Proof. reflexivity. Qed.

Lemma div_Fin a b : b <> 0 -> div (Fin a) (Fin b) = Fin (a / b).
Proof. intros H. simpl. destruct (Req_dec_T b 0); [contradiction | reflexivity]. Qed.

Lemma div_zero_zero : div (Fin 0) (Fin 0) = NaN.
Proof.
  simpl. destruct (Req_dec_T 0 0) as [_ | H]; [| now elim H].
  unfold signed_inf. destruct (Rlt_dec 0 0); [lra | reflexivity].
Qed.

Lemma log_pos a : 0 < a -> log (Fin a) = Fin (ln a).
Proof. intros H. simpl. destruct (Rlt_dec 0 a); [reflexivity | contradiction]. Qed.

Lemma log_zero : log (Fin 0) = NInf.
Proof.
  simpl. destruct (Rlt_dec 0 0); [lra |].
  destruct (Req_dec_T 0 0) as [_ | H]; [reflexivity | now elim H].
Qed.

Lemma mul_pos_NInf h : 0 < h -> mul (Fin h) NInf = NInf.
Proof.
  intros H. simpl. unfold signed_inf.
  destruct (Rlt_dec 0 (- h)); [lra |].
  destruct (Rlt_dec (- h) 0); [reflexivity | lra].
Qed.

End ScoreFacts.

(** ** The models at work *)

Example unsigned_sub_wraps : Unsigned.sub 2 3 = 4294967295%Z.
Proof. reflexivity. Qed.

Example class_idx_below_first :
  discretize_contin_bscore.class_idx [1; 2; 4]%Q (1 # 2) = Some 0%nat.
Proof. reflexivity. Qed.

Example class_idx_on_threshold :
  discretize_contin_bscore.class_idx [1; 2; 4; 8]%Q 2 = Some 2%nat.
Proof. reflexivity. Qed.

Example class_idx_between :
  discretize_contin_bscore.class_idx [1; 2; 4; 8]%Q 5 = Some 3%nat.
Proof. reflexivity. Qed.

Example class_idx_from_last :
  discretize_contin_bscore.class_idx [1; 2; 4; 8]%Q 8 = Some 4%nat.
Proof. reflexivity. Qed.

Example class_idx_no_threshold :
  discretize_contin_bscore.class_idx [] 0 = None.
Proof. reflexivity. Qed.

(** Called with equal bounds the recursion never reaches its base case. *)
Example class_idx_within_equal_bounds :
  discretize_contin_bscore.class_idx_within 10 [1; 2; 4]%Q 0 2 2 = None.
Proof. reflexivity. Qed.

Example unconditioned_counter_adds :
  interesting_predicate_bscore.unconditioned_counter sample_contin_table
  = Some [(1%Q, 5%Z)].
Proof. reflexivity. Qed.

Example clause_of_row :
  precision_bscore.clause_arguments 1 [logical_true; logical_false; logical_true]
  = [Node (argument 1) []; Node (argument (-2)) []; Node (argument 3) []].
Proof. reflexivity. Qed.

Example eval_dnf_own_row :
  eval_dnf [logical_true; logical_false]
           (Node logical_or
              [Node logical_and
                 (precision_bscore.clause_arguments 1 [logical_true; logical_false])])
  = true.
Proof. reflexivity. Qed.

Example eval_dnf_other_row :
  eval_dnf [logical_true; logical_true]
           (Node logical_or
              [Node logical_and
                 (precision_bscore.clause_arguments 1 [logical_true; logical_false])])
  = false.
Proof. reflexivity. Qed.

(** ** enum_table_bscore::best_possible_bscore *)

Section EnumTableBest.

Import enum_table_bscore.

(** C1, at a row whose count is shared by two output values (2 of [a],
    1 of [b]): the most frequent value has 2 of the 3 occurrences, and the
    component of the row in [best_possible_bscore] is 4294967295, the
    difference 2 - 3 taken in [unsigned], which is neither the negative
    number -1 nor the maximum count minus the total count.  The candidate
    that answers [a] scores -1 on that row through [operator()]. *)
Theorem C1_best_possible_bscore_conflicting_row :
  most_of conflicting_row = 2%Z
  /\ Counter.total_count conflicting_row = 3%Z
  /\ best_possible_bscore conflicting_table = [Fin 4294967295]
  /\ Score.lt (Fin 0) (best_possible_row conflicting_row)
  /\ best_possible_row conflicting_row <> Fin (2 - 3)
  /\ fst (operator (fun _ _ => enum "a") (fun _ => 1%Z)
                   conflicting_table (Node (enum "a") []))
     = [Fin (2 - 3)].
Proof.
  assert (Hrow : best_possible_row conflicting_row = Fin 4294967295).
  { unfold best_possible_row, Score.of_Z. f_equal. }
  repeat apply conj.
  - reflexivity.
  - reflexivity.
  - unfold best_possible_bscore, conflicting_table.
    cbn [map rows ctable snd]. now rewrite Hrow.
  - rewrite Hrow. apply ScoreFacts.ltb_Fin. lra.
  - rewrite Hrow. intros H. injection H as H. lra.
  - reflexivity.
Qed.

End EnumTableBest.

Lemma most_of_in_range (c : counter_t) :
  Forall (fun it => Unsigned.in_range (snd it)) c ->
  Unsigned.in_range (enum_table_bscore.most_of c).
Proof.
  unfold enum_table_bscore.most_of.
  assert (H0 : Unsigned.in_range 0) by (unfold Unsigned.in_range, Unsigned.modulus; lia).
  revert H0. generalize 0%Z as most.
  induction c as [| it c IH]; intros most Hm Hc; simpl; trivial.
  inversion Hc as [| ? ? Hit Hc']; subst.
  apply IH; trivial.
  destruct (most <? snd it)%Z; trivial.
Qed.

Lemma total_count_in_range (c : counter_t) :
  Unsigned.in_range (Counter.total_count c).
Proof.
  unfold Counter.total_count. destruct c as [| it c] using rev_ind.
  - simpl. unfold Unsigned.in_range, Unsigned.modulus. lia.
  - rewrite fold_left_app. simpl. apply UnsignedFacts.wrap_in_range.
Qed.

(** On every row whose counts are [unsigned], the component of
    [best_possible_bscore] is zero just when the most frequent value has
    the whole count of the row... *)
Lemma best_possible_row_zero_iff (c : counter_t) :
  Forall (fun it => Unsigned.in_range (snd it)) c ->
  enum_table_bscore.best_possible_row c = Fin 0
  <-> enum_table_bscore.most_of c = Counter.total_count c.
Proof.
  intros Hc. unfold enum_table_bscore.best_possible_row, Score.of_Z.
  rewrite <- (UnsignedFacts.sub_zero_iff (most_of_in_range Hc)
                                         (total_count_in_range c)).
  split.
  - intros H. injection H as H. now apply eq_IZR_R0.
  - intros ->. reflexivity.
Qed.

(** ... and is otherwise the positive number [2^32 - (total - most)]. *)
Lemma best_possible_row_borrow (c : counter_t) :
  Forall (fun it => Unsigned.in_range (snd it)) c ->
  (enum_table_bscore.most_of c < Counter.total_count c)%Z ->
  enum_table_bscore.best_possible_row c
  = Score.of_Z (Unsigned.modulus
                - (Counter.total_count c - enum_table_bscore.most_of c)).
Proof.
  intros Hc Hlt. unfold enum_table_bscore.best_possible_row. f_equal.
  apply UnsignedFacts.sub_borrow; trivial.
  - now apply most_of_in_range.
  - apply total_count_in_range.
Qed.

(** ** interesting_predicate_bscore: the conditioned histogram *)

Section ConditionedHistogram.

Import interesting_predicate_bscore.

(** C3, at a table of two rows that both hold the output value 1, twice
    and three times, and a candidate that is true on both: the value was
    observed 5 times in the active rows, and 5 is its count in the
    histogram of the constructor, but its count in the conditioned
    histogram of [operator()] is 3, the count of the last active row:
    the rows overwrite each other instead of adding up. *)
Theorem C3_conditioned_counter_overwrites :
  OTable (fun _ _ => logical_true) (Node logical_true []) sample_contin_table
  = both_active
  /\ active_occurrences logical_true (rows sample_contin_table) both_active 1
     = 5%Z
  /\ unconditioned_counter sample_contin_table = Some [(1%Q, 5%Z)]
  /\ conditioned_counter logical_true (rows sample_contin_table) both_active
     = Some [(1%Q, 3%Z)].
Proof. repeat apply conj; reflexivity. Qed.

End ConditionedHistogram.

(** ** bscore_base::set_complexity_coef *)

Section ComplexityCoef.

Local Open Scope R_scope.

Lemma ln_neg_lt_1 x : 0 < x < 1 -> ln x < 0.
Proof. intros [H0 H1]. rewrite <- ln_1. now apply ln_increasing. Qed.

Lemma ln_pos_gt_1 x : 1 < x -> 0 < ln x.
Proof. intros H. rewrite <- ln_1. apply ln_increasing; lra. Qed.

Lemma odds_lt_1 p : 0 < p < 1 / 2 -> 0 < p / (1 - p) < 1.
Proof.
  intros [H0 H1]. split.
  - apply Rdiv_lt_0_compat; lra.
  - apply Rmult_lt_reg_r with (r := 1 - p); [lra |].
    unfold Rdiv. rewrite Rmult_assoc, Rinv_l by lra. lra.
Qed.

Lemma discrete_complexity_coef_value (alphabet_size : Z) (p : R) :
  (2 <= alphabet_size)%Z -> 0 < p < 1 / 2 ->
  bscore_base.discrete_complexity_coef alphabet_size (Fin p)
  = Fin (- ln (IZR alphabet_size) / ln (p / (1 - p)))
  /\ 0 < - ln (IZR alphabet_size) / ln (p / (1 - p)).
Proof.
  intros Ha Hp.
  assert (Has : 1 < IZR alphabet_size) by (apply (IZR_lt 1); lia).
  pose proof (ln_pos_gt_1 Has) as Hla.
  pose proof (odds_lt_1 Hp) as Ho.
  pose proof (ln_neg_lt_1 Ho) as Hlo.
  split.
  - unfold bscore_base.discrete_complexity_coef, Score.of_Z, Score.one, Score.sub.
    rewrite ScoreFacts.log_pos by lra. cbn [Score.neg Score.add].
    change (1 + - p) with (1 - p).
    rewrite ScoreFacts.div_Fin by lra.
    rewrite ScoreFacts.log_pos by lra.
    rewrite ScoreFacts.div_Fin by lra. reflexivity.
  - replace (- ln (IZR alphabet_size) / ln (p / (1 - p)))
      with (ln (IZR alphabet_size) / - ln (p / (1 - p))) by (field; lra).
    apply Rdiv_lt_0_compat; lra.
Qed.

(** C8: for an alphabet of at least 2 symbols, [set_complexity_coef]
    enables the Occam penalty for every [p] strictly between 0 and 0.5,
    with the finite positive coefficient
    [-log(alphabet_size) / log(p / (1 - p))]; for [p = 0], [p = 0.5] and
    every [p] outside [0, 1] it disables the penalty and leaves the
    coefficient at 0. *)
Theorem C8_set_complexity_coef (self : bscore_base.t) (alphabet_size : Z) (p : R) :
  (2 <= alphabet_size)%Z ->
  let self' := bscore_base.set_complexity_coef self alphabet_size (Fin p) in
  (0 < p < 1 / 2 ->
     bscore_base.occam self' = true
     /\ bscore_base.complexity_coef self'
        = Fin (- ln (IZR alphabet_size) / ln (p / (1 - p)))
     /\ 0 < - ln (IZR alphabet_size) / ln (p / (1 - p)))
  /\ (p = 0 \/ p = 1 / 2 \/ p < 0 \/ 1 < p ->
        bscore_base.occam self' = false
        /\ bscore_base.complexity_coef self' = Fin 0).
Proof.
  intros Ha self'. split.
  - intros Hp.
    assert (Ho : bscore_base.occam self' = true).
    { unfold self', bscore_base.set_complexity_coef. cbn [bscore_base.occam].
      apply andb_true_intro. split; apply ScoreFacts.ltb_Fin; lra. }
    split; [exact Ho |].
    destruct (discrete_complexity_coef_value Ha Hp) as [Hv Hpos].
    split; [| exact Hpos].
    unfold self', bscore_base.set_complexity_coef in *.
    cbn [bscore_base.occam bscore_base.complexity_coef] in *.
    rewrite Ho. exact Hv.
  - intros Hp.
    assert (Ho : bscore_base.occam self' = false).
    { unfold self', bscore_base.set_complexity_coef. cbn [bscore_base.occam].
      apply andb_false_iff.
      destruct (Rlt_dec 0 p) as [H0 | H0].
      - right. apply ScoreFacts.ltb_Fin_false. lra.
      - left. now apply ScoreFacts.ltb_Fin_false. }
    split; [exact Ho |].
    unfold self', bscore_base.set_complexity_coef in *.
    cbn [bscore_base.occam bscore_base.complexity_coef] in *.
    now rewrite Ho.
Qed.

Lemma C8_set_complexity_coef_witness :
  let self := {| bscore_base.occam := false; bscore_base.complexity_coef := Fin 0 |} in
  (bscore_base.occam (bscore_base.set_complexity_coef self 2 (Fin (1 / 10))) = true
   /\ bscore_base.complexity_coef (bscore_base.set_complexity_coef self 2 (Fin (1 / 10)))
      = Fin (- ln (IZR 2) / ln ((1 / 10) / (1 - 1 / 10)))
   /\ 0 < - ln (IZR 2) / ln ((1 / 10) / (1 - 1 / 10)))
  /\ (bscore_base.occam (bscore_base.set_complexity_coef self 2 (Fin (1 / 2))) = false
      /\ bscore_base.complexity_coef (bscore_base.set_complexity_coef self 2 (Fin (1 / 2)))
         = Fin 0).
Proof.
  intros self. split.
  - refine (proj1 (@C8_set_complexity_coef self 2%Z (1 / 10) _) _); [lia | lra].
  - refine (proj2 (@C8_set_complexity_coef self 2%Z (1 / 2) _) _);
      [lia | right; left; reflexivity].
Defined.

End ComplexityCoef.

(** ** Rounded scores *)

Module RoundedFacts.

Local Open Scope R_scope.

Lemma le_trans (x y z : score_t) : Score.le x y -> Score.le y z -> Score.le x z.
Proof.
  unfold Score.le.
  destruct x as [a | | |], y as [b | | |], z as [c | | |]; simpl;
    trivial; try discriminate;
    destruct (Rle_dec a b), (Rle_dec b c), (Rle_dec a c);
    trivial; try discriminate; lra.
Qed.

Lemma rounded_exact (x : score_t) : Rounded.rounded Fin x = x.
Proof. now destruct x. Qed.

Lemma exact_rounding : Rounded.rounding Fin.
Proof.
  split; try reflexivity; try discriminate.
  intros x y H. now apply ScoreFacts.leb_Fin.
Qed.

Lemma signed_inf_pos h : 0 < h -> Score.signed_inf h = PInf.
Proof.
  intros H. unfold Score.signed_inf. destruct (Rlt_dec 0 h); [reflexivity | lra].
Qed.

Lemma signed_inf_neg h : h < 0 -> Score.signed_inf h = NInf.
Proof.
  intros H. unfold Score.signed_inf.
  destruct (Rlt_dec 0 h); [lra |]. destruct (Rlt_dec h 0); [reflexivity | lra].
Qed.

Lemma exact_logarithm : Rounded.logarithm Score.log.
Proof.
  split.
  - rewrite ScoreFacts.log_pos by lra. now rewrite ln_1.
  - intros a b [Ha Hab]. unfold Score.le.
    destruct (Req_dec_T a 0) as [-> | Hna].
    + rewrite ScoreFacts.log_zero.
      destruct (Req_dec_T b 0) as [-> | Hnb].
      * now rewrite ScoreFacts.log_zero.
      * now rewrite ScoreFacts.log_pos by lra.
    + rewrite !ScoreFacts.log_pos by lra. apply ScoreFacts.leb_Fin.
      destruct (Req_dec_T a b) as [-> | Hne]; [lra |].
      left. apply ln_increasing; lra.
Qed.

Section Facts.

Variable round : R -> score_t.
Hypothesis Hround : Rounded.rounding round.

Lemma round_le x y x' y' :
  x <= y -> round x = Fin x' -> round y = Fin y' -> x' <= y'.
Proof.
  intros H Hx Hy. pose proof (Rounded.round_monotone Hround H) as Hm.
  rewrite Hx, Hy in Hm. now apply ScoreFacts.leb_Fin.
Qed.

Lemma round_between a b x :
  round a = Fin a -> round b = Fin b -> a <= x <= b ->
  exists y, round x = Fin y /\ a <= y <= b.
Proof.
  intros Ha Hb [H1 H2].
  pose proof (Rounded.round_monotone Hround H1) as M1.
  pose proof (Rounded.round_monotone Hround H2) as M2.
  rewrite Ha in M1. rewrite Hb in M2.
  destruct (round x) as [y | | |] eqn:E; try discriminate.
  exists y. split; trivial. split; now apply ScoreFacts.leb_Fin.
Qed.

Lemma round_unit x : 0 <= x <= 1 -> exists y, round x = Fin y /\ 0 <= y <= 1.
Proof.
  apply round_between;
    [apply (Rounded.round_zero Hround) | apply (Rounded.round_one Hround)].
Qed.

Lemma round_above_zero x : 0 <= x -> Score.le (Fin 0) (round x).
Proof.
  intros H. rewrite <- (Rounded.round_zero Hround).
  now apply (Rounded.round_monotone Hround).
Qed.

(** The logarithm, correctly rounded, is as the statements ask. *)
Lemma rounded_logarithm :
  Rounded.logarithm (fun x => Rounded.rounded round (Score.log x)).
Proof.
  split.
  - rewrite (Rounded.log_one exact_logarithm). apply (Rounded.round_zero Hround).
  - intros a b Hab. pose proof (Rounded.log_monotone exact_logarithm Hab) as Hle.
    unfold Score.le in *.
    destruct (Score.log (Fin a)) as [la | | |], (Score.log (Fin b)) as [lb | | |];
      try discriminate; cbn [Rounded.rounded]; trivial.
    + apply ScoreFacts.leb_Fin in Hle. now apply (Rounded.round_monotone Hround).
    + pose proof (Rounded.round_not_NaN Hround la) as Hn.
      destruct (round la); trivial. now elim Hn.
    + pose proof (Rounded.round_not_NaN Hround lb) as Hn.
      destruct (round lb); trivial. now elim Hn.
Qed.

Variable log : score_t -> score_t.
Hypothesis Hlog : Rounded.logarithm log.

Lemma barrier_monotone h a1 a2 :
  0 < h -> 0 <= a1 <= a2 -> Score.le (barrier round log h a1) (barrier round log h a2).
Proof.
  intros Hh Ha. pose proof (Rounded.log_monotone Hlog Ha) as Hle.
  unfold barrier, Score.le in *.
  destruct (log (Fin a1)) as [l1 | | |], (log (Fin a2)) as [l2 | | |];
    try discriminate; cbn [Score.mul Rounded.rounded].
  - apply ScoreFacts.leb_Fin in Hle.
    apply (Rounded.round_monotone Hround). nra.
  - rewrite signed_inf_pos by trivial. cbn [Rounded.rounded].
    pose proof (Rounded.round_not_NaN Hround (h * l1)) as Hn.
    destruct (round (h * l1)); trivial. now elim Hn.
  - rewrite signed_inf_pos by trivial. reflexivity.
  - rewrite signed_inf_neg by lra. cbn [Rounded.rounded].
    pose proof (Rounded.round_not_NaN Hround (h * l2)) as Hn.
    destruct (round (h * l2)); trivial. now elim Hn.
  - rewrite signed_inf_neg by lra. rewrite signed_inf_pos by trivial.
    reflexivity.
  - rewrite signed_inf_neg by lra. reflexivity.
Qed.

Lemma barrier_one h : barrier round log h 1 = Fin 0.
Proof.
  unfold barrier. rewrite (Rounded.log_one Hlog). cbn [Score.mul Rounded.rounded].
  rewrite Rmult_0_r. apply (Rounded.round_zero Hround).
Qed.

Lemma barrier_nonpos h a : 0 < h -> 0 <= a <= 1 -> Score.le (barrier round log h a) (Fin 0).
Proof.
  intros Hh Ha. rewrite <- (barrier_one h). apply barrier_monotone; trivial.
Qed.

(** *** The penalty of a distance to a band *)

Variables mn mx h : R.
Hypothesis Hband : 0 < mn <= mx.
Hypothesis Hh : 0 < h.
Hypothesis Hgradual : Rounded.gradual round mx.

Lemma penalty_inside v : mn <= v <= mx -> band_penalty round log mn mx h v = Fin 0.
Proof.
  intros [Hlo Hhi]. unfold band_penalty, in_arith.get_threshold_penalty.
  cbn [Arith.zero Arith.one Arith.ltb Arith.sub Arith.div Arith.mul Rounded.arith].
  rewrite (proj2 (ScoreFacts.ltb_Fin_false v mn)) by lra.
  rewrite (proj2 (ScoreFacts.ltb_Fin_false mx v)) by lra.
  unfold Score.sub. cbn [Score.neg Score.add Rounded.rounded].
  replace (1 + - 0) with 1 by lra. rewrite (Rounded.round_one Hround).
  apply barrier_one.
Qed.

Lemma penalty_below v :
  0 <= v < mn ->
  exists q d a,
    round (v / mn) = Fin q /\ round (1 - q) = Fin d /\ round (1 - d) = Fin a
    /\ 0 <= a <= 1 /\ band_penalty round log mn mx h v = barrier round log h a.
Proof.
  intros [H0 Hlt].
  assert (Hq : 0 <= v / mn <= 1).
  { split.
    - apply Rmult_le_pos; [lra |]. left. apply Rinv_0_lt_compat. lra.
    - apply Rmult_le_reg_r with (r := mn); [lra |].
      unfold Rdiv. rewrite Rmult_assoc, Rinv_l by lra. lra. }
  destruct (round_unit Hq) as [q [Eq Hq']].
  destruct (@round_unit (1 - q)) as [d [Ed Hd]]; [lra |].
  destruct (@round_unit (1 - d)) as [a [Ea Ha]]; [lra |].
  exists q, d, a. repeat apply conj; trivial; try lra.
  unfold band_penalty, in_arith.get_threshold_penalty.
  cbn [Arith.zero Arith.one Arith.ltb Arith.sub Arith.div Arith.mul Rounded.arith].
  rewrite (proj2 (ScoreFacts.ltb_Fin v mn)) by lra.
  rewrite (proj2 (ScoreFacts.ltb_Fin_false mx v)) by lra.
  rewrite ScoreFacts.div_Fin by lra. cbn [Rounded.rounded]. rewrite Eq.
  unfold Score.sub. cbn [Score.neg Score.add Rounded.rounded].
  change (1 + - q) with (1 - q). rewrite Ed. cbn [Score.neg Score.add Rounded.rounded].
  change (1 + - d) with (1 - d). rewrite Ea. reflexivity.
Qed.

Lemma penalty_above v :
  mx < v <= 1 ->
  exists n dd q a,
    round (v - mx) = Fin n /\ round (1 - mx) = Fin dd /\ 0 < dd
    /\ round (n / dd) = Fin q /\ round (1 - q) = Fin a
    /\ 0 <= a <= 1 /\ band_penalty round log mn mx h v = barrier round log h a.
Proof.
  intros [Hgt H1].
  destruct (@round_unit (v - mx)) as [n [En Hn]]; [lra |].
  destruct (@round_unit (1 - mx)) as [dd [Edd Hdd]]; [lra |].
  assert (Hpos : 0 < dd).
  { destruct (Req_dec_T dd 0) as [-> | Hne]; [| lra].
    exfalso. apply Hgradual; [lra | exact Edd]. }
  assert (Hle : n <= dd) by (apply (@round_le (v - mx) (1 - mx)); trivial; lra).
  assert (Hq : 0 <= n / dd <= 1).
  { split.
    - apply Rmult_le_pos; [lra |]. left. now apply Rinv_0_lt_compat.
    - apply Rmult_le_reg_r with (r := dd); [lra |].
      unfold Rdiv. rewrite Rmult_assoc, Rinv_l by lra. lra. }
  destruct (round_unit Hq) as [q [Eq Hq']].
  destruct (@round_unit (1 - q)) as [a [Ea Ha]]; [lra |].
  exists n, dd, q, a. repeat apply conj; trivial; try lra.
  unfold band_penalty, in_arith.get_threshold_penalty.
  cbn [Arith.zero Arith.one Arith.ltb Arith.sub Arith.div Arith.mul Rounded.arith].
  rewrite (proj2 (ScoreFacts.ltb_Fin_false v mn)) by lra.
  rewrite (proj2 (ScoreFacts.ltb_Fin mx v)) by lra.
  unfold Score.sub. cbn [Score.neg Score.add Rounded.rounded].
  change (v + - mx) with (v - mx). change (1 + - mx) with (1 - mx).
  rewrite En, Edd. rewrite ScoreFacts.div_Fin by lra.
  cbn [Score.neg Score.add Rounded.rounded]. rewrite Eq.
  cbn [Score.neg Score.add Rounded.rounded].
  change (1 + - q) with (1 - q). rewrite Ea. reflexivity.
Qed.

(** The penalty is 0 on the band, is never positive on [[0, 1]], and
    does not increase as the value moves away from the band. *)
Lemma penalty_of_distance :
  (forall v, mn <= v <= mx -> band_penalty round log mn mx h v = Fin 0)
  /\ (forall v, 0 <= v <= 1 -> Score.le (band_penalty round log mn mx h v) (Fin 0))
  /\ (forall v1 v2, 0 <= v1 -> v1 <= v2 -> v2 < mn ->
        Score.le (band_penalty round log mn mx h v1)
                 (band_penalty round log mn mx h v2))
  /\ (forall v1 v2, mx < v1 -> v1 <= v2 -> v2 <= 1 ->
        Score.le (band_penalty round log mn mx h v2)
                 (band_penalty round log mn mx h v1)).
Proof.
  split; [exact penalty_inside |]. split; [| split].
  - intros v Hv.
    destruct (Rlt_dec v mn) as [Hlt | Hge].
    + destruct (@penalty_below v) as [q [d [a [_ [_ [_ [Ha ->]]]]]]]; [lra |].
      now apply barrier_nonpos.
    + destruct (Rlt_dec mx v) as [Hgt | Hle].
      * destruct (@penalty_above v) as [n [dd [q [a [_ [_ [_ [_ [_ [Ha ->]]]]]]]]]];
          [lra |].
        now apply barrier_nonpos.
      * rewrite penalty_inside by lra. now apply ScoreFacts.leb_Fin; lra.
  - intros v1 v2 H0 H12 H2.
    destruct (@penalty_below v1) as [q1 [d1 [a1 [Eq1 [Ed1 [Ea1 [Ha1 ->]]]]]]]; [lra |].
    destruct (@penalty_below v2) as [q2 [d2 [a2 [Eq2 [Ed2 [Ea2 [Ha2 ->]]]]]]]; [lra |].
    apply barrier_monotone; trivial.
    assert (Hq : q1 <= q2).
    { apply (@round_le (v1 / mn) (v2 / mn)); trivial.
      apply Rmult_le_compat_r; [| lra]. left. apply Rinv_0_lt_compat. lra. }
    assert (Hd : d2 <= d1) by (apply (@round_le (1 - q2) (1 - q1)); trivial; lra).
    assert (Ha : a1 <= a2) by (apply (@round_le (1 - d1) (1 - d2)); trivial; lra).
    lra.
  - intros v1 v2 H1 H12 H2.
    destruct (@penalty_above v1)
      as [n1 [dd1 [q1 [a1 [En1 [Edd1 [Hdd1 [Eq1 [Ea1 [Ha1 ->]]]]]]]]]]; [lra |].
    destruct (@penalty_above v2)
      as [n2 [dd2 [q2 [a2 [En2 [Edd2 [Hdd2 [Eq2 [Ea2 [Ha2 ->]]]]]]]]]]; [lra |].
    apply barrier_monotone; trivial.
    assert (Edd : dd2 = dd1) by congruence. subst dd2.
    assert (Hn : n1 <= n2) by (apply (@round_le (v1 - mx) (v2 - mx)); trivial; lra).
    assert (Hq : q1 <= q2).
    { apply (@round_le (n1 / dd1) (n2 / dd1)); trivial.
      apply Rmult_le_compat_r; [| lra]. left. now apply Rinv_0_lt_compat. }
    assert (Ha : a2 <= a1) by (apply (@round_le (1 - q2) (1 - q1)); trivial; lra).
    lra.
Qed.

End Facts.

End RoundedFacts.

Lemma sample_round_rounding : Rounded.rounding sample_round.
Proof.
  split; unfold sample_round.
  - intros x. destruct (Rle_dec (7 / 8) x); [destruct (Rle_dec x (9 / 8)) |];
      discriminate.
  - intros x y H.
    destruct (Rle_dec (7 / 8) x); [destruct (Rle_dec x (9 / 8)) |];
      (destruct (Rle_dec (7 / 8) y); [destruct (Rle_dec y (9 / 8)) |]);
      apply ScoreFacts.leb_Fin; lra.
  - destruct (Rle_dec (7 / 8) 0); [lra | reflexivity].
  - destruct (Rle_dec (7 / 8) 1); [destruct (Rle_dec 1 (9 / 8)) |]; reflexivity.
  - intros x y.
    destruct (Rle_dec (7 / 8) x); [destruct (Rle_dec x (9 / 8)) |];
      intros H; injection H as <-;
      (destruct (Rle_dec (7 / 8) _); [destruct (Rle_dec _ (9 / 8)) |]);
      trivial; lra.
Qed.

Lemma sample_log_logarithm : Rounded.logarithm sample_log.
Proof. exact (RoundedFacts.rounded_logarithm sample_round_rounding). Qed.

Lemma sample_round_gradual x : Rounded.gradual sample_round x.
Proof.
  intros Hx. unfold sample_round.
  destruct (Rle_dec (7 / 8) (1 - x)); [destruct (Rle_dec (1 - x) (9 / 8)) |];
    intros H; injection H as H; lra.
Qed.

(** The exact arithmetic is the one in which nothing is rounded. *)
Lemma exact_get_threshold_penalty (self : discriminating_bscore.t)
    (value : score_t) :
  Rounded.get_threshold_penalty Fin Score.log self value
  = discriminating_bscore.get_threshold_penalty self value.
Proof.
  unfold Rounded.get_threshold_penalty, in_arith.get_threshold_penalty,
    discriminating_bscore.get_threshold_penalty.
  cbn [Arith.zero Arith.one Arith.ltb Arith.sub Arith.div Arith.mul
       Rounded.arith].
  now rewrite !RoundedFacts.rounded_exact.
Qed.

Lemma exact_get_activation_penalty (self : precision_bscore.t)
    (activation : score_t) :
  Rounded.get_activation_penalty Fin Score.log self activation
  = precision_bscore.get_activation_penalty self activation.
Proof.
  unfold Rounded.get_activation_penalty, in_arith.get_activation_penalty,
    precision_bscore.get_activation_penalty.
  cbn [Arith.zero Arith.one Arith.ltb Arith.sub Arith.div Arith.mul
       Rounded.arith].
  now rewrite !RoundedFacts.rounded_exact.
Qed.

(** ** discriminating_bscore::get_threshold_penalty *)

Section ThresholdPenalty.

Local Open Scope R_scope.

Variable round : R -> score_t.
Variable log : score_t -> score_t.
Variable self : discriminating_bscore.t.
Variables min_threshold max_threshold hardness : R.
Hypothesis Hmin : discriminating_bscore._min_threshold self = Fin min_threshold.
Hypothesis Hmax : discriminating_bscore._max_threshold self = Fin max_threshold.
Hypothesis Hhard : discriminating_bscore._hardness self = Fin hardness.


End ThresholdPenalty.

(** A NaN is neither below the band nor above it: its penalty is that
    of a value of the band. *)
Lemma get_threshold_penalty_NaN (self : discriminating_bscore.t) (hardness : R) :
  discriminating_bscore._hardness self = Fin hardness ->
  discriminating_bscore.get_threshold_penalty self NaN = Fin 0.
Proof.
  intros Hh. unfold discriminating_bscore.get_threshold_penalty.
  rewrite Hh. cbn [Score.ltb].
  destruct (discriminating_bscore._max_threshold self); cbn [Score.ltb];
    unfold Score.sub; cbn [Score.neg Score.add];
    (rewrite ScoreFacts.log_pos by lra); rewrite ScoreFacts.mul_Fin;
    f_equal; replace (1 + - 0)%R with 1%R by lra; rewrite ln_1; lra.
Qed.



(** ** Candidates that are true on no row *)

Lemma vertex_eqb_logical_true (v : vertex) :
  vertex_eqb v logical_true = true <-> v = logical_true.
Proof. destruct v; simpl; split; intros H; try discriminate; reflexivity. Qed.

Lemma vertex_neqb_logical_true (v : vertex) :
  v <> logical_true -> vertex_eqb v logical_true = false.
Proof.
  intros H. destruct (vertex_eqb v logical_true) eqn:E; trivial.
  now apply vertex_eqb_logical_true in E.
Qed.

Section NoActiveRow.

Variable eval_binding : vertex_seq -> combo_tree -> vertex.
Variable tree_complexity : combo_tree -> Z.

Lemma active_rows_inactive (self : precision_bscore.t) (tr : combo_tree)
    (rows_ : list (vertex_seq * counter_t)) (st : precision_bscore.actives) :
  (forall vct, In vct rows_ -> eval_binding (fst vct) tr <> logical_true) ->
  fold_left (fun acc vct =>
               st' <- acc ;; precision_bscore.active_row eval_binding self tr st' vct)
            rows_ (Some st) = Some st.
Proof.
  induction rows_ as [| vct rows_ IH]; intros Hno; simpl; trivial.
  unfold precision_bscore.active_row at 2.
  rewrite vertex_neqb_logical_true by (apply Hno; now left).
  apply IH. intros vct' Hin. apply Hno. now right.
Qed.

(** C9: on a candidate that is true on no row of the table, the first
    component [operator()] pushes, the precision, is exactly 1; the
    second is the activation penalty at the activation 0. *)
Theorem C9_precision_no_active_row (self : precision_bscore.t) (tr : combo_tree) :
  (forall vct, In vct (rows (precision_bscore.ctable self)) ->
     eval_binding (fst vct) tr <> logical_true) ->
  precision_bscore.operator eval_binding tree_complexity self tr
  = Some ([Fin 1;
           precision_bscore.get_activation_penalty self
             (Score.div (Score.of_Z 0)
                        (Score.of_Z (precision_bscore.ctable_usize self)))],
          if precision_bscore.occam self
          then Score.mul (Score.of_Z (tree_complexity tr))
                         (precision_bscore.complexity_coef self)
          else Fin 0).
Proof.
  intros Hno. unfold precision_bscore.operator, precision_bscore.active_rows.
  rewrite active_rows_inactive by exact Hno.
  cbn [obind precision_bscore.active].
  assert (Hp : precision_bscore.precision_of self
                 {| precision_bscore.active := 0;
                    precision_bscore.sao := Fin 0;
                    precision_bscore.worst_deciles := [] |} = Fin 1).
  { unfold precision_bscore.precision_of, precision_bscore.avg_worst.
    cbn [precision_bscore.sao precision_bscore.active].
    rewrite (proj2 (ScoreFacts.ltb_Fin_false 0 0)) by lra.
    rewrite andb_false_r.
    rewrite (proj2 (ScoreFacts.ltb_Fin_false 0 0)) by lra. reflexivity. }
  rewrite Hp. reflexivity.
Qed.

(** The counts of a candidate that is true on no row: nothing is added to
    the sums of the positives. *)
Lemma count_inactive (self : discriminating_bscore.t) (tr : combo_tree)
    (rows_ : list (vertex_seq * counter_t)) (ctr : discriminating_bscore.d_counts) :
  (forall vct, In vct rows_ -> eval_binding (fst vct) tr <> logical_true) ->
  (forall vct, In vct rows_ ->
     discriminating_bscore.sum_outputs self (snd vct) <> None) ->
  exists ctr',
    fold_left (fun acc vct =>
                 c <- acc ;; discriminating_bscore.count_row eval_binding self tr c vct)
              rows_ (Some ctr) = Some ctr'
    /\ discriminating_bscore.true_positive_sum ctr'
       = discriminating_bscore.true_positive_sum ctr
    /\ discriminating_bscore.false_positive_sum ctr'
       = discriminating_bscore.false_positive_sum ctr.
Proof.
  revert ctr. induction rows_ as [| vct rows_ IH]; intros ctr Hno Hso; simpl.
  - now exists ctr.
  - unfold discriminating_bscore.count_row at 2.
    destruct (discriminating_bscore.sum_outputs self (snd vct)) as [sum_pos |] eqn:E;
      [| exfalso; apply (Hso vct); [now left | exact E]].
    cbn [obind].
    rewrite vertex_neqb_logical_true by (apply Hno; now left).
    edestruct IH as [ctr' [Hc [Htp Hfp]]];
      [| | exists ctr'; split; [exact Hc | split; [exact Htp | exact Hfp]]].
    + intros vct' Hin. apply Hno. now right.
    + intros vct' Hin. apply Hso. now right.
Qed.

(** The counts of a candidate that is true on every row of a table whose
    rows have no positive output. *)
Lemma count_all_active_negative (self : discriminating_bscore.t) (tr : combo_tree)
    (rows_ : list (vertex_seq * counter_t)) (ctr : discriminating_bscore.d_counts) :
  (forall vct, In vct rows_ -> eval_binding (fst vct) tr = logical_true) ->
  (forall vct, In vct rows_ ->
     discriminating_bscore.sum_outputs self (snd vct) = Some (Fin 0)) ->
  discriminating_bscore.true_positive_sum ctr = Fin 0 ->
  exists ctr',
    fold_left (fun acc vct =>
                 c <- acc ;; discriminating_bscore.count_row eval_binding self tr c vct)
              rows_ (Some ctr) = Some ctr'
    /\ discriminating_bscore.true_positive_sum ctr' = Fin 0
    /\ discriminating_bscore.false_negative_sum ctr'
       = discriminating_bscore.false_negative_sum ctr.
Proof.
  revert ctr. induction rows_ as [| vct rows_ IH]; intros ctr Hall Hso Htp; simpl.
  - now exists ctr.
  - unfold discriminating_bscore.count_row at 2.
    rewrite (Hso vct) by now left. cbn [obind].
    rewrite (Hall vct) by now left. cbn [vertex_eqb].
    edestruct IH as [ctr' [Hc [Htp' Hfn]]];
      [| | | exists ctr'; split; [exact Hc | split; [exact Htp' | exact Hfn]]].
    + intros vct' Hin. apply Hall. now right.
    + intros vct' Hin. apply Hso. now right.
    + cbn [discriminating_bscore.true_positive_sum]. rewrite Htp.
      cbn [Score.add]. f_equal. lra.
Qed.

(** C10: on a candidate that is true on no row, [count] leaves both sums
    of the positives at 0 and [recall_bscore::operator()] takes the
    precision as the quotient 0 / 0, a NaN, which it hands to the
    threshold penalty; on a candidate that is true on every row of a
    table without a positive output, [prerec_bscore::operator()] does
    the same with the recall.  Neither replaces the quotient by a
    default. *)
Theorem C10_unguarded_quotients (self : discriminating_bscore.t) (tr : combo_tree) :
  (forall vct, In vct (rows (discriminating_bscore._ctable self)) ->
     discriminating_bscore.sum_outputs self (snd vct) <> None) ->
  ((forall vct, In vct (rows (discriminating_bscore._ctable self)) ->
      eval_binding (fst vct) tr <> logical_true) ->
   exists ctr,
     discriminating_bscore.count eval_binding self tr = Some ctr
     /\ discriminating_bscore.true_positive_sum ctr = Fin 0
     /\ discriminating_bscore.false_positive_sum ctr = Fin 0
     /\ discriminating_bscore.precision_of ctr = NaN
     /\ discriminating_bscore.recall_bscore_operator
          eval_binding tree_complexity self tr
        = Some ([discriminating_bscore.recall_of ctr;
                 discriminating_bscore.get_threshold_penalty self NaN],
                discriminating_bscore.complexity_penalty tree_complexity self tr))
  /\ ((forall vct, In vct (rows (discriminating_bscore._ctable self)) ->
         eval_binding (fst vct) tr = logical_true) ->
      (forall vct, In vct (rows (discriminating_bscore._ctable self)) ->
         discriminating_bscore.sum_outputs self (snd vct) = Some (Fin 0)) ->
      exists ctr,
        discriminating_bscore.count eval_binding self tr = Some ctr
        /\ discriminating_bscore.true_positive_sum ctr = Fin 0
        /\ discriminating_bscore.false_negative_sum ctr = Fin 0
        /\ discriminating_bscore.recall_of ctr = NaN
        /\ discriminating_bscore.prerec_bscore_operator
             eval_binding tree_complexity self tr
           = Some ([discriminating_bscore.precision_of ctr;
                    discriminating_bscore.get_threshold_penalty self NaN],
                   discriminating_bscore.complexity_penalty tree_complexity self tr)).
Proof.
  intros Hso. split.
  - intros Hno.
    destruct (@count_inactive self tr _ discriminating_bscore.d_counts_init Hno Hso)
      as [ctr [Hc [Htp Hfp]]].
    cbn in Htp, Hfp.
    assert (Hp : discriminating_bscore.precision_of ctr = NaN).
    { unfold discriminating_bscore.precision_of. rewrite Htp, Hfp.
      cbn [Score.add]. replace (0 + 0)%R with 0%R by lra.
      apply ScoreFacts.div_zero_zero. }
    exists ctr. repeat apply conj; trivial.
    unfold discriminating_bscore.recall_bscore_operator, discriminating_bscore.count.
    rewrite Hc. cbn [obind]. now rewrite Hp.
  - intros Hall Hneg.
    destruct (@count_all_active_negative self tr _
                discriminating_bscore.d_counts_init Hall Hneg eq_refl)
      as [ctr [Hc [Htp Hfn]]].
    cbn in Hfn.
    assert (Hr : discriminating_bscore.recall_of ctr = NaN).
    { unfold discriminating_bscore.recall_of. rewrite Htp, Hfn.
      cbn [Score.add]. replace (0 + 0)%R with 0%R by lra.
      apply ScoreFacts.div_zero_zero. }
    exists ctr. repeat apply conj; trivial.
    unfold discriminating_bscore.prerec_bscore_operator, discriminating_bscore.count.
    rewrite Hc. cbn [obind]. now rewrite Hr.
Qed.

End NoActiveRow.

Lemma C9_precision_no_active_row_witness :
  precision_bscore.operator (fun _ _ => logical_false) (fun _ => 1%Z)
    (sample_precision sample_boolean_table) (Node logical_false [])
  = Some ([Fin 1;
           precision_bscore.get_activation_penalty
             (sample_precision sample_boolean_table)
             (Score.div (Score.of_Z 0) (Score.of_Z 2))],
          Fin 0).
Proof.
  apply (@C9_precision_no_active_row (fun _ _ => logical_false) (fun _ => 1%Z)
           (sample_precision sample_boolean_table) (Node logical_false [])).
  intros vct _. discriminate.
Defined.

Lemma C10_unguarded_quotients_witness :
  let self := sample_discriminating (1 / 2) (3 / 4) 1 sample_boolean_table in
  (exists ctr,
     discriminating_bscore.count (fun _ _ => logical_false) self (Node logical_false [])
     = Some ctr
     /\ discriminating_bscore.true_positive_sum ctr = Fin 0
     /\ discriminating_bscore.false_positive_sum ctr = Fin 0
     /\ discriminating_bscore.precision_of ctr = NaN
     /\ discriminating_bscore.recall_bscore_operator
          (fun _ _ => logical_false) (fun _ => 1%Z) self (Node logical_false [])
        = Some ([discriminating_bscore.recall_of ctr;
                 discriminating_bscore.get_threshold_penalty self NaN],
                Fin 0))
  /\ (exists ctr,
        discriminating_bscore.count (fun _ _ => logical_true) self (Node logical_true [])
        = Some ctr
        /\ discriminating_bscore.true_positive_sum ctr = Fin 0
        /\ discriminating_bscore.false_negative_sum ctr = Fin 0
        /\ discriminating_bscore.recall_of ctr = NaN
        /\ discriminating_bscore.prerec_bscore_operator
             (fun _ _ => logical_true) (fun _ => 1%Z) self (Node logical_true [])
           = Some ([discriminating_bscore.precision_of ctr;
                    discriminating_bscore.get_threshold_penalty self NaN],
                   Fin 0)).
Proof.
  intros self. split.
  - refine (proj1 (@C10_unguarded_quotients (fun _ _ => logical_false)
                     (fun _ => 1%Z) self (Node logical_false []) _) _).
    + intros vct _. discriminate.
    + intros vct _. discriminate.
  - refine (proj2 (@C10_unguarded_quotients (fun _ _ => logical_true)
                     (fun _ => 1%Z) self (Node logical_true []) _) _ _).
    + intros vct _. discriminate.
    + intros vct _. reflexivity.
    + intros vct [<- | []]. reflexivity.
Defined.

(** ** interesting_predicate_bscore: fewer than two active values *)

Section DegenerateActivePartition.

Import interesting_predicate_bscore.

Lemma update_at_most_one (S : Q -> Prop) (f : Z -> Z) (x : Q) (h : counter_t) :
  (forall y, S y -> Qeq x y) -> S x ->
  at_most_one S h -> at_most_one S (Counter.update f x h).
Proof.
  intros Heq Hx [-> | [k [n [-> Hk]]]]; simpl.
  - right. now exists x, (f 0%Z).
  - rewrite (proj1 (Qeq_alt x k) (Heq k Hk)).
    right. now exists k, (f n).
Qed.

Lemma observe_at_most_one (S : Q -> Prop) (c : Counter.t vertex) (h : counter_t) :
  (forall x y, S x -> S y -> Qeq x y) ->
  (forall v, In v (map fst c) -> exists x, v = contin x /\ S x) ->
  at_most_one S h ->
  exists h', observe Counter.assign c (Some h) = Some h' /\ at_most_one S h'.
Proof.
  intros Heq. revert h. unfold observe.
  induction c as [| mv c IH]; intros h Hc Hh; simpl.
  - now exists h.
  - destruct (Hc (fst mv)) as [x [Hx HS]]; [now left |].
    rewrite Hx. cbn [get_contin obind].
    apply IH.
    + intros v Hin. apply Hc. now right.
    + apply update_at_most_one; trivial. intros y Hy. now apply Heq.
Qed.

Lemma conditioned_counter_at_most_one (S : Q -> Prop) (target : vertex)
    (cvs : list ((vertex_seq * Counter.t vertex) * vertex)) (h : counter_t) :
  (forall x y, S x -> S y -> Qeq x y) ->
  (forall v,
     In v (flat_map (fun cv => if vertex_eqb (snd cv) target
                               then map fst (snd (fst cv)) else []) cvs) ->
     exists x, v = contin x /\ S x) ->
  at_most_one S h ->
  exists h',
    fold_left (fun acc cv =>
                 if vertex_eqb (snd cv) target
                 then observe Counter.assign (snd (fst cv)) acc
                 else acc)
              cvs (Some h) = Some h'
    /\ at_most_one S h'.
Proof.
  intros Heq. revert h.
  induction cvs as [| cv cvs IH]; intros h Hv Hh; simpl.
  - now exists h.
  - simpl in Hv. revert Hv. unfold Counter.t in *.
    destruct (vertex_eqb (snd cv) target); intros Hv.
    + destruct (@observe_at_most_one S (snd (fst cv)) h Heq) as [h1 [E1 H1]]; trivial.
      { intros v Hin. apply Hv. apply in_or_app. now left. }
      rewrite E1. apply IH; trivial.
      intros v Hin. apply Hv. apply in_or_app. now right.
    + apply IH; trivial.
Qed.

Variable eval_binding : vertex_seq -> combo_tree -> vertex.
Variable tree_complexity : combo_tree -> Z.
Variable worst_score : score_t.
Variable klds : counter_t -> counter_t -> score_t.
Variable klds_decomposed : counter_t -> counter_t -> list score_t.
Variable weighted_skewness : counter_t -> score_t.
Variable standardizedMannWhitneyU : counter_t -> counter_t -> score_t.
Variable pow : score_t -> score_t -> score_t.

(** C6: on a candidate whose active rows (those where the candidate has
    the target polarity) hold contin outputs that are all the same value,
    or hold none, [operator()] returns the behavioural score made of the
    single component [worst_score], with the complexity penalty left at
    0, whatever the weights and flags of the scorer are. *)
Theorem C6_degenerate_active_partition (self : t) (tr : combo_tree) :
  let pred_ot := OTable eval_binding tr (ctable self) in
  let target := bool_to_vertex (positive self) in
  let values := active_values target (rows (ctable self)) pred_ot in
  (forall v, In v values -> exists x, v = contin x) ->
  (forall x y, In (contin x) values -> In (contin y) values -> Qeq x y) ->
  operator eval_binding tree_complexity worst_score klds klds_decomposed
           weighted_skewness standardizedMannWhitneyU pow self tr
  = Some ([worst_score], Fin 0).
Proof.
  intros pred_ot target values Hty Hone.
  destruct (@conditioned_counter_at_most_one
              (fun x => In (contin x) values) target
              (combine (rows (ctable self)) pred_ot) [])
    as [h [Hh Hsize]].
  - exact Hone.
  - intros v Hin. destruct (Hty v Hin) as [x ->]. now exists x.
  - now left.
  - assert (Hc : conditioned_counter target (rows (ctable self)) pred_ot = Some h)
      by exact Hh.
    unfold operator. fold pred_ot. fold target.
    destruct (total_and_actives target (rows (ctable self)) pred_ot) as [total actives].
    rewrite Hc. cbn [obind].
    destruct Hsize as [-> | [k [n [-> _]]]]; reflexivity.
Qed.

End DegenerateActivePartition.

(** ** discretize_contin_bscore::class_idx *)

Section ClassIdx.

Import discretize_contin_bscore.

Local Open Scope Q_scope.

Lemma Qltb_lt x y : Qltb x y = true <-> x < y.
Proof.
  unfold Qltb. rewrite negb_true_iff. split.
  - intros H. apply Qnot_le_lt. intros Hle.
    apply Qle_bool_iff in Hle. congruence.
  - intros H. destruct (Qle_bool y x) eqn:E; trivial.
    apply Qle_bool_iff in E. exfalso. exact (Qlt_not_le _ _ H E).
Qed.

Lemma Qltb_ge x y : Qltb x y = false <-> y <= x.
Proof.
  unfold Qltb. rewrite negb_false_iff. apply Qle_bool_iff.
Qed.

Variable thresholds : list Q.

(** [thresholds[i]] *)
Let th (i : nat) : Q := nth i thresholds 0.

Lemma nth_error_th i :
  (i < List.length thresholds)%nat -> nth_error thresholds i = Some (th i).
Proof. intros H. unfold th. now apply nth_error_nth'. Qed.

(** The search ends on a bucket that holds [v], from any bounds that
    enclose [v], within a depth of their distance. *)
Lemma class_idx_within_finds (v : Q) (fuel l_idx u_idx : nat) :
  (1 <= l_idx)%nat -> (l_idx < u_idx)%nat ->
  (u_idx <= List.length thresholds)%nat ->
  (u_idx - l_idx <= fuel)%nat ->
  th (l_idx - 1) <= v -> v < th (u_idx - 1) ->
  exists i,
    class_idx_within fuel thresholds v l_idx u_idx = Some i
    /\ (l_idx <= i < u_idx)%nat
    /\ th (i - 1) <= v /\ v < th i.
Proof.
  revert l_idx u_idx.
  induction fuel as [| fuel IH]; intros l u Hl Hlu Hu Hfuel Hlo Hhi.
  - lia.
  - cbn [class_idx_within].
    destruct (Nat.eqb_spec (u - l) 1) as [E | E].
    + exists l. repeat apply conj; trivial; try lia.
      replace l with (u - 1)%nat at 1 by lia. exact Hhi.
    + assert (Hdiv : ((u - l) / 2 < u - l)%nat /\ (1 <= (u - l) / 2)%nat).
      { split.
        - apply Nat.div_lt; lia.
        - apply Nat.div_le_lower_bound; lia. }
      destruct Hdiv as [Hd1 Hd2].
      set (m := (l + (u - l) / 2)%nat) in *.
      assert (Hm : (l < m < u)%nat) by (unfold m; lia).
      rewrite nth_error_th by lia. cbn [obind].
      destruct (Qltb v (th (m - 1))) eqn:Ev.
      * apply Qltb_lt in Ev.
        destruct (IH l m) as [i [Hi [Hr [H1 H2]]]]; trivial; try lia.
        exists i. repeat apply conj; trivial; lia.
      * apply Qltb_ge in Ev.
        destruct (IH m u) as [i [Hi [Hr [H1 H2]]]]; trivial; try lia.
        exists i. repeat apply conj; trivial; lia.
Qed.

(** Giving the search more depth does not change what it finds. *)
Lemma class_idx_within_more_fuel (v : Q) (fuel fuel' l_idx u_idx i : nat) :
  (fuel <= fuel')%nat ->
  class_idx_within fuel thresholds v l_idx u_idx = Some i ->
  class_idx_within fuel' thresholds v l_idx u_idx = Some i.
Proof.
  revert fuel' l_idx u_idx.
  induction fuel as [| fuel IH]; intros fuel' l u Hle H; [discriminate |].
  destruct fuel' as [| fuel']; [lia |].
  cbn [class_idx_within] in *.
  destruct (u - l =? 1)%nat; trivial.
  destruct (nth_error thresholds (l + (u - l) / 2 - 1)) as [t |]; [| discriminate].
  cbn [obind] in *.
  destruct (Qltb v t); apply IH; trivial; lia.
Qed.

(** The linear scan stops at the first threshold above [v]. *)
Lemma linear_scan_le_length (l : list Q) v :
  (linear_scan l v <= List.length l)%nat.
Proof.
  induction l as [| t l IH]; simpl; [lia |].
  destruct (Qltb v t); simpl; lia.
Qed.

Lemma linear_scan_before (l : list Q) v j :
  (j < linear_scan l v)%nat -> nth j l 0 <= v.
Proof.
  revert j. induction l as [| t l IH]; intros j Hj; simpl in Hj; [lia |].
  destruct (Qltb v t) eqn:E; [lia |].
  destruct j as [| j]; simpl.
  - now apply Qltb_ge.
  - apply IH. lia.
Qed.

Lemma linear_scan_at (l : list Q) v :
  (linear_scan l v < List.length l)%nat -> v < nth (linear_scan l v) l 0.
Proof.
  induction l as [| t l IH]; simpl; [lia |].
  destruct (Qltb v t) eqn:E; intros H.
  - now apply Qltb_lt.
  - apply IH. lia.
Qed.

Lemma linear_scan_unique (l : list Q) v i :
  (i <= List.length l)%nat ->
  (forall j, (j < i)%nat -> nth j l 0 <= v) ->
  ((i < List.length l)%nat -> v < nth i l 0) ->
  linear_scan l v = i.
Proof.
  revert i. induction l as [| t l IH]; intros i Hi Hbefore Hat; simpl in *.
  - lia.
  - destruct (Qltb v t) eqn:E.
    + destruct i as [| i]; trivial.
      apply Qltb_lt in E. specialize (Hbefore 0%nat ltac:(lia)). simpl in Hbefore.
      exfalso. exact (Qlt_not_le _ _ E Hbefore).
    + destruct i as [| i].
      * apply Qltb_ge in E. specialize (Hat ltac:(lia)).
        exfalso. exact (Qlt_not_le _ _ Hat E).
      * f_equal. apply IH; [lia | |].
        -- intros j Hj. apply (Hbefore (S j)). lia.
        -- intros Hlt. apply Hat. lia.
Qed.

Lemma linear_scan_monotone (l : list Q) v1 v2 :
  v1 <= v2 -> (linear_scan l v1 <= linear_scan l v2)%nat.
Proof.
  intros Hv. induction l as [| t l IH]; simpl; [lia |].
  destruct (Qltb v1 t) eqn:E1; [lia |].
  destruct (Qltb v2 t) eqn:E2; [| lia].
  apply Qltb_ge in E1. apply Qltb_lt in E2.
  exfalso. apply (Qlt_not_le _ _ E2). now apply Qle_trans with v1.
Qed.

Lemma sorted_nth (l : list Q) i j :
  Sorted Qle l -> (i <= j)%nat -> (j < List.length l)%nat ->
  nth i l 0 <= nth j l 0.
Proof.
  intros Hs. apply Sorted_StronglySorted in Hs; [| exact Qle_trans].
  revert i j. induction Hs as [| t l Hs IH Hall]; intros i j Hij Hj; simpl in Hj.
  - lia.
  - destruct j as [| j].
    + replace i with 0%nat by lia. apply Qle_refl.
    + destruct i as [| i]; simpl.
      * rewrite Forall_forall in Hall. apply Hall. apply nth_In. lia.
      * apply IH; lia.
Qed.

Hypothesis Hnonempty : thresholds <> [].
Hypothesis Hsorted : sorted thresholds.

Lemma class_idx_linear_scan (v : Q) :
  class_idx thresholds v = Some (linear_scan thresholds v).
Proof.
  unfold class_idx.
  assert (Hlen : (0 < List.length thresholds)%nat).
  { destruct thresholds; [congruence | simpl; lia]. }
  set (s := List.length thresholds) in *.
  rewrite nth_error_th by exact Hlen. cbn [obind].
  destruct (Qltb v (th 0)) eqn:E0.
  - f_equal. symmetry. apply Qltb_lt in E0.
    apply linear_scan_unique; [lia | intros; lia | intros _; exact E0].
  - apply Qltb_ge in E0.
    rewrite nth_error_th by (fold s; lia). cbn [obind].
    destruct (Qle_bool (th (s - 1)) v) eqn:El.
    + f_equal. symmetry. apply Qle_bool_iff in El.
      apply linear_scan_unique; [fold s; lia | | fold s; lia].
      intros j Hj. apply Qle_trans with (th (s - 1)); trivial.
      apply sorted_nth; trivial; fold s; lia.
    + assert (Hl : v < th (s - 1)).
      { apply Qnot_le_lt. intros Hle. apply Qle_bool_iff in Hle. congruence. }
      assert (Hs2 : (1 < s)%nat).
      { destruct (Nat.eq_dec s 1) as [E1 | E1]; [| lia].
        rewrite E1 in Hl. simpl in Hl.
        exfalso. exact (Qlt_not_le _ _ Hl E0). }
      destruct (@class_idx_within_finds v s 1 s) as [i [Hi [Hr [H1 H2]]]];
        trivial; try (fold s; lia).
      rewrite Hi. f_equal. symmetry.
      apply linear_scan_unique; [fold s; lia | | intros _; exact H2].
      intros j Hj. apply Qle_trans with (th (i - 1)); trivial.
      apply sorted_nth; trivial; fold s; lia.
Qed.


End ClassIdx.


(** ** enum_graded_bscore::graded_complexity *)

Section GradedComplexity.

Import enum_graded_bscore.

Local Open Scope R_scope.

Lemma geometric_sum_shift ratio i0 cs :
  geometric_sum ratio (S i0) cs = ratio * geometric_sum ratio i0 cs.
Proof.
  revert i0. induction cs as [| c cs IH]; intros i0; simpl.
  - lra.
  - rewrite IH. simpl. lra.
Qed.

Variable tree_complexity : combo_tree -> Z.

Lemma graded_loop_chain (g : R) branches else_clause (cpxy weight : R) :
  g <> 0 ->
  is_cond_chain branches else_clause ->
  graded_loop tree_complexity (Fin g) (cond_children branches else_clause)
              (Fin cpxy) (Fin weight)
  = Some (Fin (cpxy + weight
                      * geometric_sum (/ g) 0
                          (chain_complexities tree_complexity branches else_clause))).
Proof.
  intros Hg [Hpreds Helse]. revert cpxy weight.
  induction Hpreds as [| pc branches Hpc Hpreds IH]; intros cpxy weight.
  - unfold cond_children, chain_complexities. simpl.
    rewrite Helse. do 2 f_equal. lra.
  - unfold cond_children, chain_complexities in *.
    cbn [flat_map map app fst snd graded_loop geometric_sum].
    rewrite Hpc.
    rewrite ScoreFacts.div_Fin by exact Hg.
    unfold Score.of_Z in *. cbn [Score.mul Score.add].
    rewrite IH. do 2 f_equal.
    rewrite geometric_sum_shift. simpl. field. exact Hg.
Qed.

(** C2, as the code has it: on a chain of conditions with a grading [g]
    strictly between 0 and 1, [graded_complexity] is the sum of the
    complexities of the successive predicates (and of the else clause),
    that of branch [i] weighted by [(1/g)^i]: the weight is divided by
    the grading at each branch, so each branch weighs strictly more than
    the one before it. *)
Theorem C2_graded_complexity_weights (self : enum_graded_bscore.t) (g : R)
    (branches : list (combo_tree * combo_tree)) (else_clause : combo_tree) :
  grading self = Fin g -> 0 < g < 1 ->
  is_cond_chain branches else_clause ->
  graded_complexity tree_complexity self
                    (Node cond (cond_children branches else_clause))
  = Some (graded_by_powers (/ g) tree_complexity branches else_clause)
  /\ forall i : nat, 0 < (/ g) ^ i < (/ g) ^ (S i).
Proof.
  intros Hgr Hg Hchain. split.
  - unfold graded_complexity, graded_by_powers. rewrite Hgr. cbn [children].
    rewrite graded_loop_chain by (trivial; lra).
    do 2 f_equal. lra.
  - intros i.
    assert (Hinv : 1 < / g).
    { rewrite <- Rinv_1. apply Rinv_lt_contravar; lra. }
    assert (Hpow : 0 < (/ g) ^ i) by (apply pow_lt; lra).
    split; trivial. simpl. nra.
Qed.

End GradedComplexity.

Lemma sample_is_cond_chain :
  enum_graded_bscore.is_cond_chain sample_branches sample_else.
Proof. split; [repeat constructor | reflexivity]. Qed.

Lemma sample_two_branches_chain :
  enum_graded_bscore.is_cond_chain sample_two_branches sample_last.
Proof. split; [repeat constructor | reflexivity]. Qed.

(** C2, as the specification states it, fails at [cond($1, a, $2, b, c)]
    with the grading 1/2.  When each predicate has the complexity 1 and
    each enum constant the complexity 0, weights [grading^i] would give
    1 + 1/2, and [graded_complexity] is 1 + 2; when only the second
    predicate counts, its weight shows alone: [grading^1] would give
    1/2, and [graded_complexity] is 2. *)
Lemma C2_graded_complexity_counterexample :
  enum_graded_bscore.is_cond_chain sample_two_branches sample_last
  /\ enum_graded_bscore.graded_complexity sample_argument_complexity
       (sample_graded (1 / 2))
       (Node cond (enum_graded_bscore.cond_children sample_two_branches sample_last))
     = Some (Fin 3)
  /\ graded_by_powers (1 / 2) sample_argument_complexity
                      sample_two_branches sample_last
     = Fin (3 / 2)
  /\ enum_graded_bscore.graded_complexity sample_second_complexity
       (sample_graded (1 / 2))
       (Node cond (enum_graded_bscore.cond_children sample_two_branches sample_last))
     = Some (Fin 2)
  /\ graded_by_powers (1 / 2) sample_second_complexity
                      sample_two_branches sample_last
     = Fin (1 / 2)
  /\ enum_graded_bscore.graded_complexity sample_argument_complexity
       (sample_graded (1 / 2))
       (Node cond (enum_graded_bscore.cond_children sample_two_branches sample_last))
     <> Some (graded_by_powers (1 / 2) sample_argument_complexity
                               sample_two_branches sample_last).
Proof.
  assert (Hcode : forall tc,
    enum_graded_bscore.graded_complexity tc (sample_graded (1 / 2))
      (Node cond (enum_graded_bscore.cond_children sample_two_branches sample_last))
    = Some (Fin (0 + 1 * enum_graded_bscore.geometric_sum (/ (1 / 2)) 0
                         (enum_graded_bscore.chain_complexities
                            tc sample_two_branches sample_last)))).
  { intros tc. unfold enum_graded_bscore.graded_complexity, sample_graded.
    cbn [enum_graded_bscore.grading children].
    rewrite graded_loop_chain by (try exact sample_two_branches_chain; lra).
    reflexivity. }
  assert (Hall :
    enum_graded_bscore.graded_complexity sample_argument_complexity
      (sample_graded (1 / 2))
      (Node cond (enum_graded_bscore.cond_children sample_two_branches sample_last))
    = Some (Fin 3)).
  { rewrite Hcode. simpl. unfold sample_argument_complexity, sample_last.
    cbn [root is_enum_type]. do 2 f_equal. field. }
  assert (Hspec :
    graded_by_powers (1 / 2) sample_argument_complexity
                     sample_two_branches sample_last
    = Fin (3 / 2)).
  { unfold graded_by_powers. simpl.
    unfold sample_argument_complexity, sample_last.
    cbn [root is_enum_type]. f_equal. field. }
  split; [exact sample_two_branches_chain |].
  split; [exact Hall |]. split; [exact Hspec |].
  split.
  { rewrite Hcode. simpl. unfold sample_second_complexity, sample_last.
    cbn [root]. do 2 f_equal. field. }
  split.
  { unfold graded_by_powers. simpl. unfold sample_second_complexity, sample_last.
    cbn [root]. f_equal. field. }
  rewrite Hall, Hspec. intros H. injection H as H. lra.
Qed.

Lemma C2_graded_complexity_weights_witness :
  enum_graded_bscore.graded_complexity sample_argument_complexity
    (sample_graded (1 / 2))
    (Node cond (enum_graded_bscore.cond_children sample_two_branches sample_last))
  = Some (graded_by_powers (/ (1 / 2)) sample_argument_complexity
                           sample_two_branches sample_last)
  /\ forall i : nat, (0 < (/ (1 / 2)) ^ i < (/ (1 / 2)) ^ (S i))%R.
Proof.
  apply (@C2_graded_complexity_weights sample_argument_complexity
           (sample_graded (1 / 2)) (1 / 2)%R sample_two_branches sample_last).
  - reflexivity.
  - lra.
  - exact sample_two_branches_chain.
Defined.

(** ** precision_bscore::gen_canonical_best_candidate *)

Section ExactSums.

Local Open Scope Z_scope.

Lemma Zsum_cons x l : Zsum (x :: l) = x + Zsum l.
Proof. reflexivity. Qed.

Lemma Zsum_app l1 l2 : Zsum (l1 ++ l2) = Zsum l1 + Zsum l2.
Proof. induction l1 as [| x l1 IH]; simpl; [reflexivity | rewrite IH; lia]. Qed.

Lemma Zsum_nonneg l : (forall x, In x l -> 0 <= x) -> 0 <= Zsum l.
Proof.
  induction l as [| x l IH]; intros H; simpl; [lia |].
  assert (0 <= x) by (apply H; now left).
  assert (0 <= Zsum l) by (apply IH; intros y Hy; apply H; now right). lia.
Qed.

Lemma Zsum_In_le l x :
  (forall y, In y l -> 0 <= y) -> In x l -> x <= Zsum l.
Proof.
  induction l as [| y l IH]; intros H Hin; simpl; [contradiction |].
  assert (0 <= y) by (apply H; now left).
  assert (Hl : forall z, In z l -> 0 <= z) by (intros z Hz; apply H; now right).
  pose proof (Zsum_nonneg l Hl).
  destruct Hin as [-> | Hin]; [lia |].
  specialize (IH Hl Hin). lia.
Qed.

Lemma Zsum_Permutation l l' : Permutation l l' -> Zsum l = Zsum l'.
Proof. induction 1; simpl; lia. Qed.

(** An [unsigned] accumulation that stays below [2^32] is exact. *)
Lemma wrap_sum (A : Type) (f : A -> Z) (l : list A) (a : Z) :
  (forall x, In x l -> 0 <= f x) -> 0 <= a ->
  a + Zsum (map f l) < Unsigned.modulus ->
  fold_left (fun acc x => Unsigned.add acc (f x)) l a = a + Zsum (map f l).
Proof.
  revert a. induction l as [| x l IH]; intros a Hf Ha Hlt; simpl in *; [lia |].
  assert (0 <= f x) by (apply Hf; now left).
  assert (Hl : forall y, In y l -> 0 <= f y) by (intros y Hy; apply Hf; now right).
  pose proof (Zsum_nonneg (map f l)) as Hn.
  assert (0 <= Zsum (map f l)).
  { apply Hn. intros y Hy. apply in_map_iff in Hy. destruct Hy as [z [<- Hz]]. now apply Hl. }
  assert (E : Unsigned.add a (f x) = a + f x).
  { apply UnsignedFacts.wrap_small. unfold Unsigned.in_range. lia. }
  rewrite E. rewrite IH; trivial; lia.
Qed.

Lemma total_count_exact (c : counter_t) :
  (forall kv, In kv c -> 0 <= snd kv) -> count_sum c < Unsigned.modulus ->
  Counter.total_count c = count_sum c.
Proof.
  intros Hc Hlt. unfold Counter.total_count, count_sum.
  rewrite (@wrap_sum _ snd c 0); trivial; lia.
Qed.

Variable ct : CTable.
Hypothesis Hrep : representable ct.

Lemma row_count_sum_bounds vct :
  In vct (rows ct) -> 0 <= count_sum (snd vct) <= exact_size ct.
Proof.
  intros Hin. destruct Hrep as [Hpos Hlt].
  assert (Hall : forall y, In y (map (fun vct => count_sum (snd vct)) (rows ct)) -> 0 <= y).
  { intros y Hy. apply in_map_iff in Hy. destruct Hy as [r [<- Hr]].
    apply Zsum_nonneg. intros x Hx. apply in_map_iff in Hx.
    destruct Hx as [kv [<- Hkv]]. now apply (Hpos r). }
  split.
  - apply Hall. apply in_map_iff. now exists vct.
  - apply Zsum_In_le; trivial. apply in_map_iff. now exists vct.
Qed.

Lemma row_total_count vct :
  In vct (rows ct) ->
  Counter.total_count (snd vct) = count_sum (snd vct)
  /\ 0 <= Counter.total_count (snd vct).
Proof.
  intros Hin. pose proof (row_count_sum_bounds vct Hin) as Hb.
  destruct Hrep as [Hpos Hlt].
  assert (E : Counter.total_count (snd vct) = count_sum (snd vct)).
  { apply total_count_exact; [now apply Hpos | lia]. }
  split; [exact E | rewrite E; lia].
Qed.

Lemma totals_sum_exact :
  Zsum (map (fun vct => Counter.total_count (snd vct)) (rows ct)) = exact_size ct.
Proof.
  unfold exact_size. f_equal. apply map_ext_in.
  intros vct Hin. now apply row_total_count.
Qed.

Lemma uncompressed_size_exact : uncompressed_size ct = exact_size ct.
Proof.
  unfold uncompressed_size.
  rewrite (@wrap_sum _ (fun vct => Counter.total_count (snd vct)) (rows ct) 0).
  - rewrite totals_sum_exact. lia.
  - intros vct Hin. now apply row_total_count.
  - lia.
  - rewrite totals_sum_exact. destruct Hrep. lia.
Qed.

End ExactSums.

Section CanonicalCandidate.

Import precision_bscore.

(** *** What the constructor establishes *)

Lemma option_fold_contin (A : Type) (step : A -> Q -> A)
    (c : counter_t) (acc : option A) (r : A) :
  fold_left (fun acc' cv => a <- acc' ;; x <- get_contin (fst cv) ;;
                            Some (step a x)) c acc = Some r ->
  (exists a, acc = Some a)
  /\ forall cv, In cv c -> exists x, fst cv = contin x.
Proof.
  revert acc. induction c as [| cv c IH]; intros acc H; simpl in H.
  - split; [now exists r | intros cv []].
  - apply IH in H. destruct H as [[a' Ha'] Hc].
    destruct acc as [a |]; [| discriminate]. cbn [obind] in Ha'.
    destruct (fst cv) as [| | | | | | | x |] eqn:E; try discriminate.
    split; [now exists a |].
    intros cv' [<- | Hin]; [now exists x | now apply Hc].
Qed.

Lemma option_fold_none (A : Type) (step : A -> Q -> A) (c : counter_t) :
  fold_left (fun acc' cv => a <- acc' ;; x <- get_contin (fst cv) ;;
                            Some (step a x)) c None = None.
Proof. induction c as [| cv c IH]; simpl; trivial. Qed.

Lemma option_fold_rows_contin (A : Type) (step : A -> Q -> A)
    (l : list (vertex_seq * counter_t)) (acc : option A) (r : A) :
  fold_left
    (fun acc0 cr =>
       fold_left (fun acc' cv => a <- acc' ;; x <- get_contin (fst cv) ;;
                                 Some (step a x)) (snd cr) acc0)
    l acc = Some r ->
  (exists a, acc = Some a)
  /\ forall vct, In vct l ->
       forall cv, In cv (snd vct) -> exists x, fst cv = contin x.
Proof.
  revert acc. induction l as [| cr l IH]; intros acc H; cbn [fold_left] in H.
  - split; [now exists r | intros vct []].
  - apply IH in H. destruct H as [[a' Ha'] Hl].
    apply option_fold_contin in Ha'. destruct Ha' as [Hacc Hcr].
    split; [exact Hacc |].
    intros vct [<- | Hin]; [exact Hcr | now apply Hl].
Qed.

Lemma contin_max_output_typed (worst_score : score_t) (positive_ : bool)
    (ct : CTable) (mo : score_t) :
  contin_max_output worst_score positive_ ct = Some mo ->
  forall vct, In vct (rows ct) ->
    forall cv, In cv (snd vct) -> exists x, fst cv = contin x.
Proof.
  intros H.
  exact (proj2 (@option_fold_rows_contin score_t
                  (fun mo x => Score.max mo (if negb positive_
                                             then Score.neg (Score.of_Q x)
                                             else Score.of_Q x))
                  (rows ct) (Some worst_score) mo H)).
Qed.

Lemma sum_outputs_contin_typed (c : counter_t) :
  (forall cv, In cv c -> exists x, fst cv = contin x) ->
  sum_outputs_contin c <> None.
Proof.
  unfold sum_outputs_contin. generalize (Fin 0) as acc.
  induction c as [| cv c IH]; intros acc Hc; simpl; [discriminate |].
  destruct (Hc cv) as [x Hx]; [now left |].
  rewrite Hx. cbn [get_contin obind]. apply IH.
  intros cv' Hin. apply Hc. now right.
Qed.

Lemma make_inv (worst_score : score_t) (ct : CTable)
    (penalty_ min_activation_ max_activation_ : score_t)
    (positive_ worst_norm_ : bool) (self : t) :
  make worst_score ct penalty_ min_activation_ max_activation_
       positive_ worst_norm_ = Some self ->
  ctable self = ct
  /\ ctable_usize self = uncompressed_size ct
  /\ min_activation self = min_activation_
  /\ forall vct, In vct (rows ct) -> sum_outputs self (snd vct) <> None.
Proof.
  unfold make. intros H.
  destruct (make_sum_outputs (tt_output ct) positive_) as [so |] eqn:Eso;
    [| discriminate].
  cbn [obind] in H.
  destruct (negb _); [discriminate |].
  destruct (tt_output ct) eqn:Ety.
  - cbn [obind] in H. injection H as <-. cbn.
    repeat apply conj; trivial.
    intros vct _. injection Eso as <-. discriminate.
  - destruct (contin_max_output worst_score positive_ ct) as [mo |] eqn:Emo;
      [| discriminate].
    cbn [obind] in H. injection H as <-. cbn.
    repeat apply conj; trivial.
    intros vct Hin. injection Eso as <-.
    pose proof (@sum_outputs_contin_typed (snd vct)
                  (contin_max_output_typed _ _ _ Emo vct Hin)) as Hs.
    destruct (sum_outputs_contin (snd vct)); [discriminate | congruence].
  - discriminate.
Qed.

(** *** The multimap of the rows *)

Lemma insert_Permutation (V : Type) (k : score_t) (v : V) (m : Multimap.t V) :
  Permutation (Multimap.insert k v m) ((k, v) :: m).
Proof.
  induction m as [| [k' v'] m IH]; simpl; [apply Permutation_refl |].
  destruct (Score.ltb k k'); [apply Permutation_refl |].
  eapply Permutation_trans; [apply perm_skip, IH | apply perm_swap].
Qed.

Lemma precision_to_count_Permutation (self : t) :
  (forall vct, In vct (rows (ctable self)) -> sum_outputs self (snd vct) <> None) ->
  exists ptc,
    precision_to_count self = Some ptc
    /\ Permutation (map snd ptc) (map with_total (rows (ctable self))).
Proof.
  unfold precision_to_count.
  assert (G : forall l ptc0,
    (forall vct, In vct l -> sum_outputs self (snd vct) <> None) ->
    exists ptc,
      fold_left
        (fun acc it =>
           ptc <- acc ;;
           so <- sum_outputs self (snd it) ;;
           Some (Multimap.insert
                   (Score.div so (Score.of_Z (Counter.total_count (snd it))))
                   (it, Counter.total_count (snd it)) ptc))
        l (Some ptc0) = Some ptc
      /\ Permutation (map snd ptc) (rev (map with_total l) ++ map snd ptc0)).
  { induction l as [| it l IH]; intros ptc0 Hso; simpl.
    - exists ptc0. split; [reflexivity | apply Permutation_refl].
    - destruct (sum_outputs self (snd it)) as [so |] eqn:E;
        [| exfalso; apply (Hso it); [now left | exact E]].
      cbn [obind].
      destruct (IH (Multimap.insert
                      (Score.div so (Score.of_Z (Counter.total_count (snd it))))
                      (it, Counter.total_count (snd it)) ptc0))
        as [ptc [Hfold Hperm]].
      { intros vct Hin. apply Hso. now right. }
      exists ptc. split; [exact Hfold |].
      eapply Permutation_trans; [exact Hperm |].
      rewrite <- app_assoc. apply Permutation_app_head. simpl.
      exact (Permutation_map snd (insert_Permutation _ _ _)). }
  intros Hso. destruct (G (rows (ctable self)) [] Hso) as [ptc [Hfold Hperm]].
  exists ptc. split; [exact Hfold |].
  eapply Permutation_trans; [exact Hperm |].
  simpl. rewrite app_nil_r. apply Permutation_sym, Permutation_rev.
Qed.

(** *** The clauses *)

(** The clause of a row of boolean inputs is true on the row. *)
Lemma clause_arguments_true (before inputs : vertex_seq) :
  (forall v, In v inputs -> v = logical_true \/ v = logical_false) ->
  forallb (eval_literal (before ++ inputs))
          (clause_arguments (Z.of_nat (List.length before) + 1) inputs) = true.
Proof.
  revert before. induction inputs as [| input inputs IH]; intros before Hb;
    simpl; trivial.
  apply andb_true_intro. split.
  - assert (Hnth : nth_error (before ++ input :: inputs) (List.length before)
                   = Some input).
    { rewrite nth_error_app2 by lia. now rewrite Nat.sub_diag. }
    destruct (Hb input) as [-> | ->]; [now left | |]; cbn [vertex_eqb].
    + replace (0 <? Z.of_nat (List.length before) + 1)%Z with true
        by (symmetry; apply Z.ltb_lt; lia).
      replace (Z.to_nat (Z.of_nat (List.length before) + 1 - 1))
        with (List.length before) by lia.
      now rewrite Hnth.
    + replace (0 <? - (Z.of_nat (List.length before) + 1))%Z with false
        by (symmetry; apply Z.ltb_ge; lia).
      replace (Z.to_nat (- - (Z.of_nat (List.length before) + 1) - 1))
        with (List.length before) by lia.
      now rewrite Hnth.
  - specialize (IH (before ++ [input])).
    rewrite <- app_assoc in IH. simpl in IH.
    rewrite length_app in IH. simpl in IH.
    replace (Z.of_nat (List.length before + 1) + 1)%Z
      with (Z.of_nat (List.length before) + 1 + 1)%Z in IH by lia.
    apply IH. intros v Hv. apply Hb. now right.
Qed.

Lemma clause_of_true (v : score_t * (row_t * Z)) :
  (forall x, In x (fst (fst (snd v))) -> x = logical_true \/ x = logical_false) ->
  eval_clause (fst (fst (snd v))) (clause_of v) = true.
Proof.
  intros Hb. unfold clause_of, eval_clause.
  exact (@clause_arguments_true [] (fst (fst (snd v))) Hb).
Qed.

Lemma clause_arguments_literals (idx : Z) (inputs : vertex_seq) :
  (0 < idx)%Z -> forallb is_literal (clause_arguments idx inputs) = true.
Proof.
  revert idx. induction inputs as [| input inputs IH]; intros idx Hidx;
    simpl; trivial.
  apply andb_true_intro. split.
  - destruct (vertex_eqb input logical_true);
      apply negb_true_iff, Z.eqb_neq; lia.
  - apply IH. lia.
Qed.

Lemma clauses_is_dnf (l : list (score_t * (row_t * Z))) :
  is_dnf (Node logical_or (map clause_of l)) = true.
Proof.
  simpl. induction l as [| v l IH]; simpl; trivial.
  rewrite IH, andb_true_r. apply clause_arguments_literals. lia.
Qed.

End CanonicalCandidate.

(** *** Counts that wrap *)

Section WrappedSums.

Local Open Scope Z_scope.

Lemma wrap_add_l a b : Unsigned.wrap (Unsigned.wrap a + b) = Unsigned.wrap (a + b).
Proof. unfold Unsigned.wrap. apply Zplus_mod_idemp_l. Qed.

(** An [unsigned] accumulation is the sum, modulo [2^32]. *)
Lemma wrap_fold (T : Type) (f : T -> Z) (l : list T) (a : Z) :
  Unsigned.in_range a ->
  fold_left (fun acc x => Unsigned.add acc (f x)) l a
  = Unsigned.wrap (a + Zsum (map f l)).
Proof.
  revert a. induction l as [| x l IH]; intros a Ha; simpl.
  - rewrite Z.add_0_r. symmetry. now apply UnsignedFacts.wrap_small.
  - rewrite IH by apply UnsignedFacts.wrap_in_range.
    unfold Unsigned.add. rewrite wrap_add_l. f_equal. lia.
Qed.

Lemma uncompressed_size_wrap (ct : CTable) :
  uncompressed_size ct
  = Unsigned.wrap (Zsum (map (fun vct => Counter.total_count (snd vct)) (rows ct))).
Proof.
  unfold uncompressed_size.
  rewrite (@wrap_fold _ (fun vct => Counter.total_count (snd vct)) (rows ct) 0).
  - reflexivity.
  - unfold Unsigned.in_range, Unsigned.modulus. lia.
Qed.

End WrappedSums.

(** *** The rows on which a clause is true *)

Section Minterms.

Import precision_bscore.

(** The clause of a row of boolean inputs is true on this row only,
    among the rows of as many inputs. *)
Lemma clause_arguments_only (before inputs vs : vertex_seq) :
  (forall v, In v inputs -> v = logical_true \/ v = logical_false) ->
  List.length vs = List.length inputs ->
  forallb (eval_literal (before ++ vs))
          (clause_arguments (Z.of_nat (List.length before) + 1) inputs) = true ->
  vs = inputs.
Proof.
  revert before vs. induction inputs as [| input inputs IH];
    intros before vs Hb Hlen H.
  - destruct vs; [reflexivity | discriminate].
  - destruct vs as [| x vs]; [discriminate |].
    simpl in H. apply andb_prop in H. destruct H as [Hlit Hrest].
    assert (Hnth : nth_error (before ++ x :: vs) (List.length before) = Some x).
    { rewrite nth_error_app2 by lia. now rewrite Nat.sub_diag. }
    assert (Hx : x = input).
    { destruct (Hb input) as [-> | ->]; [now left | |];
        cbn [vertex_eqb] in Hlit.
      - replace (0 <? Z.of_nat (List.length before) + 1)%Z with true in Hlit
          by (symmetry; apply Z.ltb_lt; lia).
        replace (Z.to_nat (Z.of_nat (List.length before) + 1 - 1))
          with (List.length before) in Hlit by lia.
        rewrite Hnth in Hlit. destruct x; try discriminate. reflexivity.
      - replace (0 <? - (Z.of_nat (List.length before) + 1))%Z with false in Hlit
          by (symmetry; apply Z.ltb_ge; lia).
        replace (Z.to_nat (- - (Z.of_nat (List.length before) + 1) - 1))
          with (List.length before) in Hlit by lia.
        rewrite Hnth in Hlit. destruct x; try discriminate. reflexivity. }
    subst x. f_equal.
    apply (IH (before ++ [input]) vs).
    + intros v Hv. apply Hb. now right.
    + simpl in Hlen. lia.
    + rewrite <- app_assoc. simpl.
      rewrite length_app. simpl.
      replace (Z.of_nat (List.length before + 1) + 1)%Z
        with (Z.of_nat (List.length before) + 1 + 1)%Z by lia.
      exact Hrest.
Qed.

Lemma clause_of_only (v : score_t * (row_t * Z)) (vs : vertex_seq) :
  (forall x, In x (fst (fst (snd v))) -> x = logical_true \/ x = logical_false) ->
  List.length vs = List.length (fst (fst (snd v))) ->
  eval_clause vs (clause_of v) = true -> vs = fst (fst (snd v)).
Proof.
  intros Hb Hlen H. unfold clause_of, eval_clause in H.
  exact (@clause_arguments_only [] (fst (fst (snd v))) vs Hb Hlen H).
Qed.

Lemma NoDup_app_disjoint (T : Type) (l1 l2 : list T) (x : T) :
  NoDup (l1 ++ l2) -> In x l1 -> In x l2 -> False.
Proof.
  induction l1 as [| y l1 IH]; intros Hnd H1 H2; [destruct H1 |].
  simpl in Hnd. inversion Hnd as [| ? ? Hy Hnd']; subst.
  destruct H1 as [-> | H1].
  - apply Hy. apply in_or_app. now right.
  - now apply IH.
Qed.

End Minterms.

(** *** The candidate, whatever the arithmetic *)

Section InArith.

Import precision_bscore.

Variable F : Type.
Variable A : Arith.t F.

Lemma in_arith_insert_Permutation (V : Type) (k : F) (v : V) (m : list (F * V)) :
  Permutation (in_arith.insert A k v m) ((k, v) :: m).
Proof.
  induction m as [| [k' v'] m IH]; simpl; [apply Permutation_refl |].
  destruct (Arith.ltb A k k'); [apply Permutation_refl |].
  eapply Permutation_trans; [apply perm_skip, IH | apply perm_swap].
Qed.

Lemma in_arith_precision_to_count_Permutation
    (sum_outputs : counter_t -> option F) (ct : CTable) :
  (forall vct, In vct (rows ct) -> sum_outputs (snd vct) <> None) ->
  exists ptc,
    in_arith.precision_to_count A sum_outputs ct = Some ptc
    /\ Permutation (map snd ptc) (map with_total (rows ct)).
Proof.
  unfold in_arith.precision_to_count.
  assert (G : forall l ptc0,
    (forall vct, In vct l -> sum_outputs (snd vct) <> None) ->
    exists ptc,
      fold_left
        (fun acc it =>
           ptc <- acc ;;
           so <- sum_outputs (snd it) ;;
           Some (in_arith.insert A
                   (Arith.div A so (Arith.of_unsigned A (Counter.total_count (snd it))))
                   (it, Counter.total_count (snd it)) ptc))
        l (Some ptc0) = Some ptc
      /\ Permutation (map snd ptc) (rev (map with_total l) ++ map snd ptc0)).
  { induction l as [| it l IH]; intros ptc0 Hso; simpl.
    - exists ptc0. split; [reflexivity | apply Permutation_refl].
    - destruct (sum_outputs (snd it)) as [so |] eqn:E;
        [| exfalso; apply (Hso it); [now left | exact E]].
      cbn [obind].
      destruct (IH (in_arith.insert A
                      (Arith.div A so (Arith.of_unsigned A (Counter.total_count (snd it))))
                      (it, Counter.total_count (snd it)) ptc0))
        as [ptc [Hfold Hperm]].
      { intros vct Hin. apply Hso. now right. }
      exists ptc. split; [exact Hfold |].
      eapply Permutation_trans; [exact Hperm |].
      rewrite <- app_assoc. apply Permutation_app_head. simpl.
      exact (Permutation_map snd (in_arith_insert_Permutation _ _ _)). }
  intros Hso. destruct (G (rows ct) [] Hso) as [ptc [Hfold Hperm]].
  exists ptc. split; [exact Hfold |].
  eapply Permutation_trans; [exact Hperm |].
  simpl. rewrite app_nil_r. apply Permutation_sym, Permutation_rev.
Qed.

Lemma in_arith_clauses_loop_wrap (usize : Z) (min_activation_ : F)
    (ptc : list (F * (row_t * Z))) (active0 : Z) (clauses0 : list combo_tree) :
  Unsigned.in_range active0 ->
  exists included excluded,
    ptc = included ++ excluded
    /\ in_arith.clauses_loop A usize min_activation_ ptc active0 clauses0
       = (clauses0
          ++ map (fun v => Node logical_and
                                (clause_arguments 1 (fst (fst (snd v)))))
                 included,
          Unsigned.wrap (active0 + Zsum (map (fun v => snd (snd v)) included)))
    /\ (excluded = []
        \/ Arith.leb A (Arith.mul A (Arith.of_unsigned A usize) min_activation_)
                     (Arith.of_unsigned A
                        (Unsigned.wrap
                           (active0 + Zsum (map (fun v => snd (snd v)) included))))
           = true).
Proof.
  revert active0 clauses0.
  induction ptc as [| v ptc IH]; intros active0 clauses0 Ha.
  - exists [], []. simpl. rewrite app_nil_r, Z.add_0_r.
    rewrite UnsignedFacts.wrap_small by trivial. auto.
  - cbn [in_arith.clauses_loop].
    destruct (Arith.leb A _ (Arith.of_unsigned A (Unsigned.add active0 (snd (snd v)))))
      eqn:Eb.
    + exists [v], ptc. simpl. rewrite Z.add_0_r. auto.
    + destruct (IH (Unsigned.add active0 (snd (snd v)))
                   (clauses0 ++ [Node logical_and
                                   (clause_arguments 1 (fst (fst (snd v))))]))
        as [included [excluded [Hsplit [Hloop Hstop]]]].
      * apply UnsignedFacts.wrap_in_range.
      * assert (E : Unsigned.wrap (Unsigned.add active0 (snd (snd v))
                                   + Zsum (map (fun v => snd (snd v)) included))
                    = Unsigned.wrap (active0
                                     + Zsum (map (fun v => snd (snd v))
                                                 (v :: included)))).
        { unfold Unsigned.add. rewrite wrap_add_l. f_equal. simpl. lia. }
        rewrite E in Hloop, Hstop.
        exists (v :: included), excluded.
        split; [simpl; now rewrite Hsplit |].
        split; [| exact Hstop].
        rewrite Hloop. rewrite <- app_assoc. reflexivity.
Qed.

End InArith.

Section RoundedTest.

Local Open Scope R_scope.

Variable round : R -> score_t.
Hypothesis Hround : Rounded.rounding round.

(** The stop test holds once [active] has reached the size of the table,
    whatever the rounding, for a minimum activation of at most 1. *)
Lemma stop_test_at_size (usize : Z) (m : R) :
  (0 <= usize)%Z -> 0 < m <= 1 ->
  Score.le (Rounded.rounded round (Score.mul (round (IZR usize)) (Fin m)))
           (round (IZR usize)).
Proof.
  intros Hu Hm.
  pose proof (RoundedFacts.round_above_zero Hround (IZR_le _ _ Hu)) as H0.
  destruct (round (IZR usize)) as [u | | |] eqn:E; try discriminate.
  - apply ScoreFacts.leb_Fin in H0. cbn [Score.mul Rounded.rounded].
    rewrite <- (Rounded.round_idempotent Hround _ E).
    apply (Rounded.round_monotone Hround). nra.
  - cbn [Score.mul]. rewrite RoundedFacts.signed_inf_pos by lra. reflexivity.
Qed.

End RoundedTest.

Section ExactCandidate.

Import precision_bscore.

Lemma exact_insert (V : Type) (k : score_t) (v : V) (m : Multimap.t V) :
  in_arith.insert (Rounded.arith Fin) k v m = Multimap.insert k v m.
Proof.
  induction m as [| [k' v'] m IH]; simpl; [reflexivity |]. now rewrite IH.
Qed.

Lemma fold_left_pointwise (S T : Type) (f g : S -> T -> S) (l : list T) (a : S) :
  (forall x y, f x y = g x y) -> fold_left f l a = fold_left g l a.
Proof.
  intros H. revert a. induction l as [| y l IH]; intros a; [reflexivity |].
  simpl. now rewrite H, IH.
Qed.

Lemma exact_precision_to_count (self : t) :
  in_arith.precision_to_count (Rounded.arith Fin) (sum_outputs self) (ctable self)
  = precision_to_count self.
Proof.
  unfold in_arith.precision_to_count, precision_to_count.
  apply fold_left_pointwise. intros acc it.
  destruct acc as [ptc |]; [| reflexivity]. cbn [obind].
  destruct (sum_outputs self (snd it)) as [so |]; [| reflexivity]. cbn [obind].
  rewrite exact_insert. cbn [Arith.div Arith.of_unsigned Rounded.arith].
  now rewrite RoundedFacts.rounded_exact.
Qed.

Lemma exact_clauses_loop (self : t) (ptc : Multimap.t (row_t * Z))
    (active0 : Z) (clauses0 : list combo_tree) :
  in_arith.clauses_loop (Rounded.arith Fin) (ctable_usize self)
                        (min_activation self) ptc active0 clauses0
  = clauses_loop self ptc active0 clauses0.
Proof.
  revert active0 clauses0.
  induction ptc as [| v ptc IH]; intros active0 clauses0; [reflexivity |].
  cbn [in_arith.clauses_loop clauses_loop].
  cbn [Arith.leb Arith.mul Arith.of_unsigned Rounded.arith].
  rewrite RoundedFacts.rounded_exact, IH. reflexivity.
Qed.

(** The exact arithmetic is the one in which nothing is rounded. *)
Lemma exact_gen_canonical_best_candidate (self : t) :
  Rounded.gen_canonical_best_candidate Fin self
  = gen_canonical_best_candidate self.
Proof.
  unfold Rounded.gen_canonical_best_candidate,
    in_arith.gen_canonical_best_candidate, gen_canonical_best_candidate.
  rewrite exact_precision_to_count.
  destruct (precision_to_count self) as [ptc |]; [| reflexivity].
  cbn [obind]. now rewrite exact_clauses_loop.
Qed.

End ExactCandidate.

Section CanonicalActivation.

Import precision_bscore.

Variable worst_score : score_t.
Variable eval_binding : vertex_seq -> combo_tree -> vertex.
Variable tree_complexity : combo_tree -> Z.

Lemma active_rows_wrap (self : t) (tr : combo_tree) (l : list row_t)
    (st0 : actives) :
  Unsigned.in_range (active st0) ->
  (forall vct, In vct l -> sum_outputs self (snd vct) <> None) ->
  exists st,
    fold_left (fun acc vct => st' <- acc ;; active_row eval_binding self tr st' vct)
              l (Some st0) = Some st
    /\ active st
       = Unsigned.wrap (active st0 + Zsum (map (active_total eval_binding tr) l))%Z.
Proof.
  revert st0. induction l as [| vct l IH]; intros st0 Ha Hso.
  - exists st0. simpl. split; [reflexivity |].
    rewrite Z.add_0_r. symmetry. now apply UnsignedFacts.wrap_small.
  - cbn [fold_left obind]. rewrite map_cons, Zsum_cons.
    unfold active_row at 2, active_total at 1.
    destruct (vertex_eqb (eval_binding (fst vct) tr) logical_true).
    + destruct (sum_outputs self (snd vct)) as [sumo |] eqn:E;
        [| exfalso; apply (Hso vct); [now left | exact E]].
      cbn [obind].
      edestruct IH as [st [Hfold Hact]];
        [| | exists st; split; [exact Hfold |]].
      * cbn [active]. apply UnsignedFacts.wrap_in_range.
      * intros w Hw. apply Hso. now right.
      * rewrite Hact. cbn [active]. unfold Unsigned.add.
        rewrite wrap_add_l. f_equal. lia.
    + edestruct IH as [st [Hfold Hact]];
        [| | exists st; split; [exact Hfold |]].
      * exact Ha.
      * intros w Hw. apply Hso. now right.
      * rewrite Hact. f_equal.
Qed.

(** C7, as the code has it: a precision scorer constructed with
    [0 < min_activation <= max_activation <= 1] over a non-empty table of
    boolean inputs builds a canonical candidate, and the rows on which
    this candidate is true have a total count [active] that passes the
    test of the loop, [ctable_usize * min_activation <= active], as the
    code computes it: with the product and the two conversions rounded,
    whatever the rounding, provided it is monotone and leaves 0 and 1 as
    they are.  When the product and the two conversions are exact,
    [active] is at least [ctable_usize * min_activation], and the
    activation [active / ctable_usize] of the candidate is at least
    [min_activation].  The rows of the table are distinct and of the
    same arity, as the rows of a [CTable] are; their counts may wrap.
    The evaluator is taken to evaluate a disjunction of conjunctions of
    literals as [eval_dnf] does. *)
Theorem C7_canonical_candidate_activation (round : R -> score_t) (ct : CTable)
    (penalty_ min_activation_ max_activation_ : R)
    (positive_ worst_norm_ : bool) (self : t) :
  Rounded.rounding round ->
  make worst_score ct (Fin penalty_) (Fin min_activation_) (Fin max_activation_)
       positive_ worst_norm_ = Some self ->
  (0 < min_activation_ <= max_activation_)%R -> (max_activation_ <= 1)%R ->
  rows ct <> [] ->
  distinct_rows ct ->
  boolean_inputs ct ->
  (forall vs tr, is_dnf tr = true ->
                 eval_binding vs tr = bool_to_vertex (eval_dnf vs tr)) ->
  let A := Rounded.arith round in
  exists tr st,
    Rounded.gen_canonical_best_candidate round self = Some tr
    /\ active_rows eval_binding self tr = Some st
    /\ Arith.leb A (Arith.mul A (Arith.of_unsigned A (ctable_usize self))
                                (min_activation self))
                   (Arith.of_unsigned A (active st)) = true
    /\ (round (IZR (ctable_usize self)) = Fin (IZR (ctable_usize self)) ->
        round (IZR (ctable_usize self) * min_activation_)%R
        = Fin (IZR (ctable_usize self) * min_activation_)%R ->
        round (IZR (active st)) = Fin (IZR (active st)) ->
        (IZR (ctable_usize self) * min_activation_ <= IZR (active st))%R
        /\ ((0 < ctable_usize self)%Z ->
            (min_activation_ <= IZR (active st) / IZR (ctable_usize self))%R)).
Proof.
  intros Hround Hmake Hbounds Hmax1 Hnonempty [Hnd Harity] Hbool Heval A.
  destruct (make_inv _ _ _ _ _ _ _ Hmake) as [Hct [Husize [Hmin Hso]]].
  destruct (@in_arith_precision_to_count_Permutation _ A (sum_outputs self) ct Hso)
    as [ptc [Hptc Hperm]].
  (* the rows in the order of the loop *)
  set (ordered := rev ptc).
  assert (Hord : Permutation (map snd ordered) (map with_total (rows ct))).
  { eapply Permutation_trans; [| exact Hperm].
    apply Permutation_map, Permutation_sym, Permutation_rev. }
  assert (Hmem : forall v, In v ordered ->
                   exists it, In it (rows ct) /\ snd v = with_total it).
  { intros v Hv.
    assert (Hin : In (snd v) (map with_total (rows ct))).
    { eapply Permutation_in; [exact Hord |]. now apply in_map. }
    apply in_map_iff in Hin. destruct Hin as [it [E Hit]]. now exists it. }
  assert (Hkeys : NoDup (map (fun v : score_t * (row_t * Z) => fst (fst (snd v)))
                             ordered)).
  { apply (@Permutation_NoDup _ (map fst (rows ct))); [| exact Hnd].
    apply Permutation_sym.
    assert (E1 : map (fun v : score_t * (row_t * Z) => fst (fst (snd v))) ordered
                 = map (fun p : row_t * Z => fst (fst p)) (map snd ordered))
      by now rewrite map_map.
    assert (E2 : map fst (rows ct)
                 = map (fun p : row_t * Z => fst (fst p)) (map with_total (rows ct)))
      by now rewrite map_map.
    rewrite E1, E2. now apply Permutation_map. }
  destruct (@in_arith_clauses_loop_wrap _ A (ctable_usize self)
              (min_activation self) ordered 0%Z [])
    as [included [excluded [Hsplit [Hloop Hstop]]]].
  { unfold Unsigned.in_range, Unsigned.modulus. lia. }
  cbn [app] in Hloop. rewrite Z.add_0_l in Hloop, Hstop.
  change (map (fun v : score_t * (row_t * Z) =>
                 Node logical_and (clause_arguments 1 (fst (fst (snd v)))))
              included)
    with (map clause_of included) in Hloop.
  set (tr := Node logical_or (map clause_of included)).
  assert (Htr : Rounded.gen_canonical_best_candidate round self = Some tr).
  { unfold Rounded.gen_canonical_best_candidate,
      in_arith.gen_canonical_best_candidate.
    rewrite Hct. fold A. rewrite Hptc. cbn [obind].
    fold ordered. now rewrite Hloop. }
  assert (Hinputs : forall v, In v ordered ->
            forall x, In x (fst (fst (snd v))) ->
                      x = logical_true \/ x = logical_false).
  { intros v Hv. destruct (Hmem v Hv) as [it [Hit E]].
    rewrite E. cbn [with_total fst]. now apply Hbool. }
  (* the candidate is true on the rows of its clauses *)
  assert (Hactive : forall v, In v included ->
            vertex_eqb (eval_binding (fst (fst (snd v))) tr) logical_true = true).
  { intros v Hv. rewrite Heval by apply clauses_is_dnf.
    assert (Hd : eval_dnf (fst (fst (snd v))) tr = true).
    { unfold tr, eval_dnf. apply existsb_exists. exists (clause_of v). split.
      - now apply in_map.
      - apply clause_of_true. apply Hinputs.
        rewrite Hsplit. apply in_or_app. now left. }
    now rewrite Hd. }
  (* and on these rows only *)
  assert (Hinactive : forall v, In v excluded ->
            vertex_eqb (eval_binding (fst (fst (snd v))) tr) logical_true = false).
  { intros v Hv. rewrite Heval by apply clauses_is_dnf.
    destruct (eval_dnf (fst (fst (snd v))) tr) eqn:Hd; [exfalso | reflexivity].
    unfold tr, eval_dnf in Hd. apply existsb_exists in Hd.
    destruct Hd as [cl [Hcl Hd]]. apply in_map_iff in Hcl.
    destruct Hcl as [w [<- Hw]].
    assert (Hwo : In w ordered) by (rewrite Hsplit; apply in_or_app; now left).
    assert (Hvo : In v ordered) by (rewrite Hsplit; apply in_or_app; now right).
    assert (E : fst (fst (snd v)) = fst (fst (snd w))).
    { apply clause_of_only; trivial; [now apply Hinputs |].
      destruct (Hmem v Hvo) as [it [Hit ->]].
      destruct (Hmem w Hwo) as [it' [Hit' ->]].
      cbn [with_total fst]. now apply Harity. }
    rewrite Hsplit, map_app in Hkeys.
    apply (@NoDup_app_disjoint _ _ _ (fst (fst (snd w))) Hkeys).
    - apply in_map_iff. now exists w.
    - apply in_map_iff. now exists v. }
  destruct (@active_rows_wrap self tr (rows ct)
              {| active := 0; sao := Fin 0; worst_deciles := [] |})
    as [st [Hst Hact]]; trivial.
  { cbn [active]. unfold Unsigned.in_range, Unsigned.modulus. lia. }
  cbn [active] in Hact. rewrite Z.add_0_l in Hact.
  (* [active] is the count the loop has reached *)
  set (reached := Zsum (map (fun v => snd (snd v)) included)) in *.
  assert (Hsum : Zsum (map (active_total eval_binding tr) (rows ct)) = reached).
  { assert (E : map (active_total eval_binding tr) (rows ct)
                = map (fun p => active_total eval_binding tr (fst p))
                      (map with_total (rows ct))).
    { rewrite map_map. reflexivity. }
    rewrite E.
    rewrite <- (Zsum_Permutation
                  (Permutation_map (fun p => active_total eval_binding tr (fst p)) Hord)).
    rewrite Hsplit, !map_app, Zsum_app.
    assert (Hinc : Zsum (map (fun p => active_total eval_binding tr (fst p))
                             (map snd included))
                   = reached).
    { unfold reached. rewrite map_map. f_equal. apply map_ext_in.
      intros v Hv. unfold active_total. rewrite (Hactive v Hv).
      destruct (Hmem v) as [it [Hit Ev]].
      { rewrite Hsplit. apply in_or_app. now left. }
      rewrite Ev. reflexivity. }
    assert (Hexc : Zsum (map (fun p => active_total eval_binding tr (fst p))
                             (map snd excluded)) = 0%Z).
    { rewrite map_map.
      assert (G : forall l, (forall v, In v l -> In v excluded) ->
                Zsum (map (fun v : score_t * (row_t * Z) =>
                             active_total eval_binding tr (fst (snd v))) l) = 0%Z).
      { induction l as [| v l IH]; intros Hl; [reflexivity |].
        rewrite map_cons, Zsum_cons, IH by (intros w Hw; apply Hl; now right).
        unfold active_total. rewrite (Hinactive v) by (apply Hl; now left).
        reflexivity. }
      now apply G. }
    rewrite Hinc, Hexc. lia. }
  rewrite Hsum in Hact.
  assert (Htest : Score.le
            (Rounded.rounded round
               (Score.mul (round (IZR (ctable_usize self))) (Fin min_activation_)))
            (round (IZR (active st)))).
  { rewrite Hact. destruct Hstop as [-> | Hleb].
    - rewrite app_nil_r in Hsplit. subst included.
      assert (Hall : Unsigned.wrap reached = ctable_usize self).
      { rewrite Husize, uncompressed_size_wrap. f_equal. unfold reached.
        rewrite <- (map_map snd snd ordered).
        rewrite (Zsum_Permutation (Permutation_map snd Hord)).
        now rewrite map_map. }
      rewrite Hall. apply stop_test_at_size; trivial; [| lra].
      rewrite <- Hall. apply UnsignedFacts.wrap_in_range.
    - rewrite Hmin in Hleb. exact Hleb. }
  exists tr, st. split; [exact Htr |]. split.
  { unfold active_rows. rewrite Hct. exact Hst. }
  split.
  { rewrite Hmin. exact Htest. }
  intros Eu Ep Ea. rewrite Eu, Ea in Htest.
  cbn [Score.mul Rounded.rounded] in Htest. rewrite Ep in Htest.
  apply ScoreFacts.leb_Fin in Htest. split; [exact Htest |].
  intros Hpos.
  assert (Hup : (0 < IZR (ctable_usize self))%R) by now apply (IZR_lt 0).
  apply Rmult_le_reg_r with (r := IZR (ctable_usize self)); trivial.
  unfold Rdiv. rewrite Rmult_assoc, Rinv_l by lra. lra.
Qed.

End CanonicalActivation.

Lemma C6_degenerate_active_partition_witness :
  interesting_predicate_bscore.operator
    (fun _ _ => logical_true) (fun _ => 1%Z) NInf
    (fun _ _ => Fin 0) (fun _ _ => []) (fun _ => Fin 0) (fun _ _ => Fin 0)
    (fun x _ => x) sample_interesting (Node logical_true [])
  = Some ([NInf], Fin 0).
Proof.
  apply (@C6_degenerate_active_partition
           (fun _ _ => logical_true) (fun _ => 1%Z) NInf
           (fun _ _ => Fin 0) (fun _ _ => []) (fun _ => Fin 0) (fun _ _ => Fin 0)
           (fun x _ => x) sample_interesting (Node logical_true [])).
  - intros v Hin. simpl in Hin.
    destruct Hin as [<- | [<- | []]]; eexists; reflexivity.
  - intros x y Hx Hy. simpl in Hx, Hy.
    destruct Hx as [Hx | [Hx | []]]; destruct Hy as [Hy | [Hy | []]];
      injection Hx as <-; injection Hy as <-; reflexivity.
Defined.

Lemma sample_precision_make :
  precision_bscore.make NInf sample_two_rows (Fin 1) (Fin (1 / 2)) (Fin 1)
                        true false
  = Some {| precision_bscore.ctable := sample_two_rows;
            precision_bscore.ctable_usize := uncompressed_size sample_two_rows;
            precision_bscore.min_activation := Fin (1 / 2);
            precision_bscore.max_activation := Fin 1;
            precision_bscore.penalty := Fin 1;
            precision_bscore.positive := true;
            precision_bscore.worst_norm := false;
            precision_bscore.output_type := boolean_type;
            precision_bscore.sum_outputs := sum_outputs_boolean logical_true;
            precision_bscore.max_output := Fin 1;
            precision_bscore.occam := false;
            precision_bscore.complexity_coef := Fin 0 |}.
Proof.
  unfold precision_bscore.make. cbn [tt_output sample_two_rows
    precision_bscore.make_sum_outputs obind bool_to_vertex].
  rewrite (proj2 (ScoreFacts.ltb_Fin 0 1)) by lra.
  rewrite (proj2 (ScoreFacts.ltb_Fin 0 (1 / 2))) by lra.
  rewrite (proj2 (ScoreFacts.leb_Fin (1 / 2) 1)) by lra.
  reflexivity.
Qed.

Lemma sample_two_rows_representable : representable sample_two_rows.
Proof.
  split.
  - intros vct Hin kv Hkv. simpl in Hin.
    destruct Hin as [<- | [<- | []]]; simpl in Hkv;
      destruct Hkv as [<- | []]; simpl; lia.
  - vm_compute. reflexivity.
Qed.

Lemma sample_two_rows_distinct : distinct_rows sample_two_rows.
Proof.
  split.
  - repeat constructor; simpl; intuition discriminate.
  - intros r r' [<- | [<- | []]] [<- | [<- | []]]; reflexivity.
Qed.

Lemma sample_two_rows_boolean : boolean_inputs sample_two_rows.
Proof.
  intros vct Hin v Hv. simpl in Hin.
  destruct Hin as [<- | [<- | []]]; simpl in Hv;
    destruct Hv as [<- | []]; auto.
Qed.

Lemma C7_canonical_candidate_activation_witness :
  let eval_binding := fun vs tr => bool_to_vertex (eval_dnf vs tr) in
  let self :=
    {| precision_bscore.ctable := sample_two_rows;
       precision_bscore.ctable_usize := uncompressed_size sample_two_rows;
       precision_bscore.min_activation := Fin (1 / 2);
       precision_bscore.max_activation := Fin 1;
       precision_bscore.penalty := Fin 1;
       precision_bscore.positive := true;
       precision_bscore.worst_norm := false;
       precision_bscore.output_type := boolean_type;
       precision_bscore.sum_outputs := sum_outputs_boolean logical_true;
       precision_bscore.max_output := Fin 1;
       precision_bscore.occam := false;
       precision_bscore.complexity_coef := Fin 0 |} in
  let A := Rounded.arith sample_round in
  exists tr st,
    Rounded.gen_canonical_best_candidate sample_round self = Some tr
    /\ precision_bscore.active_rows eval_binding self tr = Some st
    /\ Arith.leb A (Arith.mul A (Arith.of_unsigned A
                                   (precision_bscore.ctable_usize self))
                                (precision_bscore.min_activation self))
                   (Arith.of_unsigned A (precision_bscore.active st)) = true
    /\ (sample_round (IZR (precision_bscore.ctable_usize self))
        = Fin (IZR (precision_bscore.ctable_usize self)) ->
        sample_round (IZR (precision_bscore.ctable_usize self) * (1 / 2))%R
        = Fin (IZR (precision_bscore.ctable_usize self) * (1 / 2))%R ->
        sample_round (IZR (precision_bscore.active st))
        = Fin (IZR (precision_bscore.active st)) ->
        (IZR (precision_bscore.ctable_usize self) * (1 / 2)
         <= IZR (precision_bscore.active st))%R
        /\ ((0 < precision_bscore.ctable_usize self)%Z ->
            (1 / 2 <= IZR (precision_bscore.active st)
                      / IZR (precision_bscore.ctable_usize self))%R)).
Proof.
  intros eval_binding self.
  apply (@C7_canonical_candidate_activation NInf eval_binding sample_round
           sample_two_rows 1%R (1 / 2)%R 1%R true false self).
  - exact sample_round_rounding.
  - exact sample_precision_make.
  - lra.
  - lra.
  - discriminate.
  - exact sample_two_rows_distinct.
  - exact sample_two_rows_boolean.
  - intros vs tr _. reflexivity.
Defined.

(** C7, as the specification states it, fails in two ways.  Over the
    table of one row whose input is the contin 1, with a minimum
    activation of [1/2], the candidate is [or(and(!$1))], which is true
    on no row: [active] is 0, below [ctable_usize * min_activation = 1/2];
    this in exact arithmetic, in binary64 and in binary32.  And over a
    table of boolean inputs of size 3, with the minimum activation next
    above [1/3], in binary64 and in binary32: the product
    [ctable_usize * min_activation] is rounded to 1, the loop is left at
    the first row, and the candidate [or(and($1))] is true on one row of
    three, fewer than [ctable_usize * min_activation]. *)
Lemma C7_canonical_candidate_activation_counterexample :
  let eval_binding := fun vs tr => bool_to_vertex (eval_dnf vs tr) in
  let negated := Node logical_or [Node logical_and [Node (argument (-1)) []]] in
  let first := Node logical_or [Node logical_and [Node (argument 1) []]] in
  (exists self st,
     precision_bscore.make NInf sample_contin_input (Fin 1) (Fin (1 / 2)) (Fin 1)
                           true false = Some self
     /\ precision_bscore.gen_canonical_best_candidate self = Some negated
     /\ precision_bscore.active_rows eval_binding self negated = Some st
     /\ precision_bscore.active st = 0%Z
     /\ precision_bscore.ctable_usize self = 1%Z
     /\ Score.lt (Score.of_Z (precision_bscore.active st))
                 (Score.mul (Score.of_Z (precision_bscore.ctable_usize self))
                            (precision_bscore.min_activation self)))
  /\ (in_arith.gen_canonical_best_candidate Binary.binary64
        (in_arith.sum_outputs_boolean Binary.binary64 logical_true)
        sample_contin_input (uncompressed_size sample_contin_input)
        (Binary.literal 53 1024 1 (-1)) = Some negated
      /\ Zsum (map (active_total eval_binding negated) (rows sample_contin_input))
         = 0%Z
      /\ in_arith.gen_canonical_best_candidate Binary.binary64
           (in_arith.sum_outputs_boolean Binary.binary64 logical_true)
           sample_three (uncompressed_size sample_three) sample_third64
         = Some first
      /\ uncompressed_size sample_three = 3%Z
      /\ Zsum (map (active_total eval_binding first) (rows sample_three)) = 1%Z
      /\ (1 < 3 * Binary.value sample_third64)%Q
      /\ SpecFloat.SFltb (Arith.zero Binary.binary64) sample_third64 = true
      /\ SpecFloat.SFleb sample_third64 (Arith.one Binary.binary64) = true)
  /\ (in_arith.gen_canonical_best_candidate Binary.binary32
        (in_arith.sum_outputs_boolean Binary.binary32 logical_true)
        sample_contin_input (uncompressed_size sample_contin_input)
        (Binary.literal 24 128 1 (-1)) = Some negated
      /\ in_arith.gen_canonical_best_candidate Binary.binary32
           (in_arith.sum_outputs_boolean Binary.binary32 logical_true)
           sample_three (uncompressed_size sample_three) sample_third32
         = Some first
      /\ (1 < 3 * Binary.value sample_third32)%Q
      /\ SpecFloat.SFltb (Arith.zero Binary.binary32) sample_third32 = true
      /\ SpecFloat.SFleb sample_third32 (Arith.one Binary.binary32) = true).
Proof.
  cbv zeta. split; [| split; repeat split; vm_compute; reflexivity].
  eexists. eexists. split.
  { unfold precision_bscore.make. cbn [tt_output sample_contin_input
      precision_bscore.make_sum_outputs obind bool_to_vertex].
    rewrite (proj2 (ScoreFacts.ltb_Fin 0 1)) by lra.
    rewrite (proj2 (ScoreFacts.ltb_Fin 0 (1 / 2))) by lra.
    rewrite (proj2 (ScoreFacts.leb_Fin (1 / 2) 1)) by lra.
    reflexivity. }
  assert (Htest : Score.leb (Score.mul (Score.of_Z 1) (Fin (1 / 2))) (Score.of_Z 1)
                  = true).
  { unfold Score.of_Z. cbn [Score.mul]. apply ScoreFacts.leb_Fin. lra. }
  split.
  { unfold precision_bscore.gen_canonical_best_candidate,
      precision_bscore.precision_to_count.
    cbn [precision_bscore.ctable precision_bscore.sum_outputs rows
         sample_contin_input fold_left obind sum_outputs_boolean snd fst
         Multimap.insert rev app precision_bscore.clauses_loop
         precision_bscore.ctable_usize precision_bscore.min_activation].
    change (uncompressed_size sample_contin_input) with 1%Z.
    change (Unsigned.add 0 (Counter.total_count [(logical_true, 1%Z)])) with 1%Z.
    rewrite Htest. reflexivity. }
  split; [reflexivity |]. split; [reflexivity |]. split; [reflexivity |].
  cbn [precision_bscore.active precision_bscore.ctable_usize
       precision_bscore.min_activation].
  change (uncompressed_size sample_contin_input) with 1%Z.
  unfold Score.lt, Score.of_Z. cbn [Score.mul]. apply ScoreFacts.ltb_Fin. lra.
Qed.

(* ================================================================== *)
(** * Further properties of the scorers *)

(** The names of the types of rows and counters are unfolded before
    linear arithmetic, which compares terms as they are written. *)
Ltac unalias := unfold precision_bscore.row_t, counter_t, Counter.t in *.

(** ** contin_bscore::set_complexity_coef *)

Section ContinComplexityCoef.

Local Open Scope R_scope.

(** X1: [contin_bscore::set_complexity_coef] enables the Occam penalty
    exactly for a positive [stdev], with the coefficient
    [log(alphabet_size) * 2 * stdev^2]; the coefficient is positive for
    an alphabet of at least 2 symbols, but for an alphabet of 1 symbol
    the penalty is enabled with the coefficient 0. *)
Theorem X1_contin_set_complexity_coef (self : bscore_base.t)
    (alphabet_size : Z) (stdev : R) :
  (1 <= alphabet_size)%Z ->
  let self' := contin_bscore.set_complexity_coef self alphabet_size (Fin stdev) in
  (0 < stdev ->
     bscore_base.occam self' = true
     /\ bscore_base.complexity_coef self'
        = Fin (ln (IZR alphabet_size) * 2 * (stdev * stdev))
     /\ ((2 <= alphabet_size)%Z ->
         0 < ln (IZR alphabet_size) * 2 * (stdev * stdev))
     /\ (alphabet_size = 1%Z -> bscore_base.complexity_coef self' = Fin 0))
  /\ (stdev <= 0 ->
        bscore_base.occam self' = false
        /\ bscore_base.complexity_coef self' = Fin 0).
Proof.
  intros Ha self'. unfold self', contin_bscore.set_complexity_coef.
  cbn [bscore_base.occam bscore_base.complexity_coef]. split.
  - intros Hs. rewrite (proj2 (ScoreFacts.ltb_Fin 0 stdev)) by exact Hs.
    assert (Hpos : 0 < IZR alphabet_size) by (apply (IZR_lt 0); lia).
    assert (Hv : bscore_base.contin_complexity_coef alphabet_size (Fin stdev)
                 = Fin (ln (IZR alphabet_size) * 2 * (stdev * stdev))).
    { unfold bscore_base.contin_complexity_coef, Score.of_Z.
      rewrite ScoreFacts.log_pos by exact Hpos. reflexivity. }
    repeat apply conj; trivial.
    + intros H2.
      assert (0 < ln (IZR alphabet_size))
        by (apply ln_pos_gt_1; apply (IZR_lt 1); lia).
      assert (0 < stdev * stdev) by nra. nra.
    + intros ->. rewrite Hv. f_equal. rewrite ln_1. lra.
  - intros Hs. rewrite (proj2 (ScoreFacts.ltb_Fin_false 0 stdev)) by lra.
    now split.
Qed.

End ContinComplexityCoef.

Lemma X1_contin_set_complexity_coef_witness :
  let self := {| bscore_base.occam := false; bscore_base.complexity_coef := Fin 0 |} in
  (bscore_base.occam (contin_bscore.set_complexity_coef self 1 (Fin 2)) = true
   /\ bscore_base.complexity_coef (contin_bscore.set_complexity_coef self 1 (Fin 2))
      = Fin 0)
  /\ bscore_base.occam (contin_bscore.set_complexity_coef self 2 (Fin 0)) = false.
Proof.
  intros self. split.
  - destruct (proj1 (@X1_contin_set_complexity_coef self 1%Z 2%R ltac:(lia))
                ltac:(lra)) as [Ho [_ [_ H1]]].
    split; [exact Ho | now apply H1].
  - exact (proj1 (proj2 (@X1_contin_set_complexity_coef self 2%Z 0%R ltac:(lia))
                    ltac:(lra))).
Defined.

(** ** Counts of a row *)

Section RowCounts.

Local Open Scope Z_scope.

Variable c : counter_t.
Hypothesis Hcounts : forall kv, In kv c -> 0 <= snd kv.

Lemma counter_get_bounds (v : vertex) :
  0 <= counter_get c v <= count_sum c.
Proof.
  unfold counter_get, count_sum. revert Hcounts.
  induction c as [| [k n] c' IH]; intros Hc; simpl; [lia |].
  assert (Hn : 0 <= n) by (apply (Hc (k, n)); now left).
  assert (Hc' : forall kv, In kv c' -> 0 <= snd kv)
    by (intros kv Hkv; apply Hc; now right).
  assert (Hs : 0 <= Zsum (map snd c')).
  { apply Zsum_nonneg. intros x Hx. apply in_map_iff in Hx.
    destruct Hx as [kv [<- Hkv]]. now apply Hc'. }
  specialize (IH Hc').
  destruct (vertex_eqb k v); lia.
Qed.

Lemma fold_most_bounds (m : Z) (l : counter_t) :
  (forall kv, In kv l -> 0 <= snd kv) -> 0 <= m ->
  let most := fold_left (fun most it => if most <? snd it then snd it else most) l m in
  m <= most
  /\ (forall kv, In kv l -> snd kv <= most)
  /\ most <= m + Zsum (map snd l).
Proof.
  revert m. induction l as [| it l IH]; intros m Hl Hm; simpl.
  - repeat apply conj; try lia; intros kv [].
  - assert (Hit : 0 <= snd it) by (apply Hl; now left).
    assert (Hl' : forall kv, In kv l -> 0 <= snd kv)
      by (intros kv Hkv; apply Hl; now right).
    destruct (Z.ltb_spec m (snd it)) as [Hlt | Hge].
    + destruct (IH (snd it) Hl' Hit) as [H1 [H2 H3]].
      repeat apply conj; try lia.
      intros kv [<- | Hkv]; [lia | now apply H2].
    + destruct (IH m Hl' Hm) as [H1 [H2 H3]].
      repeat apply conj; try lia.
      intros kv [<- | Hkv]; [lia | now apply H2].
Qed.

Lemma counter_get_le_bound (l : counter_t) (v : vertex) (M : Z) :
  0 <= M -> (forall kv, In kv l -> snd kv <= M) -> counter_get l v <= M.
Proof.
  intros HM. unfold counter_get.
  induction l as [| [k n] l IH]; intros Hall; simpl; [exact HM |].
  destruct (vertex_eqb k v).
  - apply (Hall (k, n)). now left.
  - apply IH. intros kv Hkv. apply Hall. now right.
Qed.

Lemma counter_get_le_most (v : vertex) :
  counter_get c v <= enum_table_bscore.most_of c.
Proof.
  destruct (@fold_most_bounds 0 c Hcounts (Z.le_refl 0)) as [H0 [Hall _]].
  now apply counter_get_le_bound.
Qed.

Lemma most_of_le_count_sum :
  0 <= enum_table_bscore.most_of c <= count_sum c.
Proof.
  destruct (@fold_most_bounds 0 c Hcounts (Z.le_refl 0)) as [H0 [_ Hle]].
  fold (enum_table_bscore.most_of c) in H0, Hle. unfold count_sum. lia.
Qed.

End RowCounts.

(** ** enum_table_bscore::operator() *)

Section EnumTableOperator.

Variable eval_binding : vertex_seq -> combo_tree -> vertex.


End EnumTableOperator.


(** ** ctruth_table_bscore *)

Section CTruthTable.

Variable eval_binding : vertex_seq -> combo_tree -> vertex.
Variable tree_complexity : combo_tree -> Z.
Variable negate_vertex : vertex -> vertex.

Lemma ctruth_row_le (tr : combo_tree) (vct : vertex_seq * counter_t) :
  negate_vertex logical_true = logical_false ->
  negate_vertex logical_false = logical_true ->
  eval_binding (fst vct) tr = logical_true
  \/ eval_binding (fst vct) tr = logical_false ->
  Score.le (ctruth_table_bscore.operator_row eval_binding negate_vertex tr vct)
           (ctruth_table_bscore.best_possible_row (snd vct)).
Proof.
  intros HT HF Hv.
  unfold ctruth_table_bscore.operator_row, ctruth_table_bscore.best_possible_row,
    Score.of_Z, Score.le.
  cbn [Score.neg]. apply ScoreFacts.leb_Fin. apply Ropp_le_contravar, IZR_le.
  destruct Hv as [-> | ->]; [rewrite HT | rewrite HF]; lia.
Qed.

(** X3: when the candidate is boolean on every row (and [negate_vertex]
    exchanges the two truth values), every component of
    [ctruth_table_bscore::operator()] is at most the component of the
    same row in [best_possible_bscore()], and equals it on every row
    where the answer of the candidate is at least as frequent as its
    negation. *)
Theorem X3_ctruth_table_best_possible (self : ctruth_table_bscore.t)
    (tr : combo_tree) :
  negate_vertex logical_true = logical_false ->
  negate_vertex logical_false = logical_true ->
  (forall vct, In vct (rows (ctruth_table_bscore.ctable self)) ->
     eval_binding (fst vct) tr = logical_true
     \/ eval_binding (fst vct) tr = logical_false) ->
  Forall2 Score.le
    (fst (ctruth_table_bscore.operator eval_binding tree_complexity
                                       negate_vertex self tr))
    (ctruth_table_bscore.best_possible_bscore self)
  /\ forall vct, In vct (rows (ctruth_table_bscore.ctable self)) ->
       (counter_get (snd vct) (negate_vertex (eval_binding (fst vct) tr))
        <= counter_get (snd vct) (eval_binding (fst vct) tr))%Z ->
       ctruth_table_bscore.operator_row eval_binding negate_vertex tr vct
       = ctruth_table_bscore.best_possible_row (snd vct).
Proof.
  intros HT HF Hbool. split.
  - unfold ctruth_table_bscore.operator, ctruth_table_bscore.best_possible_bscore.
    cbn [fst].
    induction (rows (ctruth_table_bscore.ctable self)) as [| vct l IH]; simpl.
    + constructor.
    + constructor.
      * apply ctruth_row_le; trivial. apply Hbool. now left.
      * apply IH. intros v Hv. apply Hbool. now right.
  - intros vct Hin Hfreq.
    unfold ctruth_table_bscore.operator_row, ctruth_table_bscore.best_possible_row.
    do 2 f_equal.
    destruct (Hbool vct Hin) as [E | E]; rewrite E in *;
      [rewrite HT in * | rewrite HF in *]; lia.
Qed.
End CTruthTable.

Lemma X3_ctruth_table_best_possible_witness :
  let eval_binding := fun (_ : vertex_seq) (_ : combo_tree) => logical_false in
  let tr := Node logical_false [] in
  Forall2 Score.le
    (fst (ctruth_table_bscore.operator eval_binding (fun _ => 1%Z)
            sample_negate sample_ctruth tr))
    (ctruth_table_bscore.best_possible_bscore sample_ctruth)
  /\ forall vct, In vct (rows (ctruth_table_bscore.ctable sample_ctruth)) ->
       (counter_get (snd vct) (sample_negate (eval_binding (fst vct) tr))
        <= counter_get (snd vct) (eval_binding (fst vct) tr))%Z ->
       ctruth_table_bscore.operator_row eval_binding sample_negate tr vct
       = ctruth_table_bscore.best_possible_row (snd vct).
Proof.
  intros eval_binding tr.
  apply (@X3_ctruth_table_best_possible eval_binding (fun _ => 1%Z)
           sample_negate sample_ctruth tr).
  - reflexivity.
  - reflexivity.
  - intros vct _. right. reflexivity.
Defined.

(** ** logical_bscore *)

Section LogicalScore.

Variable complete_truth_table : combo_tree -> nat -> list bool.
Variable tree_complexity : combo_tree -> Z.

Lemma mismatch_values (b1 b2 : bool) :
  (b1 = b2 /\ logical_bscore.mismatch b1 b2 = Fin 0)
  \/ (b1 <> b2 /\ logical_bscore.mismatch b1 b2 = Fin (-1)).
Proof.
  unfold logical_bscore.mismatch, Score.of_Z.
  destruct b1, b2; cbn [xorb Score.neg];
    ((left; split; [reflexivity | f_equal; lra])
     || (right; split; [discriminate | f_equal; lra])).
Qed.

Lemma mismatches_zero (tt target : list bool) :
  List.length tt = List.length target ->
  map (fun bb => logical_bscore.mismatch (fst bb) (snd bb)) (combine tt target)
  = repeat (Fin 0) (List.length target)
  <-> tt = target.
Proof.
  revert target. induction tt as [| b tt IH]; intros [| b' target] Hlen;
    try discriminate; simpl.
  - split; reflexivity.
  - injection Hlen as Hlen. specialize (IH target Hlen).
    destruct (mismatch_values b b') as [[-> E] | [Hne E]]; rewrite E; split.
    + intros H. injection H as H. f_equal. now apply IH.
    + intros H. injection H as H. f_equal. now apply IH.
    + intros H. injection H as H _. lra.
    + intros H. injection H as H _. contradiction.
Qed.

(** X4: for a candidate whose truth table has the size of the target,
    the score [logical_bscore::operator()] returns has one component for
    each entry of the target, each 0 or -1, and it is
    [best_possible_bscore()] exactly when the truth table of the
    candidate is the target. *)
Theorem X4_logical_bscore_operator (self : logical_bscore.t) (tr : combo_tree) :
  List.length (complete_truth_table tr (logical_bscore.arity self))
  = List.length (logical_bscore.target self) ->
  let bs := fst (logical_bscore.operator complete_truth_table tree_complexity
                                         self tr) in
  List.length bs = List.length (logical_bscore.target self)
  /\ (forall x, In x bs -> x = Fin 0 \/ x = Fin (-1))
  /\ (bs = logical_bscore.best_possible_bscore self
      <-> complete_truth_table tr (logical_bscore.arity self)
          = logical_bscore.target self).
Proof.
  intros Hlen bs.
  assert (Hbs : bs = map (fun bb => logical_bscore.mismatch (fst bb) (snd bb))
                         (combine (complete_truth_table tr (logical_bscore.arity self))
                                  (logical_bscore.target self))).
  { unfold bs, logical_bscore.operator. cbn [fst].
    rewrite length_map, length_combine, Hlen, Nat.min_id, Nat.sub_diag.
    apply app_nil_r. }
  repeat apply conj.
  - rewrite Hbs, length_map, length_combine, Hlen. apply Nat.min_id.
  - rewrite Hbs. intros x Hx. apply in_map_iff in Hx.
    destruct Hx as [[b1 b2] [<- _]]. cbn [fst snd].
    destruct (mismatch_values b1 b2) as [[_ E] | [_ E]]; rewrite E; auto.
  - rewrite Hbs. intros H. now apply mismatches_zero.
  - rewrite Hbs. intros H. now apply mismatches_zero.
Qed.

End LogicalScore.

Lemma X4_logical_bscore_operator_witness :
  let bs := fst (logical_bscore.operator (fun _ _ => [true; false])
                   (fun _ => 1%Z) sample_logical (Node logical_true [])) in
  List.length bs = 2%nat
  /\ (forall x, In x bs -> x = Fin 0 \/ x = Fin (-1))
  /\ (bs = logical_bscore.best_possible_bscore sample_logical
      <-> [true; false] = [true; true]).
Proof.
  exact (@X4_logical_bscore_operator (fun _ _ => [true; false]) (fun _ => 1%Z)
           sample_logical (Node logical_true []) eq_refl).
Defined.

(** ** precision_bscore::get_activation_penalty *)

(** X11: with [0 < min_activation <= max_activation <= 1] and a positive
    penalty coefficient, [precision_bscore::get_activation_penalty] is 0
    at every activation of the band [[min_activation, max_activation]],
    is never positive at an activation of [[0, 1]], and does not
    increase as the activation moves away from the band, on either side:
    whatever the rounding of the operations, provided it is monotone and
    leaves 0 and 1 as they are, that [1 - max_activation] is not rounded
    to 0, and that the logarithm of libm is monotone and 0 at 1. *)
Theorem X11_get_activation_penalty (round : R -> score_t)
    (log : score_t -> score_t) (self : precision_bscore.t)
    (min_activation max_activation penalty : R) :
  Rounded.rounding round -> Rounded.logarithm log ->
  Rounded.gradual round max_activation ->
  precision_bscore.min_activation self = Fin min_activation ->
  precision_bscore.max_activation self = Fin max_activation ->
  precision_bscore.penalty self = Fin penalty ->
  (0 < min_activation <= max_activation)%R -> (max_activation <= 1)%R ->
  (0 < penalty)%R ->
  let activation_penalty := Rounded.get_activation_penalty round log self in
  (forall activation, (min_activation <= activation <= max_activation)%R ->
     activation_penalty (Fin activation) = Fin 0)
  /\ (forall activation, (0 <= activation <= 1)%R ->
        Score.le (activation_penalty (Fin activation)) (Fin 0))
  /\ (forall a1 a2, (0 <= a1)%R -> (a1 <= a2)%R -> (a2 < min_activation)%R ->
        Score.le (activation_penalty (Fin a1)) (activation_penalty (Fin a2)))
  /\ (forall a1 a2, (max_activation < a1)%R -> (a1 <= a2)%R -> (a2 <= 1)%R ->
        Score.le (activation_penalty (Fin a2)) (activation_penalty (Fin a1))).
Proof.
  intros Hround Hlog Hgradual Hmin Hmax Hpen Hband H1 Hp activation_penalty.
  unfold activation_penalty, Rounded.get_activation_penalty.
  rewrite Hmin, Hmax, Hpen.
  exact (RoundedFacts.penalty_of_distance Hround Hlog Hband Hp Hgradual).
Qed.

Lemma X11_get_activation_penalty_witness :
  let self := sample_precision sample_boolean_table in
  let activation_penalty :=
    Rounded.get_activation_penalty sample_round sample_log self in
  (forall activation, (1 / 2 <= activation <= 1)%R ->
     activation_penalty (Fin activation) = Fin 0)
  /\ (forall activation, (0 <= activation <= 1)%R ->
        Score.le (activation_penalty (Fin activation)) (Fin 0))
  /\ (forall a1 a2, (0 <= a1)%R -> (a1 <= a2)%R -> (a2 < 1 / 2)%R ->
        Score.le (activation_penalty (Fin a1)) (activation_penalty (Fin a2)))
  /\ (forall a1 a2, (1 < a1)%R -> (a1 <= a2)%R -> (a2 <= 1)%R ->
        Score.le (activation_penalty (Fin a2)) (activation_penalty (Fin a1))).
Proof.
  intros self.
  apply (@X11_get_activation_penalty sample_round sample_log self (1 / 2) 1 1);
    try reflexivity; try lra.
  - exact sample_round_rounding.
  - exact sample_log_logarithm.
  - apply sample_round_gradual.
Defined.

Lemma exactly_counted_representable (ct : CTable) :
  exactly_counted ct -> representable ct.
Proof.
  intros [Hc Hlt]. split; [exact Hc |].
  unfold Unsigned.modulus.
  change (2 ^ 24)%Z with 16777216%Z in Hlt.
  change (2 ^ 32)%Z with 4294967296%Z. lia.
Qed.

(** ** discriminator: the counts and the totals *)

Section DiscriminatorCounts.

Local Open Scope Z_scope.

Lemma of_Z_add (a b : Z) :
  Score.add (Score.of_Z a) (Score.of_Z b) = Score.of_Z (a + b).
Proof. unfold Score.of_Z. cbn [Score.add]. now rewrite plus_IZR. Qed.

Lemma of_Z_sub (a b : Z) :
  Score.sub (Score.of_Z a) (Score.of_Z b) = Score.of_Z (a - b).
Proof.
  unfold Score.of_Z, Score.sub. cbn [Score.neg Score.add].
  now rewrite minus_IZR.
Qed.

Variable eval_binding : vertex_seq -> combo_tree -> vertex.

(** One iteration of the loop of [count] over a table of boolean
    outputs, from integer counts: the count of an active row goes to the
    positive side, that of another row to the negative side. *)
Lemma count_row_integers (self : discriminating_bscore.t) (tr : combo_tree)
    (vct : vertex_seq * counter_t) (tp fp tn fn : Z) :
  discriminating_bscore.sum_outputs self = sum_outputs_boolean logical_true ->
  discriminating_bscore._output_type self = boolean_type ->
  let g := counter_get (snd vct) logical_true in
  let t := Counter.total_count (snd vct) in
  discriminating_bscore.count_row eval_binding self tr
    (integer_counts tp fp tn fn) vct
  = Some (if vertex_eqb (eval_binding (fst vct) tr) logical_true
          then integer_counts (tp + g) (fp + (t - g)) tn fn
          else integer_counts tp fp (tn + (t - g)) (fn + g)).
Proof.
  intros Hso Hty g t.
  unfold discriminating_bscore.count_row, integer_counts.
  rewrite Hso, Hty. unfold sum_outputs_boolean. cbn [obind].
  unfold discriminating_bscore.row_sum_neg.
  cbn [discriminating_bscore.is_boolean
       discriminating_bscore.true_positive_sum
       discriminating_bscore.false_positive_sum
       discriminating_bscore.positive_count
       discriminating_bscore.true_negative_sum
       discriminating_bscore.false_negative_sum
       discriminating_bscore.negative_count].
  fold g. fold t. rewrite of_Z_sub, !of_Z_add.
  destruct (vertex_eqb (eval_binding (fst vct) tr) logical_true);
    do 2 f_equal; f_equal; lia.
Qed.

(** The loop of [count] over a table of boolean outputs keeps integer
    counts, none negative. *)
Lemma count_integers (self : discriminating_bscore.t) (tr : combo_tree)
    (rows_ : list (vertex_seq * counter_t)) :
  discriminating_bscore.sum_outputs self = sum_outputs_boolean logical_true ->
  discriminating_bscore._output_type self = boolean_type ->
  (forall vct, In vct rows_ ->
     forall kv, In kv (snd vct) -> 0 <= snd kv) ->
  (forall vct, In vct rows_ -> count_sum (snd vct) < Unsigned.modulus) ->
  forall tp fp tn fn : Z,
  0 <= tp -> 0 <= fp -> 0 <= tn -> 0 <= fn ->
  exists tp' fp' tn' fn' : Z,
    (0 <= tp' /\ 0 <= fp' /\ 0 <= tn' /\ 0 <= fn')
    /\ fold_left (fun acc vct =>
                    c <- acc ;;
                    discriminating_bscore.count_row eval_binding self tr c vct)
                 rows_ (Some (integer_counts tp fp tn fn))
       = Some (integer_counts tp' fp' tn' fn')
    /\ tp' + fn'
       = tp + fn + Zsum (map (fun vct : vertex_seq * counter_t =>
                                counter_get (snd vct) logical_true) rows_)
    /\ fp' + tn'
       = fp + tn + Zsum (map (fun vct : vertex_seq * counter_t =>
                                Counter.total_count (snd vct)
                                - counter_get (snd vct) logical_true) rows_).
Proof.
  intros Hso Hty.
  induction rows_ as [| vct rows_ IH]; intros Hc Hlt tp fp tn fn Htp Hfp Htn Hfn.
  - exists tp, fp, tn, fn. simpl. repeat apply conj; trivial; lia.
  - assert (Hc' : forall v, In v rows_ -> forall kv, In kv (snd v) -> 0 <= snd kv)
      by (intros v Hv; apply Hc; now right).
    assert (Hlt' : forall v, In v rows_ -> count_sum (snd v) < Unsigned.modulus)
      by (intros v Hv; apply Hlt; now right).
    pose proof (@counter_get_bounds (snd vct) (Hc vct (or_introl eq_refl))
                  logical_true) as Hget.
    pose proof (total_count_exact (snd vct) (Hc vct (or_introl eq_refl))
                  (Hlt vct (or_introl eq_refl))) as Etot.
    cbn [fold_left obind].
    rewrite (@count_row_integers self tr vct tp fp tn fn Hso Hty).
    rewrite map_cons, Zsum_cons, map_cons, Zsum_cons.
    set (g := counter_get (snd vct) logical_true) in *.
    set (t := Counter.total_count (snd vct)) in *.
    destruct (vertex_eqb (eval_binding (fst vct) tr) logical_true).
    + destruct (IH Hc' Hlt' (tp + g) (fp + (t - g)) tn fn)
        as [tp' [fp' [tn' [fn' [Hpos [E [Hp Hn]]]]]]]; try lia.
      exists tp', fp', tn', fn'. split; [exact Hpos |].
      split; [exact E | lia].
    + destruct (IH Hc' Hlt' tp fp (tn + (t - g)) (fn + g))
        as [tp' [fp' [tn' [fn' [Hpos [E [Hp Hn]]]]]]]; try lia.
      exists tp', fp', tn', fn'. split; [exact Hpos |].
      split; [exact E | lia].
Qed.

(** The totals of the constructor over a table of boolean outputs. *)
Lemma totals_integers (ct_rows : list (vertex_seq * counter_t)) (p n : Z) :
  fold_left
    (fun acc vct =>
       tot <- acc ;;
       sum_pos <- sum_outputs_boolean logical_true (snd vct) ;;
       let totalc := Counter.total_count (snd vct) in
       let sum_neg :=
         discriminating_bscore.row_sum_neg boolean_type totalc sum_pos in
       Some (Score.add (fst tot) sum_pos, Score.add (snd tot) sum_neg))
    ct_rows (Some (Score.of_Z p, Score.of_Z n))
  = Some (Score.of_Z
            (p + Zsum (map (fun vct : vertex_seq * counter_t =>
                              counter_get (snd vct) logical_true) ct_rows)),
          Score.of_Z
            (n + Zsum (map (fun vct : vertex_seq * counter_t =>
                              Counter.total_count (snd vct)
                              - counter_get (snd vct) logical_true) ct_rows))).
Proof.
  revert p n. induction ct_rows as [| vct l IH]; intros p n.
  - simpl. now rewrite !Z.add_0_r.
  - cbn [fold_left obind fst snd].
    change (sum_outputs_boolean logical_true (snd vct))
      with (Some (Score.of_Z (counter_get (snd vct) logical_true))).
    cbn [obind]. unfold discriminating_bscore.row_sum_neg at 2.
    cbn [discriminating_bscore.is_boolean].
    rewrite of_Z_sub, !of_Z_add, IH, !map_cons, !Zsum_cons.
    do 2 f_equal; f_equal; lia.
Qed.

Variable worst_score : score_t.

Lemma constructed_boolean (ct : CTable)
    (min_threshold max_threshold hardness : score_t)
    (self : discriminating_bscore.t) :
  discriminating_bscore.make worst_score ct min_threshold max_threshold hardness
  = Some self ->
  tt_output ct = boolean_type ->
  discriminating_bscore._ctable self = ct
  /\ discriminating_bscore.sum_outputs self = sum_outputs_boolean logical_true
  /\ discriminating_bscore._output_type self = boolean_type
  /\ discriminating_bscore.occam self = false
  /\ discriminating_bscore._positive_total self
     = Score.of_Z (Zsum (map (fun vct : vertex_seq * counter_t =>
                                counter_get (snd vct) logical_true) (rows ct)))
  /\ discriminating_bscore._negative_total self
     = Score.of_Z (Zsum (map (fun vct : vertex_seq * counter_t =>
                                Counter.total_count (snd vct)
                                - counter_get (snd vct) logical_true) (rows ct))).
Proof.
  unfold discriminating_bscore.make. intros H Hty. rewrite Hty in H.
  cbn [discriminating_bscore.discriminator_sum_outputs obind] in H.
  assert (Htot :
    discriminating_bscore.discriminator_totals boolean_type
      (sum_outputs_boolean logical_true) ct
    = Some (Score.of_Z (Zsum (map (fun vct : vertex_seq * counter_t =>
                                     counter_get (snd vct) logical_true)
                                  (rows ct))),
            Score.of_Z (Zsum (map (fun vct : vertex_seq * counter_t =>
                                     Counter.total_count (snd vct)
                                     - counter_get (snd vct) logical_true)
                                  (rows ct)))))
    by exact (totals_integers (rows ct) 0 0).
  rewrite Htot in H. cbn [obind fst snd] in H.
  destruct (negb _); [discriminate |].
  cbn [discriminating_bscore.is_boolean obind fst snd] in H.
  injection H as <-. cbn. repeat apply conj; reflexivity.
Qed.

(** The counts of a candidate for a scorer built by the constructor over
    a table of boolean outputs. *)
Lemma constructed_boolean_counts (ct : CTable)
    (min_threshold max_threshold hardness : score_t)
    (self : discriminating_bscore.t) (tr : combo_tree) :
  discriminating_bscore.make worst_score ct min_threshold max_threshold hardness
  = Some self ->
  tt_output ct = boolean_type ->
  exactly_counted ct ->
  exists tp fp tn fn : Z,
    (0 <= tp /\ 0 <= fp /\ 0 <= tn /\ 0 <= fn)
    /\ discriminating_bscore.count eval_binding self tr
       = Some (integer_counts tp fp tn fn)
    /\ discriminating_bscore._positive_total self = Score.of_Z (tp + fn)
    /\ discriminating_bscore._negative_total self = Score.of_Z (fp + tn)
    /\ tp + fp + tn + fn = exact_size ct.
Proof.
  intros Hmake Hty Hsmall.
  pose proof (exactly_counted_representable Hsmall) as Hrep.
  destruct (constructed_boolean _ _ _ _ Hmake Hty)
    as [Hct [Hso [Hot [_ [Hp Hn]]]]].
  destruct (@count_integers self tr (rows ct) Hso Hot (proj1 Hrep))
    with (tp := 0) (fp := 0) (tn := 0) (fn := 0)
    as [tp [fp [tn [fn [Hpos [E [Hp' Hn']]]]]]]; try lia.
  { intros vct Hin. pose proof (row_count_sum_bounds Hrep vct Hin).
    destruct Hrep. lia. }
  exists tp, fp, tn, fn. split; [exact Hpos |]. repeat apply conj.
  - unfold discriminating_bscore.count. rewrite Hct. exact E.
  - rewrite Hp. f_equal. lia.
  - rewrite Hn. f_equal. lia.
  - rewrite <- (totals_sum_exact Hrep).
    assert (Hsum : forall l : list (vertex_seq * counter_t),
              Zsum (map (fun vct => counter_get (snd vct) logical_true) l)
              + Zsum (map (fun vct => Counter.total_count (snd vct)
                                      - counter_get (snd vct) logical_true) l)
              = Zsum (map (fun vct => Counter.total_count (snd vct)) l)).
    { induction l as [| v l IHl]; [reflexivity |].
      rewrite !map_cons, !Zsum_cons. cbn beta. unalias. lia. }
    specialize (Hsum (rows ct)). unalias. lia.
Qed.

(** X5: for a discriminating scorer built by its constructor over a
    table of boolean outputs whose counts add up to less than [2^24],
    and for every candidate, [count] returns integer counts, none
    negative, that split the totals of the constructor: the true
    positives and the false negatives add up to [_positive_total], the
    false positives and the true negatives to [_negative_total], and
    the two row counts, each the sum of its side, to the number of rows
    the table stands for.  (The counts being integers below [2^24],
    the floating-point sums of the program are exact.) *)
Theorem X5_count_splits_totals (ct : CTable)
    (min_threshold max_threshold hardness : score_t)
    (self : discriminating_bscore.t) (tr : combo_tree) :
  discriminating_bscore.make worst_score ct min_threshold max_threshold hardness
  = Some self ->
  tt_output ct = boolean_type ->
  exactly_counted ct ->
  exists tp fp tn fn : Z,
    (0 <= tp /\ 0 <= fp /\ 0 <= tn /\ 0 <= fn)
    /\ discriminating_bscore.count eval_binding self tr
       = Some (integer_counts tp fp tn fn)
    /\ discriminating_bscore._positive_total self = Score.of_Z (tp + fn)
    /\ discriminating_bscore._negative_total self = Score.of_Z (fp + tn)
    /\ tp + fp + tn + fn = exact_size ct.
Proof. apply constructed_boolean_counts. Qed.

Variable tree_complexity : combo_tree -> Z.

(** X17: for a discriminating scorer built by its constructor over a
    table of boolean outputs whose counts add up to less than [2^24]
    and whose [_positive_total] is not 0, the recall both scorers
    compute for a candidate is the quotient of its true positive sum, an
    integer between 0 and [_positive_total], by [_positive_total],
    whatever the candidate: [recall_bscore::operator()] returns it first
    and [prerec_bscore::operator()] returns its threshold penalty
    second, both with a complexity penalty of 0, the constructor
    leaving the Occam's razor disabled. *)
Theorem X17_recall_over_positive_total (ct : CTable)
    (min_threshold max_threshold hardness : score_t)
    (self : discriminating_bscore.t) (tr : combo_tree) (p : Z) :
  discriminating_bscore.make worst_score ct min_threshold max_threshold hardness
  = Some self ->
  tt_output ct = boolean_type ->
  exactly_counted ct ->
  discriminating_bscore._positive_total self = Score.of_Z p ->
  p <> 0 ->
  exists (ctr : discriminating_bscore.d_counts) (tp : Z),
    0 <= tp <= p
    /\ discriminating_bscore.count eval_binding self tr = Some ctr
    /\ discriminating_bscore.true_positive_sum ctr = Score.of_Z tp
    /\ discriminating_bscore.recall_bscore_operator eval_binding tree_complexity
         self tr
       = Some ([Score.div (Score.of_Z tp) (Score.of_Z p);
                discriminating_bscore.get_threshold_penalty self
                  (discriminating_bscore.precision_of ctr)],
               Fin 0)
    /\ discriminating_bscore.prerec_bscore_operator eval_binding tree_complexity
         self tr
       = Some ([discriminating_bscore.precision_of ctr;
                discriminating_bscore.get_threshold_penalty self
                  (Score.div (Score.of_Z tp) (Score.of_Z p))],
               Fin 0).
Proof.
  intros Hmake Hty Hsmall Hp Hp0.
  destruct (constructed_boolean _ _ _ _ Hmake Hty) as [_ [_ [_ [Hocc _]]]].
  destruct (@constructed_boolean_counts ct _ _ _ self tr Hmake Hty Hsmall)
    as [tp [fp [tn [fn [[Htp [Hfp [Htn Hfn]]] [Hc [Hp' _]]]]]]].
  rewrite Hp in Hp'. unfold Score.of_Z in Hp'. injection Hp' as Hp'.
  apply eq_IZR in Hp'. subst p.
  assert (Hrec : discriminating_bscore.recall_of (integer_counts tp fp tn fn)
                 = Score.div (Score.of_Z tp) (Score.of_Z (tp + fn))).
  { unfold discriminating_bscore.recall_of, integer_counts.
    cbn [discriminating_bscore.true_positive_sum
         discriminating_bscore.false_negative_sum].
    now rewrite of_Z_add. }
  exists (integer_counts tp fp tn fn), tp. repeat apply conj.
  - exact Htp.
  - lia.
  - exact Hc.
  - reflexivity.
  - unfold discriminating_bscore.recall_bscore_operator,
      discriminating_bscore.complexity_penalty.
    rewrite Hc, Hocc. cbn [obind]. now rewrite Hrec.
  - unfold discriminating_bscore.prerec_bscore_operator,
      discriminating_bscore.complexity_penalty.
    rewrite Hc, Hocc. cbn [obind]. now rewrite Hrec.
Qed.

End DiscriminatorCounts.

Lemma sample_two_rows_counted : exactly_counted sample_two_rows.
Proof.
  split.
  - intros vct [<- | [<- | []]] kv [<- | []]; simpl; lia.
  - vm_compute. reflexivity.
Qed.

Lemma sample_discriminating_make :
  exists self,
    discriminating_bscore.make NInf sample_two_rows
      (Fin (1 / 2)) (Fin (3 / 4)) (Fin 1) = Some self
    /\ discriminating_bscore._positive_total self = Score.of_Z 1.
Proof.
  unfold discriminating_bscore.make.
  cbn [sample_two_rows tt_output
       discriminating_bscore.discriminator_sum_outputs obind].
  assert (Htot :
    discriminating_bscore.discriminator_totals boolean_type
      (sum_outputs_boolean logical_true) sample_two_rows
    = Some (Score.of_Z 1, Score.of_Z 1))
    by exact (totals_integers (rows sample_two_rows) 0 0).
  rewrite Htot. cbn [obind].
  rewrite (proj2 (ScoreFacts.ltb_Fin 0 1)) by lra.
  rewrite (proj2 (ScoreFacts.ltb_Fin 0 (1 / 2))) by lra.
  rewrite (proj2 (ScoreFacts.leb_Fin (1 / 2) (3 / 4))) by lra.
  cbn [negb andb discriminating_bscore.is_boolean obind].
  eexists. split; reflexivity.
Qed.

Lemma X5_count_splits_totals_witness :
  exists self (tp fp tn fn : Z),
    discriminating_bscore.make NInf sample_two_rows
      (Fin (1 / 2)) (Fin (3 / 4)) (Fin 1) = Some self
    /\ (0 <= tp /\ 0 <= fp /\ 0 <= tn /\ 0 <= fn)%Z
    /\ discriminating_bscore.count (fun _ _ => logical_true) self
         (Node logical_true []) = Some (integer_counts tp fp tn fn)
    /\ discriminating_bscore._positive_total self = Score.of_Z (tp + fn)
    /\ discriminating_bscore._negative_total self = Score.of_Z (fp + tn)
    /\ (tp + fp + tn + fn = exact_size sample_two_rows)%Z.
Proof.
  destruct sample_discriminating_make as [self [Hmake _]].
  destruct (@X5_count_splits_totals (fun _ _ => logical_true) NInf
              sample_two_rows (Fin (1 / 2)) (Fin (3 / 4)) (Fin 1)
              self (Node logical_true []) Hmake eq_refl sample_two_rows_counted)
    as [tp [fp [tn [fn H]]]].
  exists self, tp, fp, tn, fn. split; [exact Hmake | exact H].
Defined.

Lemma X17_recall_over_positive_total_witness :
  let eval_binding := fun (_ : vertex_seq) (_ : combo_tree) => logical_true in
  let tr := Node logical_true [] in
  exists self ctr (tp : Z),
    discriminating_bscore.make NInf sample_two_rows
      (Fin (1 / 2)) (Fin (3 / 4)) (Fin 1) = Some self
    /\ (0 <= tp <= 1)%Z
    /\ discriminating_bscore.count eval_binding self tr = Some ctr
    /\ discriminating_bscore.true_positive_sum ctr = Score.of_Z tp
    /\ discriminating_bscore.recall_bscore_operator eval_binding (fun _ => 1%Z)
         self tr
       = Some ([Score.div (Score.of_Z tp) (Score.of_Z 1);
                discriminating_bscore.get_threshold_penalty self
                  (discriminating_bscore.precision_of ctr)],
               Fin 0)
    /\ discriminating_bscore.prerec_bscore_operator eval_binding (fun _ => 1%Z)
         self tr
       = Some ([discriminating_bscore.precision_of ctr;
                discriminating_bscore.get_threshold_penalty self
                  (Score.div (Score.of_Z tp) (Score.of_Z 1))],
               Fin 0).
Proof.
  intros eval_binding tr.
  destruct sample_discriminating_make as [self [Hmake Hp]].
  destruct (@X17_recall_over_positive_total eval_binding NInf (fun _ => 1%Z)
              sample_two_rows (Fin (1 / 2)) (Fin (3 / 4)) (Fin 1) self tr
              1%Z Hmake eq_refl sample_two_rows_counted Hp ltac:(lia))
    as [ctr [tp H]].
  exists self, ctr, tp. split; [exact Hmake | exact H].
Defined.

(** ** precision_bscore::operator() on a table of boolean outputs *)

Section PrecisionBoolean.

Variable worst_score : score_t.
Variable eval_binding : vertex_seq -> combo_tree -> vertex.
Variable tree_complexity : combo_tree -> Z.

Lemma make_boolean_inv (ct : CTable)
    (penalty_ min_activation_ max_activation_ : score_t)
    (positive_ worst_norm_ : bool) (self : precision_bscore.t) :
  precision_bscore.make worst_score ct penalty_ min_activation_ max_activation_
                        positive_ worst_norm_ = Some self ->
  tt_output ct = boolean_type ->
  self = {| precision_bscore.ctable := ct;
            precision_bscore.ctable_usize := uncompressed_size ct;
            precision_bscore.min_activation := min_activation_;
            precision_bscore.max_activation := max_activation_;
            precision_bscore.penalty := penalty_;
            precision_bscore.positive := positive_;
            precision_bscore.worst_norm := worst_norm_;
            precision_bscore.output_type := boolean_type;
            precision_bscore.sum_outputs :=
              sum_outputs_boolean (bool_to_vertex positive_);
            precision_bscore.max_output := Fin 1;
            precision_bscore.occam := false;
            precision_bscore.complexity_coef := Fin 0 |}.
Proof.
  unfold precision_bscore.make. intros H Hty. rewrite Hty in H.
  cbn [precision_bscore.make_sum_outputs obind] in H.
  destruct (negb _); [discriminate |].
  cbn [obind] in H. now injection H as <-.
Qed.

Lemma active_rows_boolean (self : precision_bscore.t) (tr : combo_tree)
    (target : vertex) (l : list precision_bscore.row_t) :
  precision_bscore.sum_outputs self = sum_outputs_boolean target ->
  (forall vct, In vct l ->
     (forall kv, In kv (snd vct) -> 0 <= snd kv)%Z
     /\ (count_sum (snd vct) < Unsigned.modulus)%Z) ->
  forall (a : Z) (s : R),
  (0 <= s <= IZR a)%R ->
  (a + Zsum (map (fun vct => count_sum (snd vct)) l) < Unsigned.modulus)%Z ->
  exists a' s',
    fold_left (fun acc vct =>
                 st' <- acc ;;
                 precision_bscore.active_row eval_binding self tr st' vct)
              l (Some {| precision_bscore.active := a;
                         precision_bscore.sao := Fin s;
                         precision_bscore.worst_deciles := [] |})
    = Some {| precision_bscore.active := a';
              precision_bscore.sao := Fin s';
              precision_bscore.worst_deciles := [] |}
    /\ (0 <= s' <= IZR a')%R
    /\ (a <= a' <= a + Zsum (map (fun vct => count_sum (snd vct)) l))%Z.
Proof.
  intros Hso. induction l as [| vct l IH]; intros Hrows a s Hs Hlt.
  - exists a, s. split; [reflexivity |]. split; [exact Hs |]. simpl. lia.
  - rewrite map_cons, Zsum_cons in Hlt |- *.
    destruct (Hrows vct ltac:(now left)) as [Hc Hrow].
    assert (Hl : forall v, In v l ->
              (forall kv, In kv (snd v) -> 0 <= snd kv)%Z
              /\ (count_sum (snd v) < Unsigned.modulus)%Z)
      by (intros v Hv; apply Hrows; now right).
    assert (Hrest : (0 <= Zsum (map (fun vct => count_sum (snd vct)) l))%Z).
    { apply Zsum_nonneg. intros x Hx. apply in_map_iff in Hx.
      destruct Hx as [v [<- Hv]].
      apply Zsum_nonneg. intros y Hy. apply in_map_iff in Hy.
      destruct Hy as [kv [<- Hkv]]. now apply (proj1 (Hl v Hv)). }
    pose proof (total_count_exact (snd vct) Hc Hrow) as Etot.
    pose proof (@counter_get_bounds (snd vct) Hc target) as Hget.
    assert (Ha : (0 <= a)%Z).
    { apply le_IZR. destruct Hs. now apply Rle_trans with s. }
    cbn [fold_left obind]. unfold precision_bscore.active_row at 2.
    destruct (vertex_eqb (eval_binding (fst vct) tr) logical_true).
    + rewrite Hso. unfold sum_outputs_boolean. cbn [obind].
      cbn [precision_bscore.active precision_bscore.sao
           precision_bscore.worst_deciles].
      unfold Score.of_Z at 1 2. cbn [Score.add].
      rewrite (proj2 (ScoreFacts.ltb_Fin_false
                        (IZR (counter_get (snd vct) target)) 0))
        by (apply Rle_not_lt, (IZR_le 0); lia).
      rewrite andb_false_r.
      assert (Ea : Unsigned.add a (Counter.total_count (snd vct))
                   = (a + count_sum (snd vct))%Z).
      { rewrite Etot. apply UnsignedFacts.wrap_small.
        unfold Unsigned.in_range. unalias. lia. }
      rewrite Ea.
      destruct (IH Hl (a + count_sum (snd vct))%Z
                   (s + IZR (counter_get (snd vct) target))%R)
        as [a' [s' [Hf [Hs' Ha']]]].
      * rewrite plus_IZR. destruct Hs. split.
        -- apply Rplus_le_le_0_compat; trivial. apply (IZR_le 0). lia.
        -- apply Rplus_le_compat; trivial. apply IZR_le. lia.
      * unalias. lia.
      * exists a', s'. split; [exact Hf |]. split; [exact Hs' |].
        unalias. lia.
    + destruct (IH Hl a s Hs) as [a' [s' [Hf [Hs' Ha']]]]; [unalias; lia |].
      exists a', s'. split; [exact Hf |]. split; [exact Hs' |].
      unalias. lia.
Qed.


End PrecisionBoolean.


(** ** discretize_contin_bscore: the constructor *)

Section DiscretizeConstructor.

Import discretize_contin_bscore.

Local Open Scope Q_scope.

Lemma sort_insert_Sorted (x : Q) (l : list Q) :
  Sorted Qle l -> Sorted Qle (sort_insert x l).
Proof.
  induction l as [| y l IH]; intros Hs; simpl.
  - repeat constructor.
  - destruct (Qltb y x) eqn:E.
    + apply Qltb_lt in E. inversion Hs as [| ? ? Hl Hy]; subst.
      constructor; [now apply IH |].
      destruct l as [| z l]; simpl.
      * constructor. now apply Qlt_le_weak.
      * destruct (Qltb z x); constructor.
        -- now inversion Hy.
        -- now apply Qlt_le_weak.
    + apply Qltb_ge in E. constructor; [exact Hs | now constructor].
Qed.

Lemma sort_Sorted (l : list Q) : Sorted Qle (sort l).
Proof.
  induction l as [| x l IH]; simpl; [constructor |].
  now apply sort_insert_Sorted.
Qed.

Lemma sort_insert_Permutation (x : Q) (l : list Q) :
  Permutation (sort_insert x l) (x :: l).
Proof.
  induction l as [| y l IH]; simpl; [apply Permutation_refl |].
  destruct (Qltb y x); [| apply Permutation_refl].
  eapply Permutation_trans; [apply perm_skip, IH | apply perm_swap].
Qed.

Lemma sort_Permutation (l : list Q) : Permutation (sort l) l.
Proof.
  induction l as [| x l IH]; simpl; [constructor |].
  eapply Permutation_trans; [apply sort_insert_Permutation |].
  now apply perm_skip.
Qed.

Lemma sort_nonempty (l : list Q) : l <> [] -> sort l <> [].
Proof.
  intros Hl Hs. pose proof (sort_Permutation l) as Hp.
  rewrite Hs in Hp. apply Permutation_nil in Hp. contradiction.
Qed.

Lemma target_classes_typed (ths : list Q) (ot : list vertex) :
  ths <> [] -> Sorted Qle ths ->
  (forall v, In v ot -> exists x, v = contin x) ->
  exists cs,
    target_classes ths ot = Some cs
    /\ List.length cs = List.length ot
    /\ forall c, In c cs -> (c <= List.length ths)%nat.
Proof.
  intros Hne Hs. induction ot as [| v ot IH]; intros Hty; simpl.
  - exists []. repeat apply conj; trivial. intros c [].
  - destruct (Hty v) as [x ->]; [now left |]. cbn [get_contin obind].
    rewrite (@class_idx_linear_scan ths Hne Hs x). cbn [obind].
    destruct IH as [cs [E [Hlen Hb]]].
    { intros w Hw. apply Hty. now right. }
    rewrite E. cbn [obind]. exists (linear_scan ths x :: cs).
    repeat apply conj; trivial.
    + simpl. now rewrite Hlen.
    + intros c [<- | Hc]; [apply linear_scan_le_length | now apply Hb].
Qed.


End DiscretizeConstructor.


Example discretize_make_sorts :
  option_map discretize_contin_bscore.thresholds
    (discretize_contin_bscore.make [contin 3; contin (1 # 2)] [[]; []]
                                   [4; 1; 2]%Q false)
  = Some [1; 2; 4]%Q.
Proof. reflexivity. Qed.

Example discretize_make_classes :
  option_map discretize_contin_bscore.classes
    (discretize_contin_bscore.make [contin 3; contin (1 # 2)] [[]; []]
                                   [4; 1; 2]%Q false)
  = Some [2; 0]%nat.
Proof. reflexivity. Qed.

(** ** discretize_contin_bscore: the weights and the score *)

Section DiscretizeScore.

Import discretize_contin_bscore.

Lemma discretize_make_inv (ot : list vertex) (it : list vertex_seq)
    (thres : list Q) (wa : bool) (self : t) :
  make ot it thres wa = Some self ->
  exists cs,
    target_classes (sort thres) ot = Some cs
    /\ self = {| target := ot; cit := it; thresholds := sort thres;
                 weighted_accuracy := wa; classes := cs;
                 weights :=
                   if wa
                   then map (class_weight cs (S (List.length (sort thres))))
                            (seq 0 (S (List.length (sort thres))))
                   else repeat (Fin 1) (S (List.length (sort thres)));
                 occam := false; complexity_coef := Fin 0 |}.
Proof.
  unfold make. intros H.
  destruct (target_classes (sort thres) ot) as [cs |]; [| discriminate].
  cbn [obind] in H. injection H as <-. now exists cs.
Qed.

Lemma target_classes_inv (ths : list Q) (ot : list vertex) (cs : list nat) :
  ths <> [] -> Sorted Qle ths ->
  target_classes ths ot = Some cs ->
  List.length cs = List.length ot
  /\ forall c, In c cs -> (c <= List.length ths)%nat.
Proof.
  intros Hne Hs. revert cs.
  induction ot as [| v ot IH]; intros cs E; simpl in E.
  - injection E as <-. split; [reflexivity | intros c []].
  - destruct (get_contin v) as [x |]; [| discriminate]. cbn [obind] in E.
    rewrite (@class_idx_linear_scan ths Hne Hs x) in E. cbn [obind] in E.
    destruct (target_classes ths ot) as [cs' |]; [| discriminate].
    cbn [obind] in E. injection E as <-.
    destruct (IH cs' eq_refl) as [Hl Hb]. split.
    + simpl. now rewrite Hl.
    + intros c [<- | Hc]; [apply linear_scan_le_length | now apply Hb].
Qed.

(** X8: with weighted accuracy, the weight the constructor gives a class
    that holds at least one target, times the number of targets of the
    class, is the number of targets divided by the number of classes:
    all such classes carry the same total weight.  The weight of a class
    without a target is a division by zero, plus infinity when there is
    a target at all. *)
Theorem X8_discretize_weights (ot : list vertex) (it : list vertex_seq)
    (thres : list Q) (self : t) (i : nat) :
  make ot it thres true = Some self ->
  (i <= List.length thres)%nat ->
  let count := class_count (classes self) i in
  ((0 < count)%nat ->
     exists w : R,
       nth_error (weights self) i = Some (Fin w)
       /\ (w * INR count
           = INR (List.length ot) / INR (S (List.length thres)))%R)
  /\ (count = 0%nat -> ot <> [] -> nth_error (weights self) i = Some PInf).
Proof.
  intros Hmake Hi count.
  destruct (discretize_make_inv _ _ _ _ Hmake) as [cs [Ecs Hself]].
  pose proof (Permutation_length (sort_Permutation thres)) as Hlen.
  assert (Hcl : List.length cs = List.length ot).
  { clear -Ecs. revert cs Ecs. induction ot as [| v ot IH]; intros cs E; simpl in E.
    - now injection E as <-.
    - destruct (get_contin v); [| discriminate]. cbn [obind] in E.
      destruct (class_idx (sort thres) q); [| discriminate]. cbn [obind] in E.
      destruct (target_classes (sort thres) ot) as [cs' |]; [| discriminate].
      cbn [obind] in E. injection E as <-. simpl. f_equal. now apply IH. }
  assert (Hw : nth_error (weights self) i
               = Some (class_weight cs (S (List.length thres)) i)).
  { rewrite Hself. cbn [weights]. rewrite Hlen.
    rewrite nth_error_map, nth_error_seq.
    destruct (Nat.ltb_spec i (S (List.length thres))); [reflexivity | lia]. }
  assert (Hcount : count = class_count cs i).
  { unfold count. rewrite Hself. reflexivity. }
  rewrite Hw. unfold class_weight, Score.of_Z. rewrite <- Hcount, Hcl.
  rewrite <- !INR_IZR_INZ. split.
  - intros Hpos.
    assert (Hc : (0 < INR count)%R) by now apply (lt_INR 0).
    assert (HW : (0 < INR (S (List.length thres)))%R) by (apply (lt_INR 0); lia).
    exists (INR (List.length ot) / INR (S (List.length thres) * count))%R.
    rewrite mult_INR. split.
    + f_equal. apply ScoreFacts.div_Fin. nra.
    + field. lra.
  - intros Hzero Hot. rewrite Hzero, Nat.mul_0_r.
    cbn [INR Score.div]. destruct (Req_dec_T 0 0) as [_ | H]; [| now elim H].
    unfold Score.signed_inf.
    destruct (Rlt_dec 0 (INR (List.length ot))) as [_ | H]; [reflexivity |].
    elim H. apply (lt_INR 0). destruct ot; [contradiction | simpl; lia].
Qed.

Variable eval_binding : vertex_seq -> combo_tree -> vertex.
Variable tree_complexity : combo_tree -> Z.

Lemma operator_rows_unweighted (self : t) (ths : list Q) :
  thresholds self = ths -> ths <> [] -> Sorted Qle ths ->
  weights self = repeat (Fin 1) (S (List.length ths)) ->
  forall (outputs : list vertex) (cs : list nat),
  List.length outputs = List.length cs ->
  (forall v, In v outputs -> exists x, v = contin x) ->
  (forall c, In c cs -> (c <= List.length ths)%nat) ->
  exists bs,
    operator_rows self outputs cs = Some bs
    /\ List.length bs = List.length cs
    /\ (forall x, In x bs -> x = Fin 0 \/ x = Fin 1)
    /\ (bs = repeat (Fin 0) (List.length cs)
        <-> target_classes ths outputs = Some cs).
Proof.
  intros Hths Hne Hs Hw.
  induction outputs as [| v outputs IH]; intros [| c cs] Hlen Hty Hb;
    try discriminate.
  - exists []. simpl. split; [reflexivity |]. split; [reflexivity |].
    split; [intros x [] |]. split; reflexivity.
  - injection Hlen as Hlen.
    destruct (Hty v) as [x ->]; [now left |].
    destruct (IH cs Hlen) as [bs [E [Hl [Hv Hiff]]]].
    { intros w Hin. apply Hty. now right. }
    { intros w Hin. apply Hb. now right. }
    cbn [operator_rows target_classes]. unfold operator_row.
    cbn [get_contin obind]. rewrite Hths.
    rewrite (@class_idx_linear_scan ths Hne Hs x). cbn [obind].
    rewrite Hw, nth_error_repeat by (specialize (Hb c ltac:(now left)); lia).
    cbn [obind]. rewrite E. cbn [obind].
    eexists. split; [reflexivity |]. unfold Score.of_Z. cbn [Score.mul].
    destruct (Nat.eqb_spec c (linear_scan ths x)) as [Heq | Hneq]; cbn [negb].
    + replace (Fin (0 * 1)) with (Fin 0) by (f_equal; lra).
      repeat apply conj.
      * simpl. now rewrite Hl.
      * intros y [<- | Hy]; [now left | now apply Hv].
      * simpl. intros H. injection H as H. apply Hiff in H.
        rewrite H. cbn [obind]. now rewrite Heq.
      * simpl. intros H.
        destruct (target_classes ths outputs) as [cs' |]; [| discriminate].
        cbn [obind] in H. injection H as _ ->. f_equal. now apply Hiff.
    + replace (Fin (1 * 1)) with (Fin 1) by (f_equal; lra).
      repeat apply conj.
      * simpl. now rewrite Hl.
      * intros y [<- | Hy]; [now right | now apply Hv].
      * simpl. intros H. injection H as H _. lra.
      * simpl. intros H.
        destruct (target_classes ths outputs) as [cs' |]; [| discriminate].
        cbn [obind] in H. injection H as H _. congruence.
Qed.

Lemma operator_rows_by_row (self : t) (ths : list Q) :
  thresholds self = ths -> ths <> [] -> Sorted Qle ths ->
  weights self = repeat (Fin 1) (S (List.length ths)) ->
  forall (outputs : list vertex) (cs : list nat) (bs : behavioral_score),
  List.length outputs = List.length cs ->
  (forall c, In c cs -> (c <= List.length ths)%nat) ->
  operator_rows self outputs cs = Some bs ->
  Forall2 (component_of_classes ths) bs (combine outputs cs).
Proof.
  intros Hths Hne Hs Hw.
  induction outputs as [| v outputs IH]; intros [| c cs] bs Hlen Hb E;
    try discriminate.
  - simpl in E. injection E as <-. constructor.
  - injection Hlen as Hlen.
    cbn [operator_rows] in E. unfold operator_row in E.
    destruct (get_contin v) as [x |] eqn:Ex; [| discriminate].
    cbn [obind] in E. rewrite Hths in E.
    rewrite (@class_idx_linear_scan ths Hne Hs x) in E. cbn [obind] in E.
    rewrite Hw, nth_error_repeat in E by (specialize (Hb c ltac:(now left)); lia).
    cbn [obind] in E.
    destruct (operator_rows self outputs cs) as [bs' |] eqn:E'; [| discriminate].
    cbn [obind] in E. injection E as <-.
    cbn [combine]. constructor.
    + unfold component_of_classes. cbn [fst snd]. rewrite Ex.
      rewrite (@class_idx_linear_scan ths Hne Hs x).
      unfold Score.of_Z. cbn [Score.mul].
      destruct (c =? linear_scan ths x)%nat; cbn [negb]; f_equal; lra.
    + apply IH; trivial. intros c' Hc'. apply Hb. now right.
Qed.


End DiscretizeScore.

Lemma X8_discretize_weights_witness :
  exists self,
    discretize_contin_bscore.make [contin 3; contin (1 # 2)] [[]; []]
                                  [4; 1; 2]%Q true = Some self
    /\ (exists w : R,
          nth_error (discretize_contin_bscore.weights self) 2 = Some (Fin w)
          /\ (w * INR 1 = INR 2 / INR 4)%R)
    /\ nth_error (discretize_contin_bscore.weights self) 1 = Some PInf.
Proof.
  eexists. split; [reflexivity |]. split.
  - refine (proj1 (@X8_discretize_weights [contin 3; contin (1 # 2)] [[]; []]
                     [4; 1; 2]%Q _ 2%nat eq_refl _) _).
    + simpl. lia.
    + vm_compute. lia.
  - refine (proj2 (@X8_discretize_weights [contin 3; contin (1 # 2)] [[]; []]
                     [4; 1; 2]%Q _ 1%nat eq_refl _) _ _).
    + simpl. lia.
    + reflexivity.
    + discriminate.
Defined.


(** ** enum_filter_bscore::operator() *)

Section EnumFilter.

Variable eval_binding : vertex_seq -> combo_tree -> vertex.
Variable eval_throws_binding : vertex_seq -> combo_tree -> option vertex.
Variable tree_complexity : combo_tree -> Z.

Lemma enum_filter_rows (self : enum_filter_bscore.t) (p : R)
    (tr predicate : combo_tree) (consequent : vertex)
    (rows_ : list (vertex_seq * counter_t)) :
  enum_filter_bscore.punish self = Fin p -> (0 <= p)%R ->
  (forall vct, In vct rows_ -> eval_throws_binding (fst vct) predicate <> None) ->
  exists bs,
    enum_filter_bscore.operator_rows eval_binding eval_throws_binding
      self tr predicate consequent rows_ = Some bs
    /\ Forall2 Score.le bs (map (enum_table_bscore.operator_row eval_binding tr) rows_)
    /\ ((forall vct, In vct rows_ ->
           eval_throws_binding (fst vct) predicate <> Some logical_true
           \/ Counter.total_count (snd vct) = counter_get (snd vct) consequent) ->
        bs = map (enum_table_bscore.operator_row eval_binding tr) rows_).
Proof.
  intros Hp Hp0. induction rows_ as [| vct l IH]; intros Hev.
  - exists []. simpl. repeat apply conj; trivial.
  - destruct IH as [bs [E [Hle Heq]]].
    { intros v Hv. apply Hev. now right. }
    cbn [enum_filter_bscore.operator_rows].
    unfold enum_filter_bscore.operator_row at 1.
    destruct (eval_throws_binding (fst vct) predicate) as [pr |] eqn:Epr;
      [| exfalso; apply (Hev vct); [now left | exact Epr]].
    cbn [obind]. rewrite E. cbn [obind].
    eexists. split; [reflexivity |].
    pose proof (total_count_in_range (snd vct)) as [Ht _].
    assert (Ht' : (0 <= IZR (Counter.total_count (snd vct)))%R)
      by now apply (IZR_le 0).
    split.
    + cbn [map]. constructor; [| exact Hle].
      unfold enum_table_bscore.operator_row.
      destruct (vertex_eqb pr logical_true
                && negb (Counter.total_count (snd vct)
                         =? counter_get (snd vct) consequent)%Z).
      * rewrite Hp. unfold Score.sub, Score.of_Z, Score.le.
        cbn [Score.mul Score.neg Score.add]. apply ScoreFacts.leb_Fin. nra.
      * unfold Score.sub, Score.of_Z, Score.le.
        cbn [Score.neg Score.add]. apply ScoreFacts.leb_Fin. lra.
    + intros Hquiet. cbn [map]. f_equal.
      * destruct (Hquiet vct ltac:(now left)) as [Hnot | Hall].
        -- destruct (vertex_eqb pr logical_true) eqn:Eb; [| reflexivity].
           apply vertex_eqb_logical_true in Eb. subst pr. now elim Hnot.
        -- rewrite <- Hall, Z.eqb_refl, andb_false_r. reflexivity.
      * apply Heq. intros v Hv. apply Hquiet. now right.
Qed.

(** X10: on a [cond] candidate that has a predicate and a consequent,
    with a punishment that is not negative and a predicate that
    evaluates on every row, [enum_filter_bscore::operator()] gives every
    row at most the component [enum_table_bscore::operator()] gives it,
    and exactly that component when, on every row, the predicate is not
    true or the consequent has the whole count of the row. *)
Theorem X10_enum_filter_operator (self : enum_filter_bscore.t) (p : R)
    (predicate next_ : combo_tree) (others : list combo_tree) :
  let tr := Node cond (predicate :: next_ :: others) in
  enum_filter_bscore.punish self = Fin p -> (0 <= p)%R ->
  (forall vct, In vct (rows (enum_filter_bscore.ctable self)) ->
     eval_throws_binding (fst vct) predicate <> None) ->
  exists bs,
    enum_filter_bscore.operator eval_binding eval_throws_binding
                                tree_complexity self tr
    = Some (bs, snd (enum_table_bscore.operator eval_binding tree_complexity
                       (enum_filter_bscore.as_enum_table self) tr))
    /\ Forall2 Score.le bs
         (fst (enum_table_bscore.operator eval_binding tree_complexity
                 (enum_filter_bscore.as_enum_table self) tr))
    /\ ((forall vct, In vct (rows (enum_filter_bscore.ctable self)) ->
           eval_throws_binding (fst vct) predicate <> Some logical_true
           \/ Counter.total_count (snd vct) = counter_get (snd vct) (root next_)) ->
        bs = fst (enum_table_bscore.operator eval_binding tree_complexity
                    (enum_filter_bscore.as_enum_table self) tr)).
Proof.
  intros tr Hp Hp0 Hev.
  destruct (@enum_filter_rows self p tr predicate (root next_)
              (rows (enum_filter_bscore.ctable self)) Hp Hp0 Hev)
    as [bs [E [Hle Heq]]].
  exists bs. unfold enum_filter_bscore.operator.
  cbn [root tr is_enum_type vertex_eqb negb children].
  rewrite E. cbn [obind]. repeat apply conj; trivial.
Qed.

End EnumFilter.

Lemma X10_enum_filter_operator_witness :
  let tr := Node cond [Node (argument 1) []; Node (enum "a") []] in
  exists bs,
    enum_filter_bscore.operator (fun _ _ => enum "a")
      (fun _ _ => Some logical_true) (fun _ => 1%Z) sample_filter tr
    = Some (bs, Fin 0)
    /\ Forall2 Score.le bs
         (fst (enum_table_bscore.operator (fun _ _ => enum "a") (fun _ => 1%Z)
                 (enum_filter_bscore.as_enum_table sample_filter) tr)).
Proof.
  intros tr.
  destruct (@X10_enum_filter_operator (fun _ _ => enum "a")
              (fun _ _ => Some logical_true) (fun _ => 1%Z)
              sample_filter 1%R (Node (argument 1) []) (Node (enum "a") []) []
              eq_refl ltac:(lra))
    as [bs [H1 [H2 _]]].
  - intros vct _. discriminate.
  - exists bs. split; [exact H1 | exact H2].
Defined.

(** ** enum_graded_bscore::operator() *)

Section EnumGraded.

Import enum_graded_bscore.

Local Open Scope R_scope.

Variable eval_binding : vertex_seq -> combo_tree -> vertex.
Variable eval_throws_binding : vertex_seq -> combo_tree -> option vertex.
Variable tree_complexity : combo_tree -> Z.

Lemma score_loop_chain (g : R) (vs : vertex_seq) (c : counter_t)
    branches else_clause (sc weight : R) :
  is_cond_chain branches else_clause ->
  (forall pc, In pc branches -> eval_throws_binding vs (fst pc) <> None) ->
  let stop := first_true (holds_on eval_throws_binding vs) branches else_clause in
  score_loop eval_throws_binding (Fin g) vs c
             (cond_children branches else_clause) (Fin sc) (Fin weight)
  = Some (Fin ((sc + IZR (counter_get c (snd stop))) * (weight * g ^ fst stop))).
Proof.
  intros [Hpreds Helse]. revert weight.
  induction Hpreds as [| pc branches Hpc Hpreds IH]; intros weight Hev.
  - unfold cond_children. cbn [flat_map app score_loop first_true fst snd].
    rewrite Helse. unfold Score.of_Z. cbn [Score.add Score.mul].
    do 2 f_equal. simpl. lra.
  - unfold cond_children in *.
    cbn [flat_map app score_loop first_true].
    rewrite Hpc.
    destruct (eval_throws_binding vs (fst pc)) as [pr |] eqn:Epr;
      [| exfalso; apply (Hev pc); [now left | exact Epr]].
    assert (Hh : holds_on eval_throws_binding vs (fst pc)
                 = vertex_eqb pr logical_true)
      by (unfold holds_on; now rewrite Epr).
    rewrite Hh.
    cbn [obind]. destruct (vertex_eqb pr logical_true).
    + unfold Score.of_Z. cbn [Score.add Score.mul fst snd].
      do 2 f_equal. simpl. lra.
    + cbn [Score.mul fst snd]. rewrite IH.
      * do 2 f_equal. simpl. lra.
      * intros pc' Hpc'. apply Hev. now right.
Qed.

Lemma graded_loop_returns (gr : score_t) branches else_clause (cpxy weight : score_t) :
  is_cond_chain branches else_clause ->
  exists r, graded_loop tree_complexity gr (cond_children branches else_clause)
                        cpxy weight = Some r.
Proof.
  intros [Hpreds Helse]. revert cpxy weight.
  induction Hpreds as [| pc branches Hpc Hpreds IH]; intros cpxy weight.
  - unfold cond_children. cbn [flat_map app graded_loop]. rewrite Helse.
    eexists. reflexivity.
  - unfold cond_children in *. cbn [flat_map app graded_loop].
    rewrite Hpc. apply IH.
Qed.

(** X12: on a chain of conditions whose predicates evaluate on every
    row, [enum_graded_bscore::operator()] returns a score, and the
    component of a row is the count of the consequent of the first
    predicate that holds on it (of the else clause when none does) minus
    the count of the row, multiplied by [grading^i], [i] being the number
    of predicates that did not hold before it. *)
Theorem X12_enum_graded_operator (self : enum_graded_bscore.t) (g : R)
    (branches : list (combo_tree * combo_tree)) (else_clause : combo_tree) :
  grading self = Fin g ->
  is_cond_chain branches else_clause ->
  (forall vct pc, In vct (rows (ctable self)) -> In pc branches ->
     eval_throws_binding (fst vct) (fst pc) <> None) ->
  exists penalty,
    operator eval_throws_binding tree_complexity eval_binding self
             (Node cond (cond_children branches else_clause))
    = Some (map (fun vct : vertex_seq * counter_t =>
                   let stop := first_true (holds_on eval_throws_binding (fst vct))
                                          branches else_clause in
                   Fin ((IZR (counter_get (snd vct) (snd stop))
                         - IZR (Counter.total_count (snd vct)))
                        * g ^ fst stop))
                (rows (ctable self)),
            penalty).
Proof.
  intros Hgr Hchain Hev.
  assert (Hrows : forall rows_,
            (forall vct pc, In vct rows_ -> In pc branches ->
               eval_throws_binding (fst vct) (fst pc) <> None) ->
            operator_rows eval_throws_binding self
              (Node cond (cond_children branches else_clause)) rows_
            = Some (map (fun vct : vertex_seq * counter_t =>
                   let stop := first_true (holds_on eval_throws_binding (fst vct))
                                          branches else_clause in
                   Fin ((IZR (counter_get (snd vct) (snd stop))
                         - IZR (Counter.total_count (snd vct)))
                        * g ^ fst stop)) rows_)).
  { induction rows_ as [| vct l IH]; intros Hl; [reflexivity |].
    cbn [operator_rows map]. unfold operator_row at 1.
    rewrite Hgr. cbn [children]. unfold Score.of_Z. cbn [Score.neg].
    rewrite score_loop_chain; trivial.
    - cbn [obind]. rewrite IH.
      + cbn [obind]. do 3 f_equal. lra.
      + intros v pc Hv. apply Hl. now right.
    - intros pc. apply Hl. now left. }
  unfold operator. cbn [root is_enum_type vertex_eqb negb].
  rewrite Hrows by exact Hev. cbn [obind].
  destruct (occam self).
  - unfold graded_complexity. cbn [children].
    destruct (@graded_loop_returns (grading self) branches else_clause
                (Fin 0) (Fin 1) Hchain) as [r ->].
    cbn [obind]. eexists. reflexivity.
  - cbn [obind]. eexists. reflexivity.
Qed.

End EnumGraded.

Lemma X12_enum_graded_operator_witness :
  exists penalty,
    enum_graded_bscore.operator (fun _ _ => Some logical_false) (fun _ => 1%Z)
      (fun _ _ => enum "b") (sample_graded_table (1 / 2))
      (Node cond (enum_graded_bscore.cond_children sample_branches sample_else))
    = Some (map (fun vct : vertex_seq * counter_t =>
                   let stop := first_true
                                 (holds_on (fun _ _ => Some logical_false) (fst vct))
                                 sample_branches sample_else in
                   Fin ((IZR (counter_get (snd vct) (snd stop))
                         - IZR (Counter.total_count (snd vct)))
                        * (1 / 2) ^ fst stop)%R)
                (rows (enum_graded_bscore.ctable (sample_graded_table (1 / 2)))),
            penalty).
Proof.
  apply (@X12_enum_graded_operator (fun _ _ => enum "b")
           (fun _ _ => Some logical_false) (fun _ => 1%Z)
           (sample_graded_table (1 / 2)) (1 / 2) sample_branches sample_else
           eq_refl sample_is_cond_chain).
  intros vct pc _ _. discriminate.
Defined.

(** ** interesting_predicate_bscore: the histogram of the constructor *)

Section UnconditionedHistogram.

Import interesting_predicate_bscore.

Lemma get_above (k x : Q) (h : Counter.t Q) :
  Forall (Qlt k) (map fst h) -> k == x -> Counter.get Qeq_bool h x = 0%Z.
Proof.
  intros Hall Hkx. induction h as [| [k' n] h IH]; [reflexivity |].
  cbn [map fst] in Hall. inversion Hall as [| ? ? Hk Hrest]; subst.
  cbn [Counter.get].
  destruct (Qeq_bool k' x) eqn:E.
  - apply Qeq_bool_iff in E. rewrite <- Hkx in E. rewrite E in Hk.
    now apply Qlt_irrefl in Hk.
  - now apply IH.
Qed.

Lemma update_keys_above (f : Z -> Z) (lo k : Q) (h : Counter.t Q) :
  lo < k -> Forall (Qlt lo) (map fst h) ->
  Forall (Qlt lo) (map fst (Counter.update f k h)).
Proof.
  intros Hlo. induction h as [| [k' n] h IH]; intros Hall; cbn [Counter.update].
  - repeat constructor. exact Hlo.
  - cbn [map fst] in Hall. inversion Hall as [| ? ? Hk Hrest]; subst.
    destruct (k ?= k'); cbn [map fst]; repeat constructor; auto.
Qed.

Lemma update_increasing (f : Z -> Z) (k : Q) (h : Counter.t Q) :
  increasing_keys h -> increasing_keys (Counter.update f k h).
Proof.
  unfold increasing_keys.
  induction h as [| [k' n] h IH]; intros Hs; cbn [Counter.update].
  - repeat constructor.
  - cbn [map fst] in Hs. inversion Hs as [| ? ? Hs' Hall]; subst.
    destruct (k ?= k') eqn:E; cbn [map fst].
    + constructor; assumption.
    + apply Qlt_alt in E. constructor; [constructor; assumption |].
      constructor; [exact E |].
      eapply Forall_impl; [| exact Hall].
      intros q Hq. now apply Qlt_trans with k'.
    + apply Qgt_alt in E. constructor; [now apply IH |].
      now apply update_keys_above.
Qed.

Lemma get_update (f : Z -> Z) (k x : Q) (h : Counter.t Q) :
  increasing_keys h ->
  Counter.get Qeq_bool (Counter.update f k h) x
  = if Qeq_bool k x then f (Counter.get Qeq_bool h x)
    else Counter.get Qeq_bool h x.
Proof.
  unfold increasing_keys.
  induction h as [| [k' n] h IH]; intros Hs; cbn [Counter.update].
  - cbn [Counter.get]. reflexivity.
  - cbn [map fst] in Hs. inversion Hs as [| ? ? Hs' Hall]; subst.
    destruct (k ?= k') eqn:E.
    + apply Qeq_alt in E. cbn [Counter.get].
      destruct (Qeq_bool k x) eqn:Ekx.
      * apply Qeq_bool_iff in Ekx.
        assert (Ek' : Qeq_bool k' x = true)
          by (apply Qeq_bool_iff; now rewrite <- E).
        now rewrite Ek'.
      * destruct (Qeq_bool k' x) eqn:Ek'; [| reflexivity].
        apply Qeq_bool_iff in Ek'. rewrite <- E in Ek'.
        apply Qeq_bool_iff in Ek'. congruence.
    + apply Qlt_alt in E. cbn [Counter.get].
      destruct (Qeq_bool k x) eqn:Ekx; [| reflexivity].
      apply Qeq_bool_iff in Ekx. f_equal. symmetry.
      apply (@get_above k x ((k', n) :: h)); [| exact Ekx].
      cbn [map fst]. constructor; [exact E |].
      eapply Forall_impl; [| exact Hall].
      intros q Hq. now apply Qlt_trans with k'.
    + apply Qgt_alt in E. cbn [Counter.get].
      destruct (Qeq_bool k' x) eqn:Ek'.
      * apply Qeq_bool_iff in Ek'.
        destruct (Qeq_bool k x) eqn:Ekx; [| reflexivity].
        apply Qeq_bool_iff in Ekx. rewrite <- Ekx in Ek'. rewrite Ek' in E.
        now apply Qlt_irrefl in E.
      * now apply IH.
Qed.

Lemma wrap_add_wrap (a n : Z) :
  Unsigned.add (Unsigned.wrap a) n = Unsigned.wrap (a + n).
Proof.
  unfold Unsigned.add, Unsigned.wrap. apply Zplus_mod_idemp_l.
Qed.

Lemma observe_add_to (c : Counter.t vertex) (h : counter_t) (S : Q -> Z) :
  (forall kv, In kv c -> get_contin (fst kv) <> None) ->
  increasing_keys h ->
  (forall x, Counter.get Qeq_bool h x = Unsigned.wrap (S x)) ->
  exists h',
    observe Counter.add_to c (Some h) = Some h'
    /\ increasing_keys h'
    /\ forall x, Counter.get Qeq_bool h' x
                 = Unsigned.wrap (S x + row_occurrences x c).
Proof.
  unfold observe, row_occurrences. revert h S.
  induction c as [| [v n] c IH]; intros h S Hc Hs Hget.
  - exists h. cbn [fold_left map Zsum fold_right]. repeat apply conj; trivial.
    intros x. rewrite Z.add_0_r. apply Hget.
  - cbn [fold_left obind fst snd].
    destruct (get_contin v) as [y |] eqn:Ey;
      [| exfalso; apply (Hc (v, n)); [now left | exact Ey]].
    cbn [obind].
    destruct (IH (Counter.add_to y n h)
                 (fun x => (S x + if Qeq_bool y x then n else 0)%Z))
      as [h' [E [Hs' Hget']]].
    + intros kv Hkv. apply Hc. now right.
    + now apply update_increasing.
    + intros x. unfold Counter.add_to. rewrite get_update by exact Hs.
      destruct (Qeq_bool y x).
      * rewrite Hget. apply wrap_add_wrap.
      * rewrite Z.add_0_r. apply Hget.
    + exists h'. repeat apply conj; trivial.
      intros x. rewrite Hget'. f_equal.
      rewrite map_cons, Zsum_cons. cbn [fst snd]. rewrite Ey. lia.
Qed.

Lemma unconditioned_rows (rows_ : list (vertex_seq * Counter.t vertex))
    (h : counter_t) (S : Q -> Z) :
  (forall vct, In vct rows_ ->
     forall kv, In kv (snd vct) -> get_contin (fst kv) <> None) ->
  increasing_keys h ->
  (forall x, Counter.get Qeq_bool h x = Unsigned.wrap (S x)) ->
  exists h',
    fold_left (fun acc vct => observe Counter.add_to (snd vct) acc)
              rows_ (Some h) = Some h'
    /\ increasing_keys h'
    /\ forall x, Counter.get Qeq_bool h' x
                 = Unsigned.wrap
                     (S x + Zsum (map (fun vct => row_occurrences x (snd vct)) rows_)).
Proof.
  revert h S. induction rows_ as [| vct l IH]; intros h S Hc Hs Hget.
  - exists h. cbn [fold_left map Zsum fold_right]. repeat apply conj; trivial.
    intros x. rewrite Z.add_0_r. apply Hget.
  - cbn [fold_left].
    destruct (@observe_add_to (snd vct) h S) as [h1 [E1 [Hs1 Hget1]]]; trivial.
    { apply Hc. now left. }
    rewrite E1.
    destruct (IH h1 (fun x => (S x + row_occurrences x (snd vct))%Z))
      as [h' [E [Hs' Hget']]]; trivial.
    { intros v Hv. apply Hc. now right. }
    exists h'. repeat apply conj; trivial.
    intros x. rewrite Hget'. f_equal. rewrite map_cons, Zsum_cons.
    symmetry. apply Z.add_assoc.
Qed.

Lemma row_occurrences_bounds (x : Q) (c : Counter.t vertex) :
  (forall kv, In kv c -> 0 <= snd kv)%Z ->
  (0 <= row_occurrences x c <= count_sum c)%Z.
Proof.
  unfold row_occurrences, count_sum.
  induction c as [| [v n] c IH]; intros Hc; [simpl; lia |].
  rewrite !map_cons, !Zsum_cons. cbn [fst snd].
  assert (Hn : (0 <= n)%Z) by (apply (Hc (v, n)); now left).
  assert (IH' := IH (fun kv Hkv => Hc kv (or_intror Hkv))).
  destruct (get_contin v) as [y |]; [destruct (Qeq_bool y x) |]; lia.
Qed.

Lemma occurrences_bounds (x : Q) (ct : CTable) :
  (forall vct, In vct (rows ct) ->
     forall kv, In kv (snd vct) -> 0 <= snd kv)%Z ->
  (0 <= occurrences x ct <= exact_size ct)%Z.
Proof.
  unfold occurrences, exact_size.
  induction (rows ct) as [| vct l IH]; intros Hc; [simpl; lia |].
  rewrite !map_cons, !Zsum_cons.
  pose proof (@row_occurrences_bounds x (snd vct) (Hc vct (or_introl eq_refl))).
  assert (IH' := IH (fun v Hv => Hc v (or_intror Hv))). lia.
Qed.

(** X13: on a table whose outputs are all contin values and whose
    counts add up to less than [2^24], the constructor of
    [interesting_predicate_bscore] builds a histogram whose keys are
    strictly increasing and in which the count of every value is the
    number of times the value is recorded in the whole table.  (The
    count type of the histogram is not among the sources; below [2^24]
    an [unsigned] and a floating-point count add up alike, exactly.) *)
Theorem X13_unconditioned_counter (ct : CTable) :
  (forall vct, In vct (rows ct) ->
     forall kv, In kv (snd vct) -> get_contin (fst kv) <> None) ->
  exactly_counted ct ->
  exists h,
    unconditioned_counter ct = Some h
    /\ increasing_keys h
    /\ forall x, Counter.get Qeq_bool h x = occurrences x ct
                 /\ (0 <= occurrences x ct <= exact_size ct)%Z.
Proof.
  intros Hc Hsmall.
  pose proof (exactly_counted_representable Hsmall) as [Hcounts Hsize].
  destruct (@unconditioned_rows (rows ct) [] (fun _ => 0%Z))
    as [h [E [Hs Hget]]]; trivial.
  { constructor. }
  exists h. split; [exact E |]. split; [exact Hs |].
  intros x. pose proof (@occurrences_bounds x ct Hcounts) as Hb.
  split; [| exact Hb].
  rewrite Hget. cbn beta. rewrite Z.add_0_l.
  apply UnsignedFacts.wrap_small.
  unfold occurrences in *. unfold Unsigned.in_range. lia.
Qed.

End UnconditionedHistogram.

Lemma sample_contin_table_counted : exactly_counted sample_contin_table.
Proof.
  split.
  - intros vct [<- | [<- | []]] kv [<- | []]; simpl; lia.
  - vm_compute. reflexivity.
Qed.

Lemma X13_unconditioned_counter_witness :
  exists h,
    interesting_predicate_bscore.unconditioned_counter sample_contin_table
    = Some h
    /\ increasing_keys h
    /\ forall x, Counter.get Qeq_bool h x = occurrences x sample_contin_table
                 /\ (0 <= occurrences x sample_contin_table
                     <= exact_size sample_contin_table)%Z.
Proof.
  apply X13_unconditioned_counter.
  - intros vct [<- | [<- | []]] kv [<- | []]; discriminate.
  - exact sample_contin_table_counted.
Defined.

(** ** precision_bscore: the canonical candidate and the best score *)

Section CanonicalBest.

Import precision_bscore.

Variable worst_score : score_t.
Variable eval_binding : vertex_seq -> combo_tree -> vertex.
Variable tree_complexity : combo_tree -> Z.

Lemma Rsum_Permutation (l l' : list R) : Permutation l l' -> Rsum l = Rsum l'.
Proof. induction 1; simpl; lra. Qed.

Lemma clauses_loop_reached (self : t) (ptc : Multimap.t (row_t * Z))
    (active0 : Z) (clauses0 : list combo_tree) :
  fst (clauses_loop self ptc active0 clauses0)
  = clauses0 ++ map clause_of (reached_rows self ptc active0).
Proof.
  revert active0 clauses0.
  induction ptc as [| v ptc IH]; intros active0 clauses0.
  - simpl. now rewrite app_nil_r.
  - cbn [clauses_loop reached_rows].
    destruct (Score.leb _ _).
    + reflexivity.
    + rewrite IH, <- app_assoc. reflexivity.
Qed.

Lemma reached_rows_prefix (self : t) (ptc : Multimap.t (row_t * Z)) (active0 : Z) :
  exists excluded, ptc = reached_rows self ptc active0 ++ excluded.
Proof.
  revert active0. induction ptc as [| v ptc IH]; intros active0.
  - now exists [].
  - cbn [reached_rows]. destruct (Score.leb _ _).
    + now exists ptc.
    + destruct (IH (Unsigned.add active0 (snd (snd v)))) as [excluded E].
      exists excluded. cbn [app]. now rewrite <- E.
Qed.

Lemma best_loop_reached (self : t) (sumo_of : row_t -> R)
    (ptc : Multimap.t (row_t * Z)) (active0 : Z) (sao0 : R) :
  (forall v, In v ptc -> 0 <= snd (snd v))%Z ->
  (0 <= active0)%Z ->
  (active0 + Zsum (map (fun v => snd (snd v)) ptc) < Unsigned.modulus)%Z ->
  let reached := reached_rows self ptc active0 in
  let active' := (active0 + Zsum (map (fun v => snd (snd v)) reached))%Z in
  best_loop self (map (max_precision_entry sumo_of) ptc) active0 (Fin sao0)
  = (active',
     Fin (sao0 + Rsum (map (fun v => sumo_of (fst (snd v))) reached)))
  /\ (reached = ptc
      \/ Score.leb (Score.mul (Score.of_Z (ctable_usize self)) (min_activation self))
                   (Score.of_Z active') = true).
Proof.
  revert active0 sao0.
  induction ptc as [| v ptc IH]; intros active0 sao0 Hpos Ha Hlt.
  - simpl. rewrite Z.add_0_r, Rplus_0_r. auto.
  - rewrite map_cons, Zsum_cons in Hlt.
    assert (Hv : (0 <= snd (snd v))%Z) by (apply Hpos; now left).
    assert (Hrest : (0 <= Zsum (map (fun v => snd (snd v)) ptc))%Z).
    { apply Zsum_nonneg. intros x Hx. apply in_map_iff in Hx.
      destruct Hx as [w [<- Hw]]. apply Hpos. now right. }
    assert (E : Unsigned.add active0 (snd (snd v)) = (active0 + snd (snd v))%Z).
    { apply UnsignedFacts.wrap_small. unfold Unsigned.in_range. lia. }
    cbn [map best_loop reached_rows].
    change (snd (snd (max_precision_entry sumo_of v))) with (snd (snd v)).
    change (fst (snd (max_precision_entry sumo_of v)))
      with (Fin (sumo_of (fst (snd v)))).
    cbn [Score.add]. rewrite E.
    destruct (Score.leb _ (Score.of_Z (active0 + snd (snd v)))) eqn:Eb.
    + cbn [map Zsum Rsum fold_right]. rewrite Z.add_0_r, Rplus_0_r.
      split; [reflexivity | now right].
    + destruct (IH (active0 + snd (snd v))%Z (sao0 + sumo_of (fst (snd v)))%R)
        as [Hloop Hstop].
      * intros w Hw. apply Hpos. now right.
      * lia.
      * lia.
      * cbn zeta in Hloop, Hstop. rewrite Hloop.
        rewrite Zsum_cons. cbn [Rsum fold_right].
        split.
        -- f_equal; [lia | f_equal; unfold Rsum; lra].
        -- destruct Hstop as [-> | Hstop]; [now left | right].
           rewrite <- Hstop. do 2 f_equal. lia.
Qed.

Lemma insert_max_precision_entry (sumo_of : row_t -> R) (k : score_t)
    (v : row_t * Z) (m : Multimap.t (row_t * Z)) :
  Multimap.insert k (Fin (sumo_of (fst v)), snd v)
                  (map (max_precision_entry sumo_of) m)
  = map (max_precision_entry sumo_of) (Multimap.insert k v m).
Proof.
  induction m as [| [k' v'] m IH]; [reflexivity |].
  cbn [map Multimap.insert]. unfold max_precision_entry at 1. cbn [fst snd].
  destruct (Score.ltb k k').
  - reflexivity.
  - rewrite IH. reflexivity.
Qed.

Lemma max_precisions_entries (self : t) (sumo_of : row_t -> R)
    (ptc : Multimap.t (row_t * Z)) :
  (forall vct, In vct (rows (ctable self)) ->
     sum_outputs self (snd vct) = Some (Fin (sumo_of vct))) ->
  precision_to_count self = Some ptc ->
  max_precisions self = Some (map (max_precision_entry sumo_of) ptc).
Proof.
  unfold precision_to_count, max_precisions.
  assert (G : forall l (ptc0 : Multimap.t (row_t * Z)),
    (forall vct, In vct l ->
       sum_outputs self (snd vct) = Some (Fin (sumo_of vct))) ->
    fold_left
      (fun acc it =>
         ptc <- acc ;;
         so <- sum_outputs self (snd it) ;;
         Some (Multimap.insert
                 (Score.div so (Score.of_Z (Counter.total_count (snd it))))
                 (it, Counter.total_count (snd it)) ptc))
      l (Some ptc0) = Some ptc ->
    fold_left
      (fun acc it =>
         mp <- acc ;;
         sumo <- sum_outputs self (snd it) ;;
         Some (Multimap.insert
                 (Score.div sumo (Score.of_Z (Counter.total_count (snd it))))
                 (sumo, Counter.total_count (snd it)) mp))
      l (Some (map (max_precision_entry sumo_of) ptc0))
    = Some (map (max_precision_entry sumo_of) ptc)).
  { induction l as [| it l IH]; intros ptc0 Hso Hptc.
    - simpl in *. now injection Hptc as <-.
    - cbn [fold_left obind] in *.
      rewrite (Hso it (or_introl eq_refl)) in *. cbn [obind] in *.
      pose proof (@insert_max_precision_entry sumo_of
                    (Score.div (Fin (sumo_of it))
                               (Score.of_Z (Counter.total_count (snd it))))
                    (it, Counter.total_count (snd it)) ptc0) as Hins.
      cbn [fst snd] in Hins. rewrite Hins.
      apply IH; [| exact Hptc].
      intros vct Hin. apply Hso. now right. }
  intros Hso Hptc. exact (G _ [] Hso Hptc).
Qed.

(** A row on which the clause of a row of boolean inputs is true has
    the inputs of that row. *)
Lemma clause_arguments_match (before vs inputs : vertex_seq) :
  (forall v, In v inputs -> v = logical_true \/ v = logical_false) ->
  List.length vs = List.length inputs ->
  forallb (eval_literal (before ++ vs))
          (clause_arguments (Z.of_nat (List.length before) + 1) inputs) = true ->
  vs = inputs.
Proof.
  revert before vs.
  induction inputs as [| input inputs IH]; intros before vs Hb Hlen H.
  - destruct vs; [reflexivity | discriminate].
  - destruct vs as [| x vs]; [discriminate |].
    cbn [clause_arguments forallb] in H.
    apply andb_prop in H. destruct H as [Hlit Hrest].
    assert (Hnth : nth_error (before ++ x :: vs) (List.length before) = Some x).
    { rewrite nth_error_app2 by lia. now rewrite Nat.sub_diag. }
    assert (Hx : x = input).
    { destruct (Hb input) as [-> | ->]; [now left | |];
        cbn [vertex_eqb eval_literal] in Hlit.
      - replace (0 <? Z.of_nat (List.length before) + 1)%Z with true in Hlit
          by (symmetry; apply Z.ltb_lt; lia).
        replace (Z.to_nat (Z.of_nat (List.length before) + 1 - 1))
          with (List.length before) in Hlit by lia.
        rewrite Hnth in Hlit. destruct x; try discriminate. reflexivity.
      - replace (0 <? - (Z.of_nat (List.length before) + 1))%Z with false in Hlit
          by (symmetry; apply Z.ltb_ge; lia).
        replace (Z.to_nat (- - (Z.of_nat (List.length before) + 1) - 1))
          with (List.length before) in Hlit by lia.
        rewrite Hnth in Hlit. destruct x; try discriminate. reflexivity. }
    f_equal; [exact Hx |].
    apply (IH (before ++ [x])).
    + intros v Hv. apply Hb. now right.
    + simpl in Hlen. lia.
    + rewrite <- app_assoc. cbn [app].
      rewrite length_app. cbn [List.length].
      replace (Z.of_nat (List.length before + 1) + 1)%Z
        with (Z.of_nat (List.length before) + 1 + 1)%Z by lia.
      exact Hrest.
Qed.

Lemma clause_of_match (vs : vertex_seq) (v : score_t * (row_t * Z)) :
  (forall x, In x (fst (fst (snd v))) -> x = logical_true \/ x = logical_false) ->
  List.length vs = List.length (fst (fst (snd v))) ->
  eval_clause vs (clause_of v) = true ->
  vs = fst (fst (snd v)).
Proof.
  intros Hb Hlen H. unfold clause_of, eval_clause in H.
  exact (@clause_arguments_match [] vs (fst (fst (snd v))) Hb Hlen H).
Qed.

Lemma NoDup_fst_inj (A B : Type) (l : list (A * B)) :
  NoDup (map fst l) ->
  forall x y, In x l -> In y l -> fst x = fst y -> x = y.
Proof.
  induction l as [| a l IH]; intros Hnd x y Hx Hy E; [contradiction |].
  cbn [map] in Hnd. inversion Hnd as [| ? ? Hnotin Hnd']; subst.
  destruct Hx as [<- | Hx], Hy as [<- | Hy]; trivial.
  - exfalso. apply Hnotin. rewrite E. now apply in_map.
  - exfalso. apply Hnotin. rewrite <- E. now apply in_map.
  - now apply IH.
Qed.

(** The rows on which the disjunction of the clauses of [sel] is true
    are the rows of [sel]. *)
Lemma selected_rows (ct : CTable) (sel : Multimap.t (row_t * Z)) :
  boolean_inputs ct ->
  NoDup (map fst (rows ct)) ->
  (forall r r', In r (rows ct) -> In r' (rows ct) ->
     List.length (fst r) = List.length (fst r')) ->
  (forall vs tr, is_dnf tr = true ->
     eval_binding vs tr = bool_to_vertex (eval_dnf vs tr)) ->
  (forall v, In v sel -> exists it, In it (rows ct) /\ snd v = with_total it) ->
  NoDup (map (fun v : score_t * (row_t * Z) => fst (snd v)) sel) ->
  let tr := Node logical_or (map clause_of sel) in
  Permutation
    (filter (fun vct : row_t =>
               vertex_eqb (eval_binding (fst vct) tr) logical_true) (rows ct))
    (map (fun v : score_t * (row_t * Z) => fst (snd v)) sel).
Proof.
  intros Hbool Hnd Hlen Heval Hsel HndSel tr.
  apply NoDup_Permutation.
  - apply NoDup_filter. exact (NoDup_map_inv _ _ Hnd).
  - exact HndSel.
  - intros row. rewrite filter_In, in_map_iff.
    rewrite (Heval (fst row) tr) by apply clauses_is_dnf.
    split.
    + intros [Hrow Hact].
      assert (Hd : eval_dnf (fst row) tr = true)
        by (destruct (eval_dnf (fst row) tr); [reflexivity | discriminate]).
      unfold tr, eval_dnf in Hd. apply existsb_exists in Hd.
      destruct Hd as [cl [Hcl Hev]]. apply in_map_iff in Hcl.
      destruct Hcl as [v [<- Hv]].
      destruct (Hsel v Hv) as [it [Hit Ev]].
      exists v. split; [| exact Hv].
      rewrite Ev. cbn [with_total fst]. symmetry.
      apply (NoDup_fst_inj (rows ct) Hnd); trivial.
      replace (fst it) with (fst (fst (snd v)))
        by (rewrite Ev; reflexivity).
      apply clause_of_match; trivial.
      * rewrite Ev. cbn [with_total fst]. now apply Hbool.
      * rewrite Ev. cbn [with_total fst]. now apply Hlen.
    + intros [v [<- Hv]]. destruct (Hsel v Hv) as [it [Hit Ev]].
      split; [rewrite Ev; exact Hit |].
      assert (Hd : eval_dnf (fst (fst (snd v))) tr = true).
      { unfold tr, eval_dnf. apply existsb_exists. exists (clause_of v). split.
        - now apply in_map.
        - apply clause_of_true. rewrite Ev. cbn [with_total fst].
          now apply Hbool. }
      now rewrite Hd.
Qed.

(** The sums [operator()] accumulates over a table of boolean outputs. *)
Lemma active_rows_sums (self : t) (tr : combo_tree) (target : vertex)
    (l : list row_t) (a : Z) (s : R) :
  sum_outputs self = sum_outputs_boolean target ->
  (forall vct, In vct l -> forall kv, In kv (snd vct) -> 0 <= snd kv)%Z ->
  (0 <= a)%Z ->
  (a + Zsum (map (fun vct : row_t => Counter.total_count (snd vct)) l)
   < Unsigned.modulus)%Z ->
  let act := fun vct : row_t =>
               vertex_eqb (eval_binding (fst vct) tr) logical_true in
  fold_left (fun acc vct => st' <- acc ;; active_row eval_binding self tr st' vct)
            l (Some {| active := a; sao := Fin s; worst_deciles := [] |})
  = Some {| active :=
              (a + Zsum (map (fun vct : row_t => Counter.total_count (snd vct))
                             (filter act l)))%Z;
            sao :=
              Fin (s + Rsum (map (fun vct : row_t =>
                                    IZR (counter_get (snd vct) target))
                                 (filter act l)));
            worst_deciles := [] |}.
Proof.
  intros Hso Hrows Ha Hlt act. revert a s Ha Hlt.
  induction l as [| vct l IH]; intros a s Ha Hlt.
  - simpl. rewrite Z.add_0_r, Rplus_0_r. reflexivity.
  - rewrite map_cons, Zsum_cons in Hlt.
    assert (Hl : forall v, In v l -> forall kv, In kv (snd v) -> (0 <= snd kv)%Z)
      by (intros v Hv; apply Hrows; now right).
    pose proof (total_count_in_range (snd vct)) as [Ht _].
    assert (Hrest : (0 <= Zsum (map (fun vct : row_t =>
                                       Counter.total_count (snd vct)) l))%Z).
    { apply Zsum_nonneg. intros x Hx. apply in_map_iff in Hx.
      destruct Hx as [v [<- Hv]]. apply total_count_in_range. }
    pose proof (@counter_get_bounds (snd vct) (Hrows vct (or_introl eq_refl))
                  target) as Hget.
    cbn [fold_left obind filter]. unfold active_row at 2. fold (act vct).
    destruct (act vct) eqn:Eact.
    + rewrite Hso. unfold sum_outputs_boolean. cbn [obind].
      cbn [active sao worst_deciles].
      unfold Score.of_Z at 1 2. cbn [Score.add].
      rewrite (proj2 (ScoreFacts.ltb_Fin_false
                        (IZR (counter_get (snd vct) target)) 0))
        by (apply Rle_not_lt, (IZR_le 0); lia).
      rewrite andb_false_r.
      assert (Ea : Unsigned.add a (Counter.total_count (snd vct))
                   = (a + Counter.total_count (snd vct))%Z).
      { apply UnsignedFacts.wrap_small. unfold Unsigned.in_range.
        unalias. lia. }
      rewrite Ea, IH; trivial; [| unalias; lia | unalias; lia].
      rewrite !map_cons, Zsum_cons. cbn [Rsum fold_right].
      f_equal. f_equal; [unalias; lia | f_equal; unfold Rsum; lra].
    + rewrite IH; trivial. unalias. lia.
Qed.


End CanonicalBest.


(** ** enum_effective_bscore::operator() *)

Section EnumEffective.

Import enum_effective_bscore.

Variable eval_throws_binding : vertex_seq -> combo_tree -> option vertex.
Variable tree_complexity : combo_tree -> Z.

Lemma int_row_score (vct : vertex_seq * counter_t) (v : vertex) :
  int_counts vct ->
  Int.wrap (counter_get (snd vct) v) = counter_get (snd vct) v
  /\ Int.sub_unsigned (counter_get (snd vct) v) (Counter.total_count (snd vct))
     = (counter_get (snd vct) v - Counter.total_count (snd vct))%Z.
Proof.
  intros [Hc Hlt].
  pose proof (@counter_get_bounds (snd vct) Hc v) as Hget.
  assert (Hm : (count_sum (snd vct) < Unsigned.modulus)%Z).
  { unfold Int.half, Unsigned.modulus in *.
    change (2 ^ 31)%Z with 2147483648%Z in Hlt.
    change (2 ^ 32)%Z with 4294967296%Z. lia. }
  rewrite (total_count_exact (snd vct) Hc Hm).
  unfold Int.sub_unsigned, Int.wrap, Unsigned.sub, Unsigned.wrap,
    Int.half, Unsigned.modulus in *.
  change (2 ^ 31)%Z with 2147483648%Z in *.
  change (2 ^ 32)%Z with 4294967296%Z in *.
  set (g := counter_get (snd vct) v) in *.
  set (t := count_sum (snd vct)) in *.
  clearbody g t. clear Hc. split; Z.div_mod_to_equations; lia.
Qed.

Lemma constant_pass_rows (v : vertex) (rows_ : list (vertex_seq * counter_t))
    (n : nat) :
  (List.length rows_ <= n)%nat ->
  constant_pass v rows_ (repeat (Fin 0) n)
  = Some (map (fun vct : vertex_seq * counter_t =>
                 Fin (IZR (counter_get (snd vct) v)
                      - IZR (Counter.total_count (snd vct))))
              rows_
          ++ repeat (Fin 0) (n - List.length rows_)).
Proof.
  revert n. induction rows_ as [| vct l IH]; intros n Hn.
  - simpl. now rewrite Nat.sub_0_r.
  - destruct n as [| n]; [simpl in Hn; lia |].
    cbn [repeat constant_pass List.length]. rewrite IH by (simpl in Hn; lia).
    cbn [obind map app Nat.sub]. reflexivity.
Qed.

Lemma constant_pass_overflow (v : vertex) (rows_ : list (vertex_seq * counter_t))
    (bs : behavioral_score) :
  (List.length bs < List.length rows_)%nat -> constant_pass v rows_ bs = None.
Proof.
  revert bs. induction rows_ as [| vct l IH]; intros bs Hn; [simpl in Hn; lia |].
  destruct bs as [| b bs]; [reflexivity |].
  cbn [constant_pass]. rewrite IH by (simpl in Hn; lia). reflexivity.
Qed.

(** X15: on a constant candidate, [enum_effective_bscore::operator()]
    gives every row of the table the count of the constant in the row
    minus the count of the row, fills the score with zeros up to
    [_ctable_usize] components, and leaves the complexity penalty at 0,
    whether or not the Occam's razor is set; a table with more rows than
    [_ctable_usize] takes it past the end of the score. *)
Theorem X15_enum_effective_constant (self : t) (tr : combo_tree) :
  is_enum_type (root tr) = true ->
  let size := Z.to_nat (ctable_usize self) in
  ((List.length (rows (ctable self)) <= size)%nat ->
   operator eval_throws_binding tree_complexity self tr
   = Some (map (fun vct : vertex_seq * counter_t =>
                  Fin (IZR (counter_get (snd vct) (root tr))
                       - IZR (Counter.total_count (snd vct))))
               (rows (ctable self))
           ++ repeat (Fin 0) (size - List.length (rows (ctable self))),
           Fin 0))
  /\ ((size < List.length (rows (ctable self)))%nat ->
      operator eval_throws_binding tree_complexity self tr = None).
Proof.
  intros Hty size. unfold operator. rewrite Hty. fold size. split; intros Hn.
  - rewrite constant_pass_rows by exact Hn. reflexivity.
  - rewrite constant_pass_overflow; [reflexivity |].
    now rewrite repeat_length.
Qed.

Lemma else_pass_settle (else_clause : combo_tree) (w : R)
    (rows_ : list (vertex_seq * counter_t)) (cells : list cell) :
  (List.length rows_ <= List.length cells)%nat ->
  exists cells',
    else_pass (root else_clause) (Fin w) rows_ cells = Some cells'
    /\ map fst cells'
       = settle (holds_on eval_throws_binding) [w] [] else_clause rows_ cells.
Proof.
  revert cells. induction rows_ as [| vct l IH]; intros cells Hn.
  - exists cells. split; reflexivity.
  - destruct cells as [| [b d] cells]; [simpl in Hn; lia |].
    destruct (IH cells) as [cells' [E Hs]]; [simpl in Hn; lia |].
    cbn [else_pass settle]. rewrite E. cbn [obind].
    destruct d; cbn [negb].
    + eexists. split; [reflexivity |]. cbn [map fst]. now rewrite Hs.
    + eexists. split; [reflexivity |]. cbn [map fst]. rewrite Hs.
      f_equal. f_equal. unfold weighted_component, Score.of_Z.
      cbn [first_true fst snd nth Score.neg Score.add Score.mul].
      f_equal. lra.
Qed.

Lemma predicate_pass_settle (pc : combo_tree * combo_tree) (w : R)
    (rows_ : list (vertex_seq * counter_t)) (cells : list cell) (eff0 : bool) :
  (List.length rows_ <= List.length cells)%nat ->
  (forall vct, In vct rows_ -> eval_throws_binding (fst vct) (fst pc) <> None) ->
  (forall vct, In vct rows_ -> int_counts vct) ->
  exists cells1 eff,
    predicate_pass eval_throws_binding (fst pc) (root (snd pc)) (Fin w)
                   rows_ cells eff0 = Some (cells1, eff)
    /\ List.length cells1 = List.length cells
    /\ eff = eff0
             || existsb (fun vct : vertex_seq * counter_t =>
                           negb (counter_get (snd vct) (root (snd pc)) =? 0)%Z)
                        (filter (fun vct => holds_on eval_throws_binding
                                              (fst vct) (fst pc))
                                (undone rows_ cells))
    /\ undone rows_ cells1
       = filter (fun vct => negb (holds_on eval_throws_binding (fst vct) (fst pc)))
                (undone rows_ cells)
    /\ forall weights rest else_clause,
         settle (holds_on eval_throws_binding) (w :: weights) (pc :: rest)
                else_clause rows_ cells
         = settle (holds_on eval_throws_binding) weights rest else_clause
                  rows_ cells1.
Proof.
  revert cells eff0.
  induction rows_ as [| vct l IH]; intros cells eff0 Hn Hev Hint.
  - exists cells, eff0. cbn [predicate_pass undone filter existsb settle].
    rewrite orb_false_r. repeat apply conj; reflexivity.
  - destruct cells as [| [b d] cells]; [simpl in Hn; lia |].
    assert (Hn' : (List.length l <= List.length cells)%nat) by (simpl in Hn; lia).
    assert (Hev' : forall v, In v l -> eval_throws_binding (fst v) (fst pc) <> None)
      by (intros v Hv; apply Hev; now right).
    assert (Hint' : forall v, In v l -> int_counts v)
      by (intros v Hv; apply Hint; now right).
    cbn [predicate_pass undone settle].
    destruct d; cbn [negb].
    + destruct (IH cells eff0 Hn' Hev' Hint') as [c1 [eff [E [Hl [He [Hu Hs]]]]]].
      rewrite E. cbn [obind fst snd].
      exists ((b, true) :: c1), eff.
      repeat apply conj; trivial.
      * simpl. now rewrite Hl.
      * intros weights rest else_clause. cbn [settle]. now rewrite Hs.
    + destruct (eval_throws_binding (fst vct) (fst pc)) as [pr |] eqn:Epr;
        [| exfalso; apply (Hev vct); [now left | exact Epr]].
      assert (Hh : holds_on eval_throws_binding (fst vct) (fst pc)
                   = vertex_eqb pr logical_true)
        by (unfold holds_on; now rewrite Epr).
      cbn [obind filter]. rewrite Hh.
      destruct (int_row_score (root (snd pc)) (Hint vct (or_introl eq_refl)))
        as [Eget Esub].
      destruct (vertex_eqb pr logical_true) eqn:Etrue; cbn [negb].
      * rewrite Eget, Esub.
        destruct (IH cells
                     (if negb (0 =? counter_get (snd vct) (root (snd pc)))%Z
                      then true else eff0) Hn' Hev' Hint')
          as [c1 [eff [E [Hl [He [Hu Hs]]]]]].
        rewrite E. cbn [obind fst snd].
        eexists. exists eff. split; [reflexivity |].
        repeat apply conj.
        -- simpl. now rewrite Hl.
        -- rewrite He. cbn [existsb]. rewrite Z.eqb_sym.
           destruct (counter_get (snd vct) (root (snd pc)) =? 0)%Z;
             cbn [negb]; destruct eff0; reflexivity.
        -- cbn [undone]. exact Hu.
        -- intros weights rest else_clause. cbn [settle]. rewrite Hs.
           f_equal. f_equal. unfold weighted_component, Score.of_Z.
           cbn [first_true]. rewrite Hh; try rewrite Etrue.
           cbn [fst snd nth Score.mul]. f_equal. rewrite minus_IZR. reflexivity.
      * destruct (IH cells eff0 Hn' Hev' Hint') as [c1 [eff [E [Hl [He [Hu Hs]]]]]].
        rewrite E. cbn [obind fst snd].
        exists ((b, false) :: c1), eff.
        repeat apply conj; trivial.
        -- simpl. now rewrite Hl.
        -- cbn [undone]. now rewrite Hu.
        -- intros weights rest else_clause. cbn [settle]. rewrite Hs.
           f_equal. f_equal. f_equal. unfold weighted_component.
           cbn [first_true]. rewrite Hh; try rewrite Etrue. reflexivity.
Qed.

Lemma passes_settle (g : R) (rows_ : list (vertex_seq * counter_t))
    (branches : list (combo_tree * combo_tree)) (else_clause : combo_tree)
    (cells : list cell) (w : R) :
  enum_graded_bscore.is_cond_chain branches else_clause ->
  (List.length rows_ <= List.length cells)%nat ->
  (forall vct pc, In vct rows_ -> In pc branches ->
     eval_throws_binding (fst vct) (fst pc) <> None) ->
  (forall vct, In vct rows_ -> int_counts vct) ->
  exists cells',
    passes eval_throws_binding (Fin g) rows_
           (enum_graded_bscore.cond_children branches else_clause) cells (Fin w)
    = Some cells'
    /\ map fst cells'
       = settle (holds_on eval_throws_binding)
                (branch_weights (holds_on eval_throws_binding) g
                                (undone rows_ cells) branches w)
                branches else_clause rows_ cells.
Proof.
  intros [Hpreds Helse]. revert cells w.
  induction Hpreds as [| pc branches Hpc Hpreds IH]; intros cells w Hn Hev Hint.
  - unfold enum_graded_bscore.cond_children.
    cbn [flat_map app passes branch_weights]. rewrite Helse.
    now apply else_pass_settle.
  - unfold enum_graded_bscore.cond_children in *.
    cbn [flat_map app passes branch_weights]. rewrite Hpc.
    destruct (@predicate_pass_settle pc w rows_ cells false Hn)
      as [c1 [eff [E [Hl [He [Hu Hs]]]]]]; trivial.
    { intros vct Hin. apply Hev; [exact Hin | now left]. }
    rewrite E. cbn [obind fst snd].
    cbn [orb] in He.
    replace (if eff then Score.mul (Fin w) (Fin g) else Fin w)
      with (Fin (if eff then w * g else w)%R) by (destruct eff; reflexivity).
    destruct (IH c1 (if eff then (w * g)%R else w)) as [cells' [E' Hs']].
    + lia.
    + intros vct pc' Hin Hpc'. apply Hev; [exact Hin | now right].
    + exact Hint.
    + exists cells'. split; [exact E' |].
      rewrite Hs', Hu, Hs, <- He. reflexivity.
Qed.

Lemma settle_fresh (holds : vertex_seq -> combo_tree -> bool) (weights : list R)
    (branches : list (combo_tree * combo_tree)) (else_clause : combo_tree)
    (rows_ : list (vertex_seq * counter_t)) (n : nat) :
  (List.length rows_ <= n)%nat ->
  undone rows_ (repeat (Fin 0, false) n) = rows_
  /\ settle holds weights branches else_clause rows_ (repeat (Fin 0, false) n)
     = map (fun vct => Fin (weighted_component holds weights branches
                                               else_clause vct)) rows_
       ++ repeat (Fin 0) (n - List.length rows_).
Proof.
  revert n. induction rows_ as [| vct l IH]; intros n Hn.
  - split; [destruct n; reflexivity |].
    cbn [settle map app List.length]. rewrite Nat.sub_0_r. clear Hn.
    induction n as [| n IHn]; [reflexivity |].
    cbn [repeat map fst]. now rewrite IHn.
  - destruct n as [| n]; [simpl in Hn; lia |].
    destruct (IH n) as [Hu Hs]; [simpl in Hn; lia |].
    cbn [repeat undone settle map app List.length Nat.sub].
    rewrite Hu, Hs. split; [reflexivity |].
    f_equal. cbn [Score.add]. f_equal. lra.
Qed.

(** X16: on a chain of conditions whose predicates evaluate on every
    row, over a table of no more than [_ctable_usize] rows whose counts
    add up to an [int] in every row, [enum_effective_bscore::operator()]
    returns a score of [_ctable_usize] components: for every row of the
    table, the count of the consequent of the first predicate that holds
    on the row (of the else clause when none does) minus the count of
    the row, times the weight of that branch, then zeros.  The weight
    starts at 1 and is multiplied by the grading after each branch that
    is effective: whose predicate holds on a row no earlier predicate
    holds on, a row in which the consequent has a count. *)
Theorem X16_enum_effective_operator (self : t) (g : R)
    (branches : list (combo_tree * combo_tree)) (else_clause : combo_tree) :
  grading self = Fin g ->
  enum_graded_bscore.is_cond_chain branches else_clause ->
  (List.length (rows (ctable self)) <= Z.to_nat (ctable_usize self))%nat ->
  (forall vct pc, In vct (rows (ctable self)) -> In pc branches ->
     eval_throws_binding (fst vct) (fst pc) <> None) ->
  (forall vct, In vct (rows (ctable self)) ->
     (forall kv, In kv (snd vct) -> 0 <= snd kv)%Z
     /\ (count_sum (snd vct) < Int.half)%Z) ->
  let holds := holds_on eval_throws_binding in
  let weights := branch_weights holds g (rows (ctable self)) branches 1 in
  exists penalty,
    operator eval_throws_binding tree_complexity self
             (Node cond (enum_graded_bscore.cond_children branches else_clause))
    = Some (map (fun vct => Fin (weighted_component holds weights branches
                                                    else_clause vct))
                (rows (ctable self))
            ++ repeat (Fin 0) (Z.to_nat (ctable_usize self)
                               - List.length (rows (ctable self))),
            penalty).
Proof.
  intros Hgr Hchain Hn Hev Hint holds weights.
  destruct (@settle_fresh holds weights branches else_clause
              (rows (ctable self)) (Z.to_nat (ctable_usize self)) Hn)
    as [Hu Hs].
  destruct (@passes_settle g (rows (ctable self)) branches else_clause
              (repeat (Fin 0, false) (Z.to_nat (ctable_usize self))) 1%R Hchain)
    as [cells [E Hcells]]; trivial.
  { now rewrite repeat_length. }
  rewrite Hu in Hcells. fold holds in Hcells. fold weights in Hcells.
  unfold operator. cbn [root is_enum_type vertex_eqb negb children].
  rewrite Hgr, E. cbn [obind]. rewrite Hcells, Hs.
  destruct (occam self).
  - unfold enum_graded_bscore.graded_complexity. cbn [children].
    destruct (@graded_loop_returns tree_complexity
                (enum_graded_bscore.grading (as_enum_graded self))
                branches else_clause (Fin 0) (Fin 1) Hchain) as [r ->].
    cbn [obind]. eexists. reflexivity.
  - cbn [obind]. eexists. reflexivity.
Qed.

End EnumEffective.

Lemma X15_enum_effective_constant_witness :
  enum_effective_bscore.operator (fun _ _ => None) (fun _ => 1%Z)
    sample_effective (Node (enum "a") [])
  = Some ([Fin (IZR 2 - IZR 3); Fin 0; Fin 0], Fin 0).
Proof.
  refine (proj1 (@X15_enum_effective_constant (fun _ _ => None) (fun _ => 1%Z)
                   sample_effective (Node (enum "a") []) eq_refl) _).
  simpl. lia.
Defined.

Lemma X16_enum_effective_operator_witness :
  let holds := holds_on (fun _ _ => Some logical_true) in
  let weights :=
    branch_weights holds (1 / 2)
                   (rows (enum_effective_bscore.ctable sample_effective))
                   sample_branches 1 in
  exists penalty,
    enum_effective_bscore.operator (fun _ _ => Some logical_true) (fun _ => 1%Z)
      sample_effective
      (Node cond (enum_graded_bscore.cond_children sample_branches sample_else))
    = Some (map (fun vct => Fin (weighted_component holds weights sample_branches
                                                    sample_else vct))
                (rows (enum_effective_bscore.ctable sample_effective))
            ++ repeat (Fin 0)
                 (Z.to_nat (enum_effective_bscore.ctable_usize sample_effective)
                  - List.length
                      (rows (enum_effective_bscore.ctable sample_effective))),
            penalty).
Proof.
  apply (@X16_enum_effective_operator (fun _ _ => Some logical_true)
           (fun _ => 1%Z) sample_effective (1 / 2) sample_branches sample_else
           eq_refl sample_is_cond_chain).
  - simpl. lia.
  - intros vct pc _ _. discriminate.
  - intros vct [<- | []]. split.
    + intros kv [<- | [<- | []]]; simpl; lia.
    + vm_compute. reflexivity.
Defined.
